(** * Virus genealogy: a shallow embedding of [virus_genealogy.h]

    [VirusGenealogy<Virus>] keeps a graph of viruses.  Every virus lives in a
    [Node] that is shared through [std::shared_ptr]; the store maps virus
    identifiers to these pointers and every node keeps two
    [std::set<std::shared_ptr<Node>>], its parents and its children.

    The embedding keeps the pointers: a node lives in a heap at an address,
    a [shared_ptr] is that address, and a [std::set] of pointers is the list
    of its elements in ascending address order (the order [std::set] keeps
    and iterates in, since [shared_ptr]s compare by the address they hold). *)

From stdpp Require Import base decidable option numbers list sorting fin_maps gmap strings.

(** ** Exceptions *)

Inductive exn : Type :=
  | VirusAlreadyCreated
  | VirusNotFound
  | TriedToRemoveStemVirus.

(** A mutating member function either returns or throws; in both cases the
    store it leaves behind is part of the outcome. *)
Inductive outcome (S : Type) : Type :=
  | Return (st : S)
  | Throw (e : exn) (st : S).
Arguments Return {S} st.
Arguments Throw {S} e st.

(** A [const] member function returns a value or throws. *)
Inductive result (A : Type) : Type :=
  | Ok (x : A)
  | Err (e : exn).
Arguments Ok {A} x.
Arguments Err {A} e.

Definition state_of {S} (o : outcome S) : S :=
  match o with Return st => st | Throw _ st => st end.

(** ** Pointers and sets of pointers *)

(** The address a [shared_ptr<Node>] holds. *)
Abbreviation addr := N.

(** [std::set<smart_ptr>]: its elements in iteration order. *)
Abbreviation set_t := (list addr).

(** [s.insert(a)]: [a] goes to its place in the order, unless it is there. *)
Fixpoint set_insert (a : addr) (s : set_t) : set_t :=
  match s with
  | [] => [a]
  | b :: s' =>
      if decide (a < b)%N then a :: b :: s'
      else if decide (a = b) then b :: s'
      else b :: set_insert a s'
  end.

(** [s.contains(a)]. *)
Definition set_contains (a : addr) (s : set_t) : bool := bool_decide (a ∈ s).

(** [s.erase(it)] for an iterator [it] at [a] (also what a [RemoveGuard]
    does to the element it found). *)
Definition set_erase (a : addr) (s : set_t) : set_t := filter (λ b, b ≠ a) s.

Section genealogy.
(** [Virus::id_type], the key type of a [std::map]. *)
Context {virus_id_t : Type} `{Countable virus_id_t}.

(** The template argument [Virus]: built from an identifier, which
    [get_id] gives back.  It is also the payload the iterator yields. *)
Record Virus : Type := mkVirus { get_id : virus_id_t }.

Record Node : Type := mkNode {
  virus : Virus;
  parents : set_t;
  children : set_t
}.

(** [Node(id)]: no parents, no children. *)
Definition new_Node (id : virus_id_t) : Node :=
  {| virus := mkVirus id; parents := []; children := [] |}.

Definition with_parents (f : set_t → set_t) (n : Node) : Node :=
  {| virus := virus n; parents := f (parents n); children := children n |}.

Definition with_children (f : set_t → set_t) (n : Node) : Node :=
  {| virus := virus n; parents := parents n; children := f (children n) |}.

(** [parents.clear(); children.clear()]. *)
Definition clear_Node (n : Node) : Node :=
  {| virus := virus n; parents := []; children := [] |}.

(** The store: the nodes that are alive, [viruses] and [stemNode]. *)
Record VirusGenealogy : Type := mkGenealogy {
  heap : gmap addr Node;
  viruses : gmap virus_id_t addr;
  stemNode : addr
}.

Definition set_heap (h : gmap addr Node) (st : VirusGenealogy) : VirusGenealogy :=
  {| heap := h; viruses := viruses st; stemNode := stemNode st |}.

Definition set_viruses (v : gmap virus_id_t addr) (st : VirusGenealogy) : VirusGenealogy :=
  {| heap := heap st; viruses := v; stemNode := stemNode st |}.

(** [a->children] and [a->parents].  A [shared_ptr] keeps its node
    alive, so the lookup cannot miss in a store the class builds. *)
Definition children_at (h : gmap addr Node) (a : addr) : set_t :=
  match h !! a with Some n => children n | None => [] end.

Definition parents_at (h : gmap addr Node) (a : addr) : set_t :=
  match h !! a with Some n => parents n | None => [] end.

(** [a->get_id()]. *)
Definition id_at (h : gmap addr Node) (a : addr) : option virus_id_t :=
  get_id ∘ virus <$> h !! a.

(** *** Lifetime of nodes

    A node is destroyed when the last [shared_ptr] to it goes away.  The
    pointers to a node are: [stemNode], the values of [viruses], and the
    elements of the sets of the nodes that are alive. *)
Definition referenced (a : addr) (st : VirusGenealogy) : Prop :=
  a = stemNode st
  ∨ map_Exists (λ _ b, b = a) (viruses st)
  ∨ map_Exists (λ _ n, a ∈ parents n ∨ a ∈ children n) (heap st).

Global Instance referenced_dec a st : Decision (referenced a st).
Proof. unfold referenced. apply _. Defined.

(** What is left of node [a] once a pointer to it has been dropped.  Where
    the class drops the last pointer to a node, the sets of the node hold
    no pointer that keeps another node alive: [remove] has cleared them, and
    in [create] they hold parents that [viruses] holds too. *)
Definition release (a : addr) (st : VirusGenealogy) : VirusGenealogy :=
  if decide (referenced a st) then st else set_heap (delete a (heap st)) st.

(** ** The private [connect(child_id, parent_ids)] *)

(** [in_process]: pairs of a children set, named by the node that owns
    it, and an iterator into it, named by the element it points at. *)
Abbreviation in_process_t := (list (addr * addr)).

(** The body of [for (auto &id: parent_ids)].  It stops at the first
    identifier [viruses.at] does not find, with what was done so far. *)
Fixpoint connect_loop (child : addr) (parent_ids : list virus_id_t)
    (in_process : in_process_t) (h : gmap addr Node) (v : gmap virus_id_t addr)
    : bool * in_process_t * gmap addr Node :=
  match parent_ids with
  | [] => (true, in_process, h)
  | id :: rest =>
      match v !! id with
      | None => (false, in_process, h)
      | Some parent =>
          if set_contains child (children_at h parent)
          then connect_loop child rest in_process h v
          else
            let h1 := alter (with_children (set_insert child)) parent h in
            let in_process1 := in_process ++ [(parent, child)] in
            let h2 := alter (with_parents (set_insert parent)) child h1 in
            connect_loop child rest in_process1 h2 v
      end
  end.

(** [for (auto &[set, iter]: in_process) set->erase(iter);] *)
Definition rollback (in_process : in_process_t) (h : gmap addr Node) : gmap addr Node :=
  foldl (λ h '(owner, elem), alter (with_children (set_erase elem)) owner h) h in_process.

Definition connect_many (child_id : virus_id_t) (parent_ids : list virus_id_t)
    (st : VirusGenealogy) : outcome VirusGenealogy :=
  match viruses st !! child_id with
  | None => Throw VirusNotFound st
  | Some child =>
      match connect_loop child parent_ids [] (heap st) (viruses st) with
      | (true, _, h) => Return (set_heap h st)
      | (false, in_process, h) =>
          Throw VirusNotFound (set_heap (rollback in_process h) st)
      end
  end.

(** ** The public interface *)

(** [VirusGenealogy(stem_id)]; [a] is the address [make_shared] returns. *)
Definition construct (stem_id : virus_id_t) (a : addr) : VirusGenealogy :=
  {| heap := {[ a := new_Node stem_id ]};
     viruses := {[ stem_id := a ]};
     stemNode := a |}.

Definition get_stem_id (st : VirusGenealogy) : option virus_id_t :=
  id_at (heap st) (stemNode st).

Definition exists_ (id : virus_id_t) (st : VirusGenealogy) : bool :=
  bool_decide (is_Some (viruses st !! id)).

(** What a walk from [get_children_begin(id)] to [get_children_end(id)]
    yields: dereferencing the iterator gives the [virus] of the node its
    set iterator points at, for every element of the children set, in the
    order of the set. *)
Definition get_children (id : virus_id_t) (st : VirusGenealogy)
    : option (result (list Virus)) :=
  match viruses st !! id with
  | None => Some (Err VirusNotFound)
  | Some a =>
      Ok <$> mapM (λ c, virus <$> heap st !! c) (children_at (heap st) a)
  end.

Definition get_parents (id : virus_id_t) (st : VirusGenealogy)
    : option (result (list virus_id_t)) :=
  match viruses st !! id with
  | None => Some (Err VirusNotFound)
  | Some a =>
      Ok <$> mapM (id_at (heap st)) (parents_at (heap st) a)
  end.

(** [operator[]]. *)
Definition lookup_virus (id : virus_id_t) (st : VirusGenealogy)
    : option (result Virus) :=
  match viruses st !! id with
  | None => Some (Err VirusNotFound)
  | Some a => Ok ∘ virus <$> heap st !! a
  end.

(** [connect(child_id, parent_id)]. *)
Definition connect (child_id parent_id : virus_id_t) (st : VirusGenealogy)
    : outcome VirusGenealogy :=
  connect_many child_id [parent_id] st.

(** [create(id, parent_ids)]; [a] is the address [make_shared] returns
    for the new node, should the call get that far. *)
Definition create (id : virus_id_t) (parent_ids : list virus_id_t) (a : addr)
    (st : VirusGenealogy) : outcome VirusGenealogy :=
  match parent_ids with
  | [] => Return st
  | _ :: _ =>
      if exists_ id st then Throw VirusAlreadyCreated st
      else
        let st1 := {| heap := <[a := new_Node id]> (heap st);
                      viruses := <[id := a]> (viruses st);
                      stemNode := stemNode st |} in
        match connect_many id parent_ids st1 with
        | Return st2 => Return st2
        | Throw e st2 =>
            Throw e (release a (set_viruses (delete id (viruses st2)) st2))
        end
  end.

(** [create(id, parent_id)]. *)
Definition create_one (id parent_id : virus_id_t) (a : addr)
    (st : VirusGenealogy) : outcome VirusGenealogy :=
  create id [parent_id] a st.

(** ** [remove] *)

(** The locals of the traversal. *)
Record traversal : Type := mkTraversal {
  to_process : list addr;
  fully_remove : set_t;
  remove_iterators : list virus_id_t;
  removed_parents : gmap virus_id_t nat
}.

(** [for (auto child: current->children)]: count [current] as a deleted
    parent of [child] and queue [child] when the count reaches the size
    of its parents set. *)
Fixpoint count_children (h : gmap addr Node) (cs : list addr)
    (rp : gmap virus_id_t nat) (q : list addr)
    : option (gmap virus_id_t nat * list addr) :=
  match cs with
  | [] => Some (rp, q)
  | child :: cs' =>
      n ← h !! child;
      let id := get_id (virus n) in
      let val := S (default 0 (rp !! id)) in
      count_children h cs' (<[id := val]> rp)
        (if decide (val = length (parents n)) then q ++ [child] else q)
  end.

(** [while (!to_process.empty())].  [current] is bound to
    [to_process.front()] and the queue is popped right after; the model
    reads [current] as the pointer that was at the front when it was
    bound. *)
Fixpoint traverse (fuel : nat) (h : gmap addr Node) (t : traversal)
    : option traversal :=
  match fuel with
  | O => None
  | S fuel' =>
      match to_process t with
      | [] => Some t
      | current :: q =>
          n ← h !! current;
          '(rp, q') ← count_children h (children n) (removed_parents t) q;
          traverse fuel' h
            {| to_process := q';
               fully_remove := set_insert current (fully_remove t);
               remove_iterators := remove_iterators t ++ [get_id (virus n)];
               removed_parents := rp |}
      end
  end.

(** A [RemoveGuard]: the set it guards (the parents or the children set
    of a node) and the element its iterator found there. *)
Inductive RemoveGuard : Type :=
  | GuardParents (owner : addr) (node : addr)
  | GuardChildren (owner : addr) (node : addr).

Global Instance RemoveGuard_eq_dec : EqDecision RemoveGuard.
Proof. solve_decision. Defined.

(** [~RemoveGuard()] after [drop_rollback()]. *)
Definition commit (h : gmap addr Node) (g : RemoveGuard) : gmap addr Node :=
  match g with
  | GuardParents owner node => alter (with_parents (set_erase node)) owner h
  | GuardChildren owner node => alter (with_children (set_erase node)) owner h
  end.

(** The guards for the edges from deleted nodes to children that stay. *)
Definition child_guards (h : gmap addr Node) (fr : set_t) : list RemoveGuard :=
  current ← fr;
  (λ child, GuardParents child current) <$>
    filter (λ child, child ∉ fr) (children_at h current).

(** The guards for the edges from the parents of [begin_node]. *)
Definition parent_guards (h : gmap addr Node) (begin_node : addr) : list RemoveGuard :=
  (λ parent, GuardChildren parent begin_node) <$> parents_at h begin_node.

(** [remove(id)].  A node is queued when its count reaches the size of its
    parents set, which happens once, so the loop takes no more turns than
    there are nodes, and one more for [begin_node]; [None] stands for a
    traversal that is not over after that many turns, or that meets a
    pointer without a node.

    The guards are made for the nodes of [fully_remove] in the order of
    the set; [remove_edge.clear()] runs their destructors.  The iterators
    in [remove_iterators] are named by their keys.  Exceptions of the
    allocator are not part of the model.

    The loop takes [begin_node] a second time when all the parents of
    [begin_node] descend from it.  The code then erases the same iterator
    of [viruses] twice, which has no defined meaning; the model deletes the
    key, and deleting it again changes nothing.  The theorems on the store
    a [remove] returns take a store without such a cycle; the lemmas on
    [wf] and on the end of the loop hold of the model with it as well. *)
Definition remove (id : virus_id_t) (st : VirusGenealogy)
    : option (outcome VirusGenealogy) :=
  stem_id ← get_stem_id st;
  if decide (id = stem_id) then Some (Throw TriedToRemoveStemVirus st)
  else
    match viruses st !! id with
    | None => Some (Throw VirusNotFound st)
    | Some begin_node =>
        t ← traverse (2 + size (heap st)) (heap st)
              {| to_process := [begin_node]; fully_remove := [];
                 remove_iterators := []; removed_parents := ∅ |};
        let remove_edge :=
          child_guards (heap st) (fully_remove t)
          ++ parent_guards (heap st) begin_node in
        let h1 := foldl commit (heap st) remove_edge in
        let h2 := foldl (λ h a, alter clear_Node a h) h1 (fully_remove t) in
        let v := foldl (λ v i, delete i v) (viruses st) (remove_iterators t) in
        Some (Return
          (foldl (λ s a, release a s)
             {| heap := h2; viruses := v; stemNode := stemNode st |}
             (fully_remove t)))
    end.

End genealogy.

Arguments Virus : clear implicits.
Arguments Node : clear implicits.
Arguments VirusGenealogy _ {_ _}.
Arguments traversal _ {_ _}.

(** ** The children iterators and the destructor *)

(** [Node::Iterator]: a [set_t::iterator] into the children set of a node.
    The model names it by the node and by the number of elements of the set
    that come before it; before the iterator [end()] come all of them.  An
    iterator is read against the store it was taken from. *)
Record Iterator : Type := mkIterator { it_node : addr; it_pos : nat }.

Global Instance Iterator_eq_dec : EqDecision Iterator.
Proof. solve_decision. Defined.

Section iterators.
Context {virus_id_t : Type} `{Countable virus_id_t}.

(** [Node::begin()] and [Node::end()]. *)
Definition Node_begin (a : addr) : Iterator := mkIterator a 0.

Definition Node_end (h : gmap addr (Node virus_id_t)) (a : addr) : Iterator :=
  mkIterator a (length (children_at h a)).

Definition get_children_begin (id : virus_id_t) (st : VirusGenealogy virus_id_t)
    : result Iterator :=
  match viruses st !! id with
  | None => Err VirusNotFound
  | Some a => Ok (Node_begin a)
  end.

Definition get_children_end (id : virus_id_t) (st : VirusGenealogy virus_id_t)
    : result Iterator :=
  match viruses st !! id with
  | None => Err VirusNotFound
  | Some a => Ok (Node_end (heap st) a)
  end.

(** The dereference operator: the [virus] of the node the set iterator
    points at.  There is none at [end()]. *)
Definition Iterator_deref (st : VirusGenealogy virus_id_t) (it : Iterator)
    : option (Virus virus_id_t) :=
  c ← children_at (heap st) (it_node it) !! it_pos it;
  virus <$> heap st !! c.

(** [operator++()]; there is no iterator after [end()]. *)
Definition Iterator_incr (st : VirusGenealogy virus_id_t) (it : Iterator)
    : option Iterator :=
  if decide (it_pos it < length (children_at (heap st) (it_node it)))
  then Some (mkIterator (it_node it) (S (it_pos it)))
  else None.

(** [operator--()]; there is no iterator before [begin()]. *)
Definition Iterator_decr (it : Iterator) : option Iterator :=
  match it_pos it with
  | O => None
  | S k => Some (mkIterator (it_node it) k)
  end.

(** [operator++(int)] and [operator--(int)]: the value returned, which is
    the iterator as it was, and the iterator after the call. *)
Definition Iterator_post_incr (st : VirusGenealogy virus_id_t) (it : Iterator)
    : option (Iterator * Iterator) :=
  it' ← Iterator_incr st it; Some (it, it').

Definition Iterator_post_decr (it : Iterator) : option (Iterator * Iterator) :=
  it' ← Iterator_decr it; Some (it, it').

(** [operator==] and [operator!=]. *)
Definition Iterator_eqb (a b : Iterator) : bool := bool_decide (a = b).

Definition Iterator_neqb (a b : Iterator) : bool := negb (Iterator_eqb a b).

(** The loop of a caller who walks forward: dereference and increment as
    long as the iterator is not [last]. *)
Fixpoint walk (fuel : nat) (st : VirusGenealogy virus_id_t) (it last : Iterator)
    : option (list (Virus virus_id_t)) :=
  match fuel with
  | O => None
  | S fuel' =>
      if Iterator_neqb it last then
        v ← Iterator_deref st it;
        it' ← Iterator_incr st it;
        vs ← walk fuel' st it' last;
        Some (v :: vs)
      else Some []
  end.

(** The loop of a caller who walks backward: decrement and dereference as
    long as the iterator is not [first]. *)
Fixpoint walk_back (fuel : nat) (st : VirusGenealogy virus_id_t) (it first : Iterator)
    : option (list (Virus virus_id_t)) :=
  match fuel with
  | O => None
  | S fuel' =>
      if Iterator_neqb it first then
        it' ← Iterator_decr it;
        v ← Iterator_deref st it';
        vs ← walk_back fuel' st it' first;
        Some (v :: vs)
      else Some []
  end.

(** The nodes of [h] that a node of [h] points at. *)
Definition pointed_at (h : gmap addr (Node virus_id_t)) : gmap addr (Node virus_id_t) :=
  filter (λ '(a, _), map_Exists (λ _ n, a ∈ parents n ∨ a ∈ children n) h) h.

(** Destroying the nodes no pointer is left to, and then the nodes whose
    last pointer went with these, and so on. *)
Fixpoint sweep (fuel : nat) (h : gmap addr (Node virus_id_t))
    : gmap addr (Node virus_id_t) :=
  match fuel with
  | O => h
  | S fuel' =>
      if decide (size (pointed_at h) = size h) then h
      else sweep fuel' (pointed_at h)
  end.

(** [~VirusGenealogy()]: the sets of every node in [viruses] are cleared,
    then [viruses]; after that the members go, and [stemNode] with them.
    What is returned are the nodes that are never destroyed. *)
Definition destructor (st : VirusGenealogy virus_id_t) : gmap addr (Node virus_id_t) :=
  let h := foldl (λ h a, alter clear_Node a h) (heap st)
             (snd <$> map_to_list (viruses st)) in
  sweep (size h) h.

End iterators.


(** ** Stores and runs of the interface *)

Section stores.
Context {virus_id_t : Type} `{Countable virus_id_t}.
Implicit Types (st : VirusGenealogy virus_id_t) (h : gmap addr (Node virus_id_t)).

(** The pointers in the sets of live nodes point at live nodes. *)
Definition heap_closed h : Prop :=
  ∀ a n b, h !! a = Some n → b ∈ parents n ∨ b ∈ children n → is_Some (h !! b).

(** The sets are in ascending address order. *)
Definition heap_sorted h : Prop :=
  ∀ a n, h !! a = Some n →
    StronglySorted N.lt (parents n) ∧ StronglySorted N.lt (children n).

(** What holds of a store however the interface was used: [stemNode]
    points at a live node, [viruses] maps an identifier to a live node that
    carries this identifier, and the sets are sets of live nodes. *)
Record wf st : Prop := mk_wf {
  wf_stem : is_Some (heap st !! stemNode st);
  wf_viruses : ∀ id a, viruses st !! id = Some a → id_at (heap st) a = Some id;
  wf_closed : heap_closed (heap st);
  wf_sorted : heap_sorted (heap st)
}.

(** The stores a caller can get: a constructor call followed by calls of
    [create], [connect] and [remove], whether they return or throw.  The
    address of a new node is one that is not in use. *)
Inductive reachable : VirusGenealogy virus_id_t → Prop :=
  | reachable_construct stem_id a :
      reachable (construct stem_id a)
  | reachable_create st id parent_ids a :
      reachable st → heap st !! a = None →
      reachable (state_of (create id parent_ids a st))
  | reachable_connect st child_id parent_id :
      reachable st →
      reachable (state_of (connect child_id parent_id st))
  | reachable_remove st id o :
      reachable st → remove id st = Some o →
      reachable (state_of o).

(** The pointers [viruses.at] finds for [parent_ids], up to the first
    identifier it does not find. *)
Fixpoint found (v : gmap virus_id_t addr) (parent_ids : list virus_id_t) : list addr :=
  match parent_ids with
  | [] => []
  | id :: rest =>
      match v !! id with
      | Some parent => parent :: found v rest
      | None => []
      end
  end.

(** The graph: [edge h a b] when [b] is in the children set of [a]. *)
Definition edge h (a b : addr) : Prop := b ∈ children_at h a.

(** [id2] is [id1] or a descendant of [id1]. *)
Definition descendant st (id1 id2 : virus_id_t) : Prop :=
  ∃ a b, viruses st !! id1 = Some a ∧ viruses st !! id2 = Some b
         ∧ rtc (edge (heap st)) a b.

(** The stores a caller gets who never closes a cycle: [create] is not
    given the new identifier as one of its parents, and [connect] is not
    given a parent that is the child itself or one of its descendants. *)
Inductive disciplined : VirusGenealogy virus_id_t → Prop :=
  | disciplined_construct stem_id a :
      disciplined (construct stem_id a)
  | disciplined_create st id parent_ids a :
      disciplined st → heap st !! a = None → id ∉ parent_ids →
      disciplined (state_of (create id parent_ids a st))
  | disciplined_connect st child_id parent_id :
      disciplined st → ¬ descendant st child_id parent_id →
      disciplined (state_of (connect child_id parent_id st))
  | disciplined_remove st id o :
      disciplined st → remove id st = Some o →
      disciplined (state_of o).

(** What holds in addition of the stores of such a caller. *)
Record inv st : Prop := mk_inv {
  inv_wf : wf st;
  inv_stem_registered :
    ∃ stem_id, viruses st !! stem_id = Some (stemNode st);
  inv_stem_parents : parents_at (heap st) (stemNode st) = [];
  inv_registered : ∀ a n,
    heap st !! a = Some n → viruses st !! get_id (virus n) = Some a;
  inv_symmetric : ∀ a b,
    b ∈ children_at (heap st) a ↔ a ∈ parents_at (heap st) b;
  inv_parents : ∀ a n,
    heap st !! a = Some n → a ≠ stemNode st → parents n ≠ [];
  inv_acyclic : ∀ a, ¬ tc (edge (heap st)) a a
}.

(** [removed_parents[c->get_id()]], zero as long as there is no entry. *)
Definition count_of h (rp : gmap virus_id_t nat) (c : addr) : nat :=
  default 0 (id_at h c ≫= λ id, rp !! id).

(** The live nodes whose count is below the size of their parents set:
    the nodes the traversal may still queue. *)
Definition unsaturated h (rp : gmap virus_id_t nat) : list addr :=
  filter (λ c, count_of h rp c < length (parents_at h c)) (elements (dom h)).

(** What holds of the locals of the traversal of [remove], started from
    [r] in such a store, each time the loop tests the queue: no node is
    queued twice or after it was processed; the queued and the processed
    nodes are live and are [r] or descendants of [r]; the count of a node is
    the number of its parents that were processed; a node other than [r] is
    queued or processed exactly when it has parents and all of them were
    processed. *)
Record traversal_inv h (r : addr) (t : traversal virus_id_t) : Prop := mk_traversal_inv {
  ti_nodup : NoDup (to_process t);
  ti_disjoint : ∀ c, c ∈ to_process t → c ∉ fully_remove t;
  ti_sorted : StronglySorted N.lt (fully_remove t);
  ti_live : ∀ c, c ∈ to_process t ∨ c ∈ fully_remove t → is_Some (h !! c);
  ti_desc : ∀ c, c ∈ to_process t ∨ c ∈ fully_remove t → rtc (edge h) r c;
  ti_count : ∀ c, is_Some (h !! c) →
    count_of h (removed_parents t) c
    = length (filter (λ p, p ∈ fully_remove t) (parents_at h c));
  ti_seen : ∀ c, is_Some (h !! c) → c ≠ r →
    (c ∈ to_process t ∨ c ∈ fully_remove t)
    ↔ (parents_at h c ≠ [] ∧ ∀ p, p ∈ parents_at h c → p ∈ fully_remove t);
  ti_begin : r ∈ to_process t ∨ r ∈ fully_remove t;
  ti_iterators : ∀ id,
    id ∈ remove_iterators t ↔ ∃ c, c ∈ fully_remove t ∧ id_at h c = Some id
}.

(** The stem is in the store and is the one virus [get_parents] returns
    no parents for. *)
Definition stem_only_parentless st : Prop :=
  ∃ stem_id,
    get_stem_id st = Some stem_id
    ∧ exists_ stem_id st = true
    ∧ ∀ id, exists_ id st = true →
        ∃ ps, get_parents id st = Some (Ok ps) ∧ (ps = [] ↔ id = stem_id).

End stores.

(** ** Examples: small stores with string identifiers *)

Module Examples.
Definition store_S : VirusGenealogy string := construct "S" 100%N.
Definition store_SA := state_of (create "A" ["S"] 101%N store_S).
Definition store_SAB := state_of (create "B" ["S"] 102%N store_SA).
Definition store_SABC := state_of (create "C" ["A"; "B"] 103%N store_SAB).

(** The store [create("X", {"S", "Z"})] hands to the private [connect]:
    [S] and the node just inserted for [X]. *)
Definition store_SX : VirusGenealogy string :=
  {| heap := <[101%N := new_Node "X"]> (heap store_S);
     viruses := <["X" := 101%N]> (viruses store_S);
     stemNode := stemNode store_S |}.

(** A caller who makes the stem a child: [connect("S", "A")]. *)
Definition store_SA_cycle := state_of (connect "S" "A" store_SA).

(** A caller who makes the stem a child of [R], below a node [Q1] that
    keeps another parent, and then removes [R]. *)
Definition store_Q1 := state_of (create "Q1" ["S"] 101%N store_S).
Definition store_Q2 := state_of (create "Q2" ["Q1"] 102%N store_Q1).
Definition store_Q1_Q2 := state_of (connect "Q1" "Q2" store_Q2).
Definition store_R := state_of (create "R" ["Q1"] 103%N store_Q1_Q2).
Definition store_R_S := state_of (connect "S" "R" store_R).

(** The same caller after [remove("R")], which takes the stem with [R],
    and after [create("S", {"Q1", "Q2"})] then, at a new address. *)
Definition store_stem_gone : VirusGenealogy string :=
  match remove "R" store_R_S with
  | Some o => state_of o
  | None => store_R_S
  end.
Definition store_stem_again :=
  state_of (create "S" ["Q1"; "Q2"] 104%N store_stem_gone).

(** Numbers as identifiers: the stem [0], then the viruses [2] and [1],
    created in this order at ascending addresses. *)
Definition store_0 : VirusGenealogy N := construct 0%N 100%N.
Definition store_02 := state_of (create 2%N [0%N] 101%N store_0).
Definition store_021 := state_of (create 1%N [0%N] 102%N store_02).

(** The children iterators of [id] yield viruses in ascending order of
    their identifiers. *)
Definition children_in_id_order (st : VirusGenealogy N) (id : N) : Prop :=
  ∀ vs, get_children id st = Some (Ok vs) → StronglySorted N.lt (get_id <$> vs).
End Examples.

(** * Properties *)

(** ** Sets of pointers *)

Lemma elem_of_set_insert (a b : addr) (s : set_t) :
  b ∈ set_insert a s ↔ b = a ∨ b ∈ s.
Proof.
  induction s as [|c s IH]; simpl.
  - rewrite list_elem_of_singleton, elem_of_nil. tauto.
  - repeat case_decide; subst; rewrite ?elem_of_cons, ?IH; tauto.
Qed.

Lemma elem_of_set_erase (a b : addr) (s : set_t) :
  b ∈ set_erase a s ↔ b ≠ a ∧ b ∈ s.
Proof. unfold set_erase. by rewrite list_elem_of_filter. Qed.

Lemma set_contains_true (a : addr) (s : set_t) :
  set_contains a s = true ↔ a ∈ s.
Proof. unfold set_contains. by rewrite bool_decide_eq_true. Qed.

Lemma set_contains_false (a : addr) (s : set_t) :
  set_contains a s = false ↔ a ∉ s.
Proof. unfold set_contains. by rewrite bool_decide_eq_false. Qed.

Lemma set_erase_notin (a : addr) (s : set_t) : a ∉ s → set_erase a s = s.
Proof.
  unfold set_erase. induction s as [|b s IH]; [done|].
  rewrite not_elem_of_cons. intros [Hne Hs].
  rewrite filter_cons_True by done. by rewrite IH.
Qed.

(** Erasing what was just inserted gives the set back. *)
Lemma set_erase_insert (a : addr) (s : set_t) :
  a ∉ s → set_erase a (set_insert a s) = s.
Proof.
  unfold set_erase. induction s as [|b s IH]; simpl.
  - intros _. by rewrite filter_cons_False, filter_nil by naive_solver.
  - rewrite not_elem_of_cons. intros [Hne Hs]. repeat case_decide; try done.
    + rewrite filter_cons_False by naive_solver.
      rewrite filter_cons_True by done. f_equal.
      by apply (set_erase_notin a s).
    + rewrite filter_cons_True by done. f_equal. by apply IH.
Qed.

Lemma set_insert_sorted (a : addr) (s : set_t) :
  StronglySorted N.lt s → StronglySorted N.lt (set_insert a s).
Proof.
  induction 1 as [|b s Hs IH Hb]; simpl.
  - repeat constructor.
  - repeat case_decide.
    + constructor; [by constructor|].
      constructor; [done|]. eapply Forall_impl; [exact Hb|]. intros; simpl in *; lia.
    + by constructor.
    + constructor; [done|]. apply Forall_forall. intros c Hc.
      apply elem_of_set_insert in Hc as [->|Hc]; [lia|].
      by eapply Forall_forall in Hb.
Qed.

Lemma set_erase_sorted (a : addr) (s : set_t) :
  StronglySorted N.lt s → StronglySorted N.lt (set_erase a s).
Proof.
  unfold set_erase. induction 1 as [|b s Hs IH Hb]; [constructor|].
  destruct (decide (b = a)) as [->|Hne].
  - by rewrite filter_cons_False by naive_solver.
  - rewrite filter_cons_True by done. constructor; [done|].
    apply Forall_forall. intros c Hc. apply list_elem_of_filter in Hc as [_ Hc].
    by eapply Forall_forall in Hb.
Qed.

Lemma sorted_NoDup (s : set_t) : StronglySorted N.lt s → NoDup s.
Proof.
  induction 1 as [|b s Hs IH Hb]; constructor; [|done].
  intros Hin. eapply Forall_forall in Hb; [|exact Hin]. lia.
Qed.

(** ** [create]: the paths that leave the store alone *)

Section create_guards.
Context {virus_id_t : Type} `{Countable virus_id_t}.
Implicit Types (st : VirusGenealogy virus_id_t) (id : virus_id_t) (a : addr).

(** C8: [create] with a non-empty parent list and an identifier that is
    already in the store throws [VirusAlreadyCreated]; the test comes before
    the first change, so the store the exception leaves behind is the store
    the call started from. *)
Theorem create_existing_throws st id (parent_ids : list virus_id_t) a :
  parent_ids ≠ [] →
  exists_ id st = true →
  create id parent_ids a st = Throw VirusAlreadyCreated st.
Proof.
  intros Hne Hex. unfold create.
  destruct parent_ids as [|p ps]; [done|]. by rewrite Hex.
Qed.

(** C9: [create] with an empty parent list and a fresh identifier returns
    without an exception and without a change: the store is the same and the
    identifier is still absent. *)
Theorem create_no_parents_fresh st id a :
  exists_ id st = false →
  create id [] a st = Return st
  ∧ exists_ id (state_of (create id [] a st)) = false.
Proof. intros Hfresh. by split. Qed.

(** C10: [create] with an empty parent list returns without an exception and
    without a change also when the identifier is already in the store: the
    test for the empty list comes first. *)
Theorem create_no_parents_existing st id a :
  exists_ id st = true →
  create id [] a st = Return st.
Proof. by intros _. Qed.

End create_guards.


(** ** The heap, one node at a time *)

Lemma filter_all {A} (P : A → Prop) `{!∀ x, Decision (P x)} (l : list A) :
  (∀ x, x ∈ l → P x) → filter P l = l.
Proof.
  induction l as [|x l IH]; [done|]. intros HP.
  rewrite filter_cons_True by (apply HP; left).
  f_equal. apply IH. intros y Hy. apply HP. by right.
Qed.

Lemma filter_sorted (P : addr → Prop) `{!∀ x, Decision (P x)} (s : set_t) :
  StronglySorted N.lt s → StronglySorted N.lt (filter P s).
Proof.
  induction 1 as [|b s Hs IH Hb]; [constructor|].
  destruct (decide (P b)).
  - rewrite filter_cons_True by done. constructor; [done|].
    apply Forall_forall. intros c Hc. apply list_elem_of_filter in Hc as [_ Hc].
    by eapply Forall_forall in Hb.
  - by rewrite filter_cons_False by done.
Qed.

Lemma set_insert_elem (a : addr) (s : set_t) :
  StronglySorted N.lt s → a ∈ s → set_insert a s = s.
Proof.
  induction 1 as [|b s Hs IH Hb]; [by intros ?%elem_of_nil|].
  rewrite elem_of_cons. intros Hin. simpl. repeat case_decide; try done.
  - destruct Hin as [->|Hin]; [lia|].
    eapply Forall_forall in Hb; [|exact Hin]. lia.
  - f_equal. apply IH. by destruct Hin.
Qed.

Lemma set_insert_length (a : addr) (s : set_t) :
  a ∉ s → length (set_insert a s) = S (length s).
Proof.
  induction s as [|b s IH]; [done|].
  rewrite not_elem_of_cons. intros [Hne Hs]. simpl.
  repeat case_decide; try done. simpl. by rewrite IH.
Qed.

Section heap_facts.
Context {virus_id_t : Type} `{Countable virus_id_t}.
Implicit Types (h : gmap addr (Node virus_id_t)) (n : Node virus_id_t).
Implicit Types (v : gmap virus_id_t addr) (st : VirusGenealogy virus_id_t).

Lemma children_at_lookup h a n : h !! a = Some n → children_at h a = children n.
Proof. unfold children_at. by intros ->. Qed.

Lemma parents_at_lookup h a n : h !! a = Some n → parents_at h a = parents n.
Proof. unfold parents_at. by intros ->. Qed.

Lemma elem_of_children_at h a b :
  b ∈ children_at h a ↔ ∃ n, h !! a = Some n ∧ b ∈ children n.
Proof.
  unfold children_at. destruct (h !! a) as [n|]; [naive_solver|].
  rewrite elem_of_nil. naive_solver.
Qed.

Lemma elem_of_parents_at h a b :
  b ∈ parents_at h a ↔ ∃ n, h !! a = Some n ∧ b ∈ parents n.
Proof.
  unfold parents_at. destruct (h !! a) as [n|]; [naive_solver|].
  rewrite elem_of_nil. naive_solver.
Qed.

Lemma id_at_Some h a id :
  id_at h a = Some id ↔ ∃ n, h !! a = Some n ∧ get_id (virus n) = id.
Proof.
  unfold id_at. destruct (h !! a) as [n|]; simpl; naive_solver.
Qed.

Lemma set_heap_id st : set_heap (heap st) st = st.
Proof. by destruct st. Qed.

Lemma set_viruses_id st : set_viruses (viruses st) st = st.
Proof. by destruct st. Qed.

(** One new edge: [child] into the children of [parent], [parent] into the
    parents of [child]. *)
Lemma lookup_link h (child parent c : addr) :
  alter (with_parents (set_insert parent)) child
    (alter (with_children (set_insert child)) parent h) !! c
  = (λ n, {| virus := virus n;
             parents := if decide (c = child) then set_insert parent (parents n)
                        else parents n;
             children := if decide (c = parent) then set_insert child (children n)
                         else children n |}) <$> h !! c.
Proof.
  rewrite !lookup_alter.
  destruct (h !! c) as [n|] eqn:Hc; repeat case_decide; subst;
    rewrite ?Hc; simpl; try done; by destruct n.
Qed.

(** The guards that were committed, seen from one node. *)
Lemma lookup_commit h (gs : list RemoveGuard) (c : addr) :
  foldl commit h gs !! c
  = (λ n, {| virus := virus n;
             parents := filter (λ e, GuardParents c e ∉ gs) (parents n);
             children := filter (λ e, GuardChildren c e ∉ gs) (children n) |})
    <$> h !! c.
Proof.
  revert h. induction gs as [|g gs IH]; intros h; simpl.
  - destruct (h !! c) as [n|]; simpl; [|done]. destruct n as [vi ps cs]; simpl.
    f_equal. f_equal; symmetry; apply filter_all; intros ? _; apply not_elem_of_nil.
  - rewrite IH. destruct g as [owner node|owner node]; simpl;
      rewrite lookup_alter; case_decide; subst;
      destruct (h !! c) as [n|]; simpl; try done; f_equal; f_equal.
    + unfold set_erase. rewrite list_filter_filter. apply list_filter_iff.
      intros e. rewrite not_elem_of_cons. naive_solver.
    + apply list_filter_iff. intros e. rewrite not_elem_of_cons. naive_solver.
    + apply list_filter_iff. intros e. rewrite not_elem_of_cons. naive_solver.
    + apply list_filter_iff. intros e. rewrite not_elem_of_cons. naive_solver.
    + apply list_filter_iff. intros e. rewrite not_elem_of_cons. naive_solver.
    + unfold set_erase. rewrite list_filter_filter. apply list_filter_iff.
      intros e. rewrite not_elem_of_cons. naive_solver.
    + apply list_filter_iff. intros e. rewrite not_elem_of_cons. naive_solver.
    + apply list_filter_iff. intros e. rewrite not_elem_of_cons. naive_solver.
Qed.

Lemma lookup_clear h (fr : list addr) (c : addr) :
  foldl (λ h a, alter clear_Node a h) h fr !! c
  = (λ n, if decide (c ∈ fr) then clear_Node n else n) <$> h !! c.
Proof.
  revert h. induction fr as [|a fr IH]; intros h; simpl.
  - destruct (h !! c); simpl; [|done].
    by rewrite ?decide_False by apply not_elem_of_nil.
  - rewrite IH, lookup_alter. destruct (decide (a = c)) as [->|Hne].
    + destruct (h !! c) as [n|]; simpl; [|done]. f_equal.
      rewrite (decide_True (P := c ∈ c :: fr)) by left.
      by destruct (decide (c ∈ fr)).
    + destruct (h !! c) as [n|]; simpl; [|done]. f_equal.
      apply decide_ext. rewrite elem_of_cons. naive_solver.
Qed.

Lemma lookup_foldl_delete {K A} `{Countable K} (m : gmap K A) (l : list K) (k : K) :
  foldl (λ m i, delete i m) m l !! k = if decide (k ∈ l) then None else m !! k.
Proof.
  revert m. induction l as [|i l IH]; intros m; simpl.
  - by rewrite ?decide_False by apply not_elem_of_nil.
  - rewrite IH, lookup_delete.
    destruct (decide (i = k)) as [->|Hne].
    + rewrite (decide_True (P := k ∈ k :: l)) by left.
      by destruct (decide (k ∈ l)).
    + apply decide_ext. rewrite elem_of_cons. naive_solver.
Qed.

Lemma lookup_rollback h (ip : list (addr * addr)) (c : addr) :
  rollback ip h !! c
  = with_children (filter (λ e, (c, e) ∉ ip)) <$> h !! c.
Proof.
  unfold rollback. revert h. induction ip as [|[owner elem] ip IH]; intros h; simpl.
  - destruct (h !! c) as [n|]; simpl; [|done]. destruct n as [vi ps cs].
    unfold with_children; simpl. do 2 f_equal. symmetry.
    apply filter_all. intros ? _. apply not_elem_of_nil.
  - rewrite IH, lookup_alter. destruct (decide (owner = c)) as [->|Hne];
      destruct (h !! c) as [n|]; simpl; try done; f_equal;
      unfold with_children; simpl; f_equal.
    + unfold set_erase. rewrite list_filter_filter. apply list_filter_iff.
      intros e. rewrite not_elem_of_cons. naive_solver.
    + apply list_filter_iff. intros e. rewrite not_elem_of_cons. naive_solver.
Qed.
End heap_facts.

(** ** The loop of the private [connect] *)

Section connect_loop_facts.
Context {virus_id_t : Type} `{Countable virus_id_t}.
Implicit Types (h : gmap addr (Node virus_id_t)) (n : Node virus_id_t).
Implicit Types (v : gmap virus_id_t addr) (st : VirusGenealogy virus_id_t).

Lemma children_at_link h (child parent c : addr) :
  children_at
    (alter (with_parents (set_insert parent)) child
       (alter (with_children (set_insert child)) parent h)) c
  = if decide (c = parent ∧ is_Some (h !! c))
    then set_insert child (children_at h c) else children_at h c.
Proof.
  unfold children_at. rewrite lookup_link.
  destruct (h !! c) as [n|] eqn:Hc; simpl.
  - destruct (decide (c = parent)) as [->|Hne].
    + by rewrite decide_True by eauto.
    + by rewrite decide_False by naive_solver.
  - rewrite decide_False; [done|]. intros [_ [? ?]]; done.
Qed.

(** What the loop returns, one node at a time: whether it got to the end
    of [parent_ids], what it added to [in_process], and the heap. *)
Lemma connect_loop_spec (x : addr) v (ids : list virus_id_t) :
  ∀ (ip : list (addr * addr)) h,
  ∃ ipn h',
    connect_loop x ids ip h v
    = (bool_decide (Forall (λ id, is_Some (v !! id)) ids), ip ++ ipn, h')
    ∧ (∀ c e, (c, e) ∈ ipn ↔ e = x ∧ c ∈ found v ids ∧ x ∉ children_at h c)
    ∧ (∀ c, h !! c = None → h' !! c = None)
    ∧ (∀ c n, h !! c = Some n →
        ∃ n', h' !! c = Some n'
          ∧ virus n' = virus n
          ∧ children n'
            = (if decide (c ∈ found v ids ∧ x ∉ children n)
               then set_insert x (children n) else children n)
          ∧ (c ≠ x → parents n' = parents n)
          ∧ (∀ e, e ∈ parents n' ↔
                  e ∈ parents n
                  ∨ (c = x ∧ e ∈ found v ids ∧ x ∉ children_at h e))
          ∧ (StronglySorted N.lt (parents n) → StronglySorted N.lt (parents n'))).
Proof.
  induction ids as [|id ids IH]; intros ip h; simpl.
  - exists [], h. rewrite app_nil_r. split; [done|].
    split; [intros c e; rewrite elem_of_nil; set_solver|].
    split; [done|]. intros c n Hc. exists n.
    split; [done|]. split; [done|].
    split; [first [done | by rewrite decide_False by set_solver]|].
    split; [done|]. split; [set_solver|done].
  - destruct (v !! id) as [p|] eqn:Hid.
    + (* the identifier is in the store *)
      assert (bool_decide (Forall (λ id, is_Some (v !! id)) (id :: ids))
              = bool_decide (Forall (λ id, is_Some (v !! id)) ids)) as ->.
      { apply bool_decide_ext. rewrite Forall_cons. naive_solver. }
      destruct (set_contains x (children_at h p)) eqn:Hcont.
      * (* the edge is there already *)
        apply set_contains_true in Hcont.
        destruct (IH ip h) as (ipn & h' & -> & Hip & Hnone & Hsome).
        exists ipn, h'. split; [done|].
        split.
        { intros c e. rewrite Hip, elem_of_cons. naive_solver. }
        split; [done|].
        intros c n Hc. destruct (Hsome c n Hc)
          as (n' & Hc' & Hv & Hch & Hpar & Hpin & Hsort).
        exists n'. split; [done|]. split; [done|].
        split.
        { rewrite Hch. apply decide_ext. rewrite elem_of_cons.
          split; [naive_solver|]. intros [[->|?] Hx]; [|done].
          by rewrite (children_at_lookup _ _ _ Hc) in Hcont. }
        split; [done|]. split; [|done].
        intros e. rewrite Hpin, elem_of_cons. naive_solver.
      * (* a new edge *)
        apply set_contains_false in Hcont.
        set (h2 := alter (with_parents (set_insert p)) x
                     (alter (with_children (set_insert x)) p h)).
        destruct (IH (ip ++ [(p, x)]) h2) as (ipn & h' & -> & Hip & Hnone & Hsome).
        exists ((p, x) :: ipn), h'.
        split; [by rewrite <-(assoc_L (++))|].
        assert (Hgrow : ∀ c, x ∉ children_at h2 c → x ∉ children_at h c).
        { intros c. unfold h2. rewrite children_at_link.
          case_decide; [|done]. rewrite elem_of_set_insert. naive_solver. }
        assert (Hsame : ∀ c, c ≠ p → children_at h2 c = children_at h c).
        { intros c Hne. unfold h2. rewrite children_at_link.
          by rewrite decide_False by naive_solver. }
        assert (Hatp : is_Some (h !! p) → x ∈ children_at h2 p).
        { intros Hp. unfold h2. rewrite children_at_link.
          rewrite decide_True by done. apply elem_of_set_insert. by left. }
        assert (Hdead : ∀ c, h !! c = None → children_at h2 c = []).
        { intros c Hc. unfold h2, children_at. by rewrite lookup_link, Hc. }
        split.
        { intros c e. rewrite !elem_of_cons, Hip. split.
          - intros [[= -> ->]|(-> & Hc & Hx)]; [naive_solver|].
            split; [done|]. split; [by right|]. by apply Hgrow.
          - intros (-> & [->|Hc] & Hx); [by left|].
            destruct (decide (c = p)) as [->|Hne]; [by left|].
            right. by rewrite (Hsame c Hne). }
        split.
        { intros c Hc. apply Hnone. unfold h2. by rewrite lookup_link, Hc. }
        intros c n Hc.
        destruct (Hsome c
          {| virus := virus n;
             parents := if decide (c = x) then set_insert p (parents n)
                        else parents n;
             children := if decide (c = p) then set_insert x (children n)
                         else children n |})
          as (n' & Hc' & Hv & Hch & Hpar & Hpin & Hsort).
        { unfold h2. by rewrite lookup_link, Hc. }
        simpl in *. exists n'. split; [done|]. split; [done|].
        pose proof (children_at_lookup _ _ _ Hc) as Hcc.
        split.
        { rewrite Hch. destruct (decide (c = p)) as [->|Hne].
          - rewrite decide_False.
            2:{ rewrite elem_of_set_insert. naive_solver. }
            rewrite decide_True; [done|]. split; [left|congruence].
          - apply decide_ext. rewrite elem_of_cons. naive_solver. }
        split.
        { intros Hne. rewrite (Hpar Hne). by rewrite decide_False. }
        split.
        { intros e. rewrite Hpin. destruct (decide (c = x)) as [->|Hne].
          - rewrite elem_of_set_insert, elem_of_cons. split.
            + intros [[->|?]|(_ & He & Hx)]; [naive_solver..|].
              right. split; [done|]. split; [by right|]. by apply Hgrow.
            + intros [?|(_ & [->|He] & Hx)]; [naive_solver..|].
              destruct (decide (e = p)) as [->|Hep]; [naive_solver|].
              right. split; [done|]. split; [done|]. by rewrite Hsame.
          - naive_solver. }
        intros Hs. apply Hsort. case_decide; [|done]. by apply set_insert_sorted.
    + (* [viruses.at] throws *)
      exists [], h. rewrite app_nil_r. split.
      { f_equal. f_equal. symmetry. apply bool_decide_eq_false.
        rewrite Forall_cons, Hid. intros [[? ?] _]; done. }
      split; [intros c e; rewrite elem_of_nil; set_solver|].
      split; [done|]. intros c n Hc. exists n.
      split; [done|]. split; [done|].
      split; [first [done | by rewrite decide_False by set_solver]|].
      split; [done|]. split; [set_solver|done].
Qed.

End connect_loop_facts.

(** ** What holds of every store *)

Section wf_facts.
Context {virus_id_t : Type} `{Countable virus_id_t}.
Implicit Types (h : gmap addr (Node virus_id_t)) (n : Node virus_id_t).
Implicit Types (v : gmap virus_id_t addr) (st : VirusGenealogy virus_id_t).

Lemma Node_eq n n' :
  virus n' = virus n → parents n' = parents n → children n' = children n →
  n' = n.
Proof. destruct n, n'; simpl; congruence. Qed.

Lemma elem_of_found v (ids : list virus_id_t) (p : addr) :
  p ∈ found v ids → ∃ id, id ∈ ids ∧ v !! id = Some p.
Proof.
  induction ids as [|id ids IH]; simpl; [by intros ?%elem_of_nil|].
  destruct (v !! id) as [q|] eqn:Hid; [|by intros ?%elem_of_nil].
  rewrite elem_of_cons. intros [->|Hp].
  - exists id. split; [left|done].
  - destruct (IH Hp) as (id' & ? & ?). exists id'. split; [by right|done].
Qed.

Lemma found_all v (ids : list virus_id_t) (id : virus_id_t) (p : addr) :
  Forall (λ id, is_Some (v !! id)) ids → id ∈ ids → v !! id = Some p →
  p ∈ found v ids.
Proof.
  induction 1 as [|id' ids [q Hq] _ IH]; [by intros ?%elem_of_nil|].
  simpl. rewrite Hq, !elem_of_cons. intros [->|Hin] Hp.
  - left. congruence.
  - right. by apply IH.
Qed.

Lemma wf_live st id a :
  wf st → viruses st !! id = Some a → is_Some (heap st !! a).
Proof.
  intros Hwf Hid. apply (wf_viruses _ Hwf), id_at_Some in Hid as (n & ? & _).
  eauto.
Qed.

(** A heap with the same nodes, whose sets are sorted sets of live nodes,
    is as good as the old one. *)
Lemma wf_set_heap st h' :
  wf st →
  (∀ c, heap st !! c = None → h' !! c = None) →
  (∀ c n, heap st !! c = Some n →
     ∃ n', h' !! c = Some n' ∧ virus n' = virus n
       ∧ (∀ e, e ∈ parents n' ∨ e ∈ children n' → is_Some (heap st !! e))
       ∧ StronglySorted N.lt (parents n')
       ∧ StronglySorted N.lt (children n')) →
  wf (set_heap h' st).
Proof.
  intros [Hstem Hvir Hclosed Hsorted] Hnone Hsome.
  assert (Hlive : ∀ c, is_Some (heap st !! c) → is_Some (h' !! c)).
  { intros c [n Hc]. destruct (Hsome c n Hc) as (n' & ? & _). eauto. }
  assert (Hback : ∀ c n', h' !! c = Some n' →
            ∃ n, heap st !! c = Some n ∧ virus n' = virus n
              ∧ (∀ e, e ∈ parents n' ∨ e ∈ children n' → is_Some (heap st !! e))
              ∧ StronglySorted N.lt (parents n')
              ∧ StronglySorted N.lt (children n')).
  { intros c n' Hc'. destruct (heap st !! c) as [n|] eqn:Hc.
    - destruct (Hsome c n Hc) as (n'' & Hc'' & Hrest).
      assert (n'' = n') as -> by congruence. by exists n.
    - rewrite (Hnone c Hc) in Hc'. done. }
  split; simpl.
  - by apply Hlive.
  - intros id a Hid. apply Hvir, id_at_Some in Hid as (n & Hc & Hn).
    destruct (Hsome a n Hc) as (n' & Hc' & Hv & _).
    apply id_at_Some. exists n'. split; [done|]. by rewrite Hv.
  - intros a n' b Ha Hb. destruct (Hback a n' Ha) as (n & _ & _ & Hin & _).
    apply Hlive, Hin, Hb.
  - intros a n' Ha. destruct (Hback a n' Ha) as (n & _ & _ & _ & ? & ?). done.
Qed.

Lemma wf_set_viruses st v' :
  wf st →
  (∀ id a, v' !! id = Some a → viruses st !! id = Some a) →
  wf (set_viruses v' st).
Proof.
  intros [Hstem Hvir Hclosed Hsorted] Hsub. split; simpl; try done.
  intros id a Hid. by apply Hvir, Hsub.
Qed.

Lemma wf_release st a : wf st → wf (release a st).
Proof.
  intros Hwf. unfold release. destruct (decide (referenced a st)) as [|Hnot]; [done|].
  destruct Hwf as [Hstem Hvir Hclosed Hsorted].
  assert (Hstem' : a ≠ stemNode st).
  { intros ->. apply Hnot. by left. }
  assert (Hvir' : ∀ id, viruses st !! id ≠ Some a).
  { intros id Hid. apply Hnot. right; left. by exists id, a. }
  assert (Hsets : ∀ c n, heap st !! c = Some n → (a ∉ parents n) ∧ (a ∉ children n)).
  { intros c n Hc. split; intros Hin; apply Hnot; right; right;
      exists c, n; tauto. }
  split; simpl.
  - by rewrite lookup_delete_ne.
  - intros id b Hid. unfold id_at. rewrite lookup_delete_ne.
    + by apply Hvir.
    + intros ->. by apply (Hvir' id).
  - intros c n b Hc Hb. apply lookup_delete_Some in Hc as [Hne Hc].
    rewrite lookup_delete_ne.
    + by eapply Hclosed.
    + intros ->. destruct (Hsets c n Hc). tauto.
  - intros c n Hc. apply lookup_delete_Some in Hc as [Hne Hc]. by eapply Hsorted.
Qed.

Lemma wf_release_all st (fr : list addr) :
  wf st → wf (foldl (λ s a, release a s) st fr).
Proof.
  revert st. induction fr as [|a fr IH]; intros st Hwf; simpl; [done|].
  by apply IH, wf_release.
Qed.

Lemma wf_construct (stem_id : virus_id_t) (a : addr) : wf (construct stem_id a).
Proof.
  split; simpl.
  - rewrite lookup_singleton_eq. eauto.
  - intros id b [-> <-]%lookup_singleton_Some. unfold id_at.
    by rewrite lookup_singleton_eq.
  - intros b n c [-> <-]%lookup_singleton_Some. simpl.
    rewrite elem_of_nil. tauto.
  - intros b n [-> <-]%lookup_singleton_Some. simpl. split; constructor.
Qed.

(** The heap the loop of [connect] leaves is as good as the one it got. *)
Lemma wf_connect_loop st (x : addr) (ids : list virus_id_t) ip :
  wf st → is_Some (heap st !! x) →
  wf (set_heap (snd (connect_loop x ids ip (heap st) (viruses st))) st).
Proof.
  intros Hwf Hx.
  destruct (connect_loop_spec x (viruses st) ids ip (heap st))
    as (ipn & h' & -> & Hip & Hnone & Hsome). simpl.
  apply wf_set_heap; [done..|].
  intros c n Hc. destruct (Hsome c n Hc) as (n' & Hc' & Hv & Hch & _ & Hpin & Hsort).
  destruct (wf_sorted _ Hwf c n Hc) as [Hsp Hsc].
  exists n'. split; [done|]. split; [done|]. split; [|split].
  - intros e [He|He].
    + apply Hpin in He as [He|(_ & He & _)].
      * eapply (wf_closed _ Hwf); eauto.
      * apply elem_of_found in He as (id & _ & Hid). by eapply wf_live.
    + rewrite Hch in He. case_decide.
      * apply elem_of_set_insert in He as [->|He]; [done|].
        eapply (wf_closed _ Hwf); eauto.
      * eapply (wf_closed _ Hwf); eauto.
  - by apply Hsort.
  - rewrite Hch. case_decide; [by apply set_insert_sorted|done].
Qed.

Lemma wf_rollback st (ip : list (addr * addr)) :
  wf st → wf (set_heap (rollback ip (heap st)) st).
Proof.
  intros Hwf. apply wf_set_heap; [done|..].
  - intros c Hc. by rewrite lookup_rollback, Hc.
  - intros c n Hc. rewrite lookup_rollback, Hc. simpl.
    eexists. split; [done|]. simpl.
    destruct (wf_sorted _ Hwf c n Hc) as [Hsp Hsc].
    split; [done|]. split; [|split; [done|by apply filter_sorted]].
    intros e [He|He]; [|apply list_elem_of_filter in He as [_ He]];
      eapply (wf_closed _ Hwf); eauto.
Qed.

Lemma wf_connect_many st (child_id : virus_id_t) (ids : list virus_id_t) :
  wf st → wf (state_of (connect_many child_id ids st)).
Proof.
  intros Hwf. unfold connect_many.
  destruct (viruses st !! child_id) as [x|] eqn:Hx; [|done].
  pose proof (wf_connect_loop st x ids [] Hwf (wf_live _ _ _ Hwf Hx)) as Hwf'.
  destruct (connect_loop x ids [] (heap st) (viruses st)) as [[[] ip] h']; simpl in *.
  - done.
  - by apply (wf_rollback _ ip) in Hwf'.
Qed.

End wf_facts.

Section wf_reachable.
Context {virus_id_t : Type} `{Countable virus_id_t}.
Implicit Types (h : gmap addr (Node virus_id_t)) (n : Node virus_id_t).
Implicit Types (v : gmap virus_id_t addr) (st : VirusGenealogy virus_id_t).

(** The store [create] hands to [connect]. *)
Lemma wf_new_node st (id : virus_id_t) (a : addr) :
  wf st → heap st !! a = None →
  wf {| heap := <[a := new_Node id]> (heap st);
        viruses := <[id := a]> (viruses st);
        stemNode := stemNode st |}.
Proof.
  intros Hwf Ha. split; simpl.
  - destruct (wf_stem _ Hwf) as [n Hn]. rewrite lookup_insert_ne; [eauto|].
    intros ->. congruence.
  - intros id' b. rewrite lookup_insert_Some. intros [[-> ->]|[Hne Hb]].
    + unfold id_at. by rewrite lookup_insert_eq.
    + pose proof (wf_live _ _ _ Hwf Hb) as [n Hn].
      unfold id_at. rewrite lookup_insert_ne by congruence.
      by apply (wf_viruses _ Hwf).
  - intros c n b. rewrite lookup_insert_Some. intros [[-> <-]|[Hne Hc]] Hb.
    + simpl in Hb. rewrite elem_of_nil in Hb. tauto.
    + rewrite lookup_insert_is_Some'. right. eapply (wf_closed _ Hwf); eauto.
  - intros c n. rewrite lookup_insert_Some. intros [[-> <-]|[Hne Hc]].
    + simpl. split; constructor.
    + by eapply (wf_sorted _ Hwf).
Qed.

Lemma wf_create st (id : virus_id_t) (parent_ids : list virus_id_t) (a : addr) :
  wf st → heap st !! a = None →
  wf (state_of (create id parent_ids a st)).
Proof.
  intros Hwf Ha. unfold create. destruct parent_ids as [|p ps]; [done|].
  destruct (exists_ id st); [done|].
  pose proof (wf_connect_many _ id (p :: ps) (wf_new_node st id a Hwf Ha)) as Hwf'.
  destruct (connect_many id (p :: ps) _) as [st2|e st2]; simpl in *; [done|].
  apply wf_release, wf_set_viruses; [done|].
  intros id' b. rewrite lookup_delete_Some. tauto.
Qed.

(** The heap [remove] leaves before the nodes it took out are destroyed. *)
Lemma wf_remove_heap st (gs : list RemoveGuard) (fr : list addr) :
  wf st →
  wf (set_heap (foldl (λ h a, alter clear_Node a h) (foldl commit (heap st) gs) fr) st).
Proof.
  intros Hwf. apply wf_set_heap; [done|..].
  - intros c Hc. by rewrite lookup_clear, lookup_commit, Hc.
  - intros c n Hc. rewrite lookup_clear, lookup_commit, Hc. simpl.
    destruct (wf_sorted _ Hwf c n Hc) as [Hsp Hsc].
    eexists. split; [done|]. destruct (decide (c ∈ fr)); simpl.
    + split; [done|]. split; [|split; constructor].
      intros b. rewrite elem_of_nil. tauto.
    + split; [done|]. split; [|split; by apply filter_sorted].
      intros b [He|He]; apply list_elem_of_filter in He as [_ He];
        eapply (wf_closed _ Hwf); eauto.
Qed.

#[local] Arguments traverse : simpl never.

Lemma wf_remove st (id : virus_id_t) o :
  wf st → remove id st = Some o → wf (state_of o).
Proof.
  intros Hwf. unfold remove.
  destruct (get_stem_id st) as [stem_id|]; simpl; [|done].
  destruct (decide (id = stem_id)); [by intros [= <-]|].
  destruct (viruses st !! id) as [begin_node|]; [|by intros [= <-]].
  match goal with
  | |- context [traverse ?f ?h ?t0] => destruct (traverse f h t0) as [t|]
  end; simpl; [|done].
  intros [= <-]. simpl. apply wf_release_all.
  apply (wf_set_viruses (set_heap _ st)); [by apply wf_remove_heap|].
  simpl. intros id' b. rewrite lookup_foldl_delete. by case_decide.
Qed.

(** Every store a caller can get is well formed. *)
Lemma reachable_wf st : reachable st → wf st.
Proof.
  induction 1 as [stem_id a|st id ps a _ IH Ha|st c p _ IH|st id o _ IH Hrm].
  - apply wf_construct.
  - by apply wf_create.
  - by apply wf_connect_many.
  - by eapply wf_remove.
Qed.

End wf_reachable.

(** ** [create] *)

Lemma mapM_total {A B} (f : A → option B) (g : A → B) (l : list A) :
  (∀ x, x ∈ l → f x = Some (g x)) → mapM f l = Some (g <$> l).
Proof.
  induction l as [|x l IH]; intros Hf; [done|]. simpl.
  rewrite (Hf x) by left. simpl. rewrite IH; [done|].
  intros y Hy. apply Hf. by right.
Qed.

Section create_facts.
Context {virus_id_t : Type} `{Countable virus_id_t}.
Implicit Types (h : gmap addr (Node virus_id_t)) (n : Node virus_id_t).
Implicit Types (v : gmap virus_id_t addr) (st : VirusGenealogy virus_id_t).

Lemma exists_true st (id : virus_id_t) :
  exists_ id st = true ↔ is_Some (viruses st !! id).
Proof. unfold exists_. by rewrite bool_decide_eq_true. Qed.

Lemma exists_false st (id : virus_id_t) :
  exists_ id st = false ↔ viruses st !! id = None.
Proof. unfold exists_. by rewrite bool_decide_eq_false, eq_None_not_Some. Qed.

Lemma found_insert_fresh v (ids : list virus_id_t) (id : virus_id_t) (a : addr) :
  id ∉ ids → found (<[id := a]> v) ids = found v ids.
Proof.
  induction ids as [|i ids IH]; [done|].
  rewrite not_elem_of_cons. intros [Hne Hids]. simpl.
  rewrite lookup_insert_ne by done. rewrite IH by done. done.
Qed.

Lemma wf_not_dangling st (a c : addr) n :
  wf st → heap st !! a = None → heap st !! c = Some n →
  (a ∉ parents n) ∧ (a ∉ children n).
Proof.
  intros Hwf Ha Hc. split; intros Hin;
    (destruct (wf_closed _ Hwf c n a Hc) as [? ?]; [tauto|congruence]).
Qed.

Lemma wf_found_live st (ids : list virus_id_t) (p : addr) :
  wf st → p ∈ found (viruses st) ids → is_Some (heap st !! p).
Proof.
  intros Hwf (id & _ & Hid)%elem_of_found. by eapply wf_live.
Qed.

(** The loop of [connect] when the child is the node [create] has just
    made: every parent that was found gets the new node as a child, and
    the new node gets these parents. *)
Lemma connect_loop_fresh st (id : virus_id_t) (ps : list virus_id_t) (a : addr) :
  wf st → heap st !! a = None → id ∉ ps →
  ∃ ipn h',
    connect_loop a ps [] (<[a := new_Node id]> (heap st)) (<[id := a]> (viruses st))
    = (bool_decide (Forall (λ p, is_Some (viruses st !! p)) ps), ipn, h')
    ∧ (∀ c e, (c, e) ∈ ipn ↔ e = a ∧ c ∈ found (viruses st) ps)
    ∧ (∃ na, h' !! a = Some na ∧ virus na = mkVirus id ∧ children na = []
         ∧ (∀ e, e ∈ parents na ↔ e ∈ found (viruses st) ps)
         ∧ StronglySorted N.lt (parents na))
    ∧ (∀ c n, heap st !! c = Some n →
         ∃ n', h' !! c = Some n' ∧ virus n' = virus n ∧ parents n' = parents n
           ∧ children n' = (if decide (c ∈ found (viruses st) ps)
                            then set_insert a (children n) else children n))
    ∧ (∀ c, c ≠ a → heap st !! c = None → h' !! c = None).
Proof.
  intros Hwf Ha Hid.
  assert (Hnf : a ∉ found (viruses st) ps).
  { intros [n Hn]%(wf_found_live _ _ _ Hwf). congruence. }
  assert (Hch : ∀ c, a ∉ children_at (<[a := new_Node id]> (heap st)) c).
  { intros c. unfold children_at. rewrite lookup_insert.
    destruct (decide (a = c)) as [<-|Hne]; [apply not_elem_of_nil|].
    destruct (heap st !! c) as [n|] eqn:Hc; [|apply not_elem_of_nil].
    by apply (wf_not_dangling st a c n). }
  destruct (connect_loop_spec a (<[id := a]> (viruses st)) ps []
              (<[a := new_Node id]> (heap st)))
    as (ipn & h' & -> & Hip & Hnone & Hsome).
  rewrite found_insert_fresh in Hip, Hsome by done.
  exists ipn, h'. split.
  { f_equal. f_equal. apply bool_decide_ext. rewrite !Forall_forall.
    split; intros Hall p Hp; specialize (Hall p Hp).
    - rewrite lookup_insert_ne in Hall by set_solver. done.
    - rewrite lookup_insert_ne by set_solver. done. }
  split.
  { intros c e. rewrite Hip. specialize (Hch c). tauto. }
  split.
  { destruct (Hsome a (new_Node id)) as (na & Hna & Hv & Hc & _ & Hpin & Hsort).
    { apply lookup_insert_eq. }
    exists na. split; [done|]. split; [done|]. split.
    - rewrite Hc. simpl. by rewrite decide_False by tauto.
    - split; [|apply Hsort; constructor].
      intros e. rewrite Hpin. simpl. rewrite elem_of_nil.
      specialize (Hch e). tauto. }
  split.
  { intros c n Hc. assert (c ≠ a) as Hne by congruence.
    destruct (Hsome c n) as (n' & Hn' & Hv & Hcn & Hpar & _).
    { by rewrite lookup_insert_ne. }
    exists n'. split; [done|]. split; [done|]. split; [by apply Hpar|].
    rewrite Hcn. apply decide_ext.
    destruct (wf_not_dangling st a c n Hwf Ha Hc). tauto. }
  intros c Hne Hc. apply Hnone. by rewrite lookup_insert_ne.
Qed.

(** A [create] that finds all its parents. *)
Lemma create_return st (id : virus_id_t) (ps : list virus_id_t) (a : addr) :
  wf st → heap st !! a = None → exists_ id st = false → ps ≠ [] →
  Forall (λ p, is_Some (viruses st !! p)) ps →
  ∃ h',
    create id ps a st
    = Return {| heap := h'; viruses := <[id := a]> (viruses st);
                stemNode := stemNode st |}
    ∧ (∃ na, h' !! a = Some na ∧ virus na = mkVirus id ∧ children na = []
         ∧ (∀ e, e ∈ parents na ↔ e ∈ found (viruses st) ps)
         ∧ StronglySorted N.lt (parents na))
    ∧ (∀ c n, heap st !! c = Some n →
         ∃ n', h' !! c = Some n' ∧ virus n' = virus n ∧ parents n' = parents n
           ∧ children n' = (if decide (c ∈ found (viruses st) ps)
                            then set_insert a (children n) else children n))
    ∧ (∀ c, c ≠ a → heap st !! c = None → h' !! c = None).
Proof.
  intros Hwf Ha Hid Hne Hall. pose proof Hid as Hid'%exists_false.
  assert (id ∉ ps) as Hnin.
  { intros Hin. eapply Forall_forall in Hall as [? ?]; [|exact Hin]. congruence. }
  destruct (connect_loop_fresh st id ps a Hwf Ha Hnin)
    as (ipn & h' & Hloop & _ & Hna & Hsome & Hnone).
  exists h'. split; [|done].
  unfold create. destruct ps as [|p ps]; [done|]. rewrite Hid.
  unfold connect_many. simpl viruses. simpl heap.
  rewrite lookup_insert_eq, Hloop. by rewrite bool_decide_eq_true_2.
Qed.

(** A [create] that does not find one of its parents leaves the store as
    it was, when the new identifier is not among the parents. *)
Lemma create_throw st (id : virus_id_t) (ps : list virus_id_t) (a : addr) :
  wf st → heap st !! a = None → exists_ id st = false → id ∉ ps →
  ¬ Forall (λ p, is_Some (viruses st !! p)) ps →
  create id ps a st = Throw VirusNotFound st.
Proof.
  intros Hwf Ha Hid Hnin Hall. pose proof Hid as Hid'%exists_false.
  destruct (connect_loop_fresh st id ps a Hwf Ha Hnin)
    as (ipn & h' & Hloop & Hip & (na & Hna & Hva & Hca & Hpa & _) & Hsome & Hnone).
  unfold create. destruct ps as [|p ps]; [by destruct Hall|]. rewrite Hid.
  unfold connect_many. simpl viruses. simpl heap.
  rewrite lookup_insert_eq, Hloop. rewrite bool_decide_eq_false_2 by done.
  f_equal. unfold set_viruses, set_heap. simpl.
  rewrite delete_insert_id by done.
  assert (Hold : ∀ c n, heap st !! c = Some n → rollback ipn h' !! c = Some n).
  { intros c n Hc. destruct (Hsome c n Hc) as (n' & Hn' & Hv & Hp & Hch).
    rewrite lookup_rollback, Hn'. simpl. f_equal.
    apply Node_eq; simpl; [done..|]. rewrite Hch.
    destruct (wf_not_dangling st a c n Hwf Ha Hc) as [_ Hnc].
    case_decide as Hf.
    - rewrite <-(set_erase_insert a (children n)) at 2 by done.
      apply list_filter_iff. intros e. rewrite Hip. naive_solver.
    - apply filter_all. intros e _. rewrite Hip. naive_solver. }
  assert (Hnew : ∃ na', rollback ipn h' !! a = Some na'
                        ∧ children na' = [] ∧ a ∉ parents na').
  { rewrite lookup_rollback, Hna. simpl. eexists. split; [done|]. simpl.
    rewrite Hca. split; [done|]. rewrite Hpa.
    intros [n Hn]%(wf_found_live _ _ _ Hwf). congruence. }
  destruct Hnew as (na' & Hna' & Hca' & Hpa').
  unfold release. rewrite decide_False.
  - unfold set_heap. simpl. destruct st as [h v s]. simpl in *. f_equal.
    apply map_eq. intros c. destruct (decide (c = a)) as [->|Hne].
    + by rewrite lookup_delete_eq.
    + rewrite lookup_delete_ne by done.
      destruct (h !! c) as [n|] eqn:Hc; [by apply Hold|].
      rewrite lookup_rollback, (Hnone c) by done. done.
  - unfold referenced. simpl. intros [Hs|[Hv|Hh]].
    + destruct (wf_stem _ Hwf) as [n Hn]. congruence.
    + destruct Hv as (i & b & Hi & ->).
      destruct (wf_live _ _ _ Hwf Hi) as [n Hn]. congruence.
    + destruct Hh as (c & n & Hc & Hin).
      destruct (decide (c = a)) as [->|Hne].
      * assert (n = na') as -> by congruence. rewrite Hca' in Hin.
        rewrite elem_of_nil in Hin. tauto.
      * destruct (heap st !! c) as [n0|] eqn:Hc0.
        -- rewrite (Hold c n0 Hc0) in Hc. injection Hc as ->.
           destruct (wf_not_dangling st a c n Hwf Ha Hc0). tauto.
        -- rewrite lookup_rollback, (Hnone c) in Hc by done. done.
Qed.

End create_facts.

Section create_result.
Context {virus_id_t : Type} `{Countable virus_id_t}.
Implicit Types (h : gmap addr (Node virus_id_t)) (n : Node virus_id_t).
Implicit Types (v : gmap virus_id_t addr) (st : VirusGenealogy virus_id_t).

(** C5: in a well-formed store, [create] with a fresh identifier and a
    non-empty list of identifiers that are in the store returns, and in the
    store it leaves [get_parents] of the new identifier returns the
    identifiers of the list, each once, and the new virus is among what the
    children iterators of each of these parents yield. *)
Theorem create_parents_and_children st (id : virus_id_t)
    (parent_ids : list virus_id_t) (a : addr) :
  wf st →
  heap st !! a = None →
  exists_ id st = false →
  parent_ids ≠ [] →
  (∀ p, p ∈ parent_ids → exists_ p st = true) →
  ∃ st',
    create id parent_ids a st = Return st'
    ∧ exists_ id st' = true
    ∧ (∃ ps, get_parents id st' = Some (Ok ps)
             ∧ NoDup ps ∧ ∀ p, p ∈ ps ↔ p ∈ parent_ids)
    ∧ (∀ p, p ∈ parent_ids →
         ∃ cs, get_children p st' = Some (Ok cs) ∧ mkVirus id ∈ cs).
Proof.
  intros Hwf Ha Hid Hne Hpresent.
  assert (Hall : Forall (λ p, is_Some (viruses st !! p)) parent_ids).
  { apply Forall_forall. intros p Hp. by apply exists_true, Hpresent. }
  destruct (create_return st id parent_ids a Hwf Ha Hid Hne Hall)
    as (h' & Hcreate & (na & Hna & Hva & Hca & Hpa & Hsa) & Hsome & Hnone).
  eexists. split; [exact Hcreate|].
  pose proof (wf_create st id parent_ids a Hwf Ha) as Hwf'.
  rewrite Hcreate in Hwf'. simpl in Hwf'.
  apply exists_false in Hid.
  (* the identifier a live pointer of the old store stands for *)
  assert (Hidat : ∀ p e, viruses st !! p = Some e → id_at h' e = Some p).
  { intros p e Hp. apply (wf_viruses _ Hwf'). simpl.
    rewrite lookup_insert_ne; [done|]. congruence. }
  split; [apply exists_true; simpl; rewrite lookup_insert_eq; eauto|].
  split.
  - exists (default id ∘ id_at h' <$> parents na).
    unfold get_parents. simpl. rewrite lookup_insert_eq.
    rewrite (parents_at_lookup _ _ _ Hna).
    rewrite (mapM_total _ (default id ∘ id_at h')).
    2:{ intros e (p & _ & Hp)%Hpa%elem_of_found. simpl.
        by rewrite (Hidat p e Hp). }
    split; [done|]. split.
    + apply NoDup_fmap_2_strong; [|by apply sorted_NoDup].
      intros e1 e2 (p1 & _ & Hp1)%Hpa%elem_of_found
        (p2 & _ & Hp2)%Hpa%elem_of_found. simpl.
      rewrite (Hidat p1 e1 Hp1), (Hidat p2 e2 Hp2). simpl. intros ->. congruence.
    + intros p. rewrite list_elem_of_fmap. split.
      * intros (e & -> & (p' & Hin & Hp')%Hpa%elem_of_found). simpl.
        by rewrite (Hidat p' e Hp').
      * intros Hp. pose proof (Hpresent p Hp) as [e He]%exists_true.
        exists e. simpl. rewrite (Hidat p e He). split; [done|].
        apply Hpa. by eapply found_all.
  - intros p Hp. pose proof (Hpresent p Hp) as [e He]%exists_true.
    destruct (wf_live _ _ _ Hwf He) as [n Hn].
    destruct (Hsome e n Hn) as (n' & Hn' & _ & _ & Hch).
    rewrite decide_True in Hch by by eapply found_all.
    exists (default (mkVirus id) ∘ (λ c, virus <$> h' !! c) <$> children n').
    unfold get_children. simpl.
    rewrite lookup_insert_ne by congruence. rewrite He.
    rewrite (children_at_lookup _ _ _ Hn').
    rewrite (mapM_total _ (default (mkVirus id) ∘ (λ c, virus <$> h' !! c))).
    2:{ intros c Hc. destruct (wf_closed _ Hwf' e n' c Hn') as [nc Hnc]; [tauto|].
        simpl in Hnc. simpl. by rewrite Hnc. }
    split; [done|]. apply list_elem_of_fmap. exists a. split.
    + simpl. rewrite Hna. simpl. by rewrite Hva.
    + rewrite Hch. apply elem_of_set_insert. by left.
Qed.

End create_result.

(** ** [create] and then [remove] *)

Section round_trip.
Context {virus_id_t : Type} `{Countable virus_id_t}.
Implicit Types (h : gmap addr (Node virus_id_t)) (n : Node virus_id_t).
Implicit Types (v : gmap virus_id_t addr) (st : VirusGenealogy virus_id_t).

(** Removing a virus that was just created, whatever its parents, when
    its identifier is not the one of the stem. *)
Lemma create_remove_restores_other st (stem_id id : virus_id_t)
    (parent_ids : list virus_id_t) (a : addr) :
  wf st → get_stem_id st = Some stem_id → id ≠ stem_id →
  heap st !! a = None → exists_ id st = false → parent_ids ≠ [] →
  Forall (λ p, is_Some (viruses st !! p)) parent_ids →
  ∃ st1, create id parent_ids a st = Return st1
         ∧ exists_ id st1 = true
         ∧ remove id st1 = Some (Return st).
Proof.
  intros Hwf Hstem Hns Ha Hid Hne Hall.
  destruct (create_return st id parent_ids a Hwf Ha Hid Hne Hall)
    as (h' & Hcreate & (na & Hna & Hva & Hca & Hpa & Hsa) & Hsome & Hnone).
  eexists. split; [exact Hcreate|].
  split; [apply exists_true; simpl; rewrite lookup_insert_eq; eauto|].
  apply exists_false in Hid.
  unfold remove, get_stem_id. simpl.
  apply id_at_Some in Hstem as (ns & Hns1 & Hns2).
  destruct (Hsome _ ns Hns1) as (ns' & Hns' & Hvs & _).
  unfold id_at. rewrite Hns'. simpl. rewrite Hvs, Hns2.
  rewrite decide_False by done. rewrite lookup_insert_eq.
  rewrite Hna. simpl. rewrite Hca. simpl.
  unfold child_guards, parent_guards. simpl.
  rewrite (children_at_lookup _ _ _ Hna), Hca. simpl.
  rewrite (parents_at_lookup _ _ _ Hna). rewrite Hva. simpl.
  rewrite delete_insert_id by done.
  set (gs := (λ parent, GuardChildren parent a) <$> parents na).
  (* the nodes of the old store are as they were *)
  assert (Hold : ∀ c n, heap st !! c = Some n →
            alter clear_Node a (foldl commit h' gs) !! c = Some n).
  { intros c n Hc. assert (a ≠ c) as Hac by congruence.
    rewrite lookup_alter_ne by done.
    destruct (Hsome c n Hc) as (n' & Hn' & Hv & Hp & Hch).
    rewrite lookup_commit, Hn'. simpl. f_equal.
    destruct (wf_not_dangling st a c n Hwf Ha Hc) as [_ Hnc].
    apply Node_eq; simpl; [done|..].
    - rewrite Hp. apply filter_all. intros e _.
      unfold gs. rewrite list_elem_of_fmap. naive_solver.
    - assert (Hg : ∀ e, GuardChildren c e ∈ gs ↔ e = a ∧ c ∈ found (viruses st) parent_ids).
      { intros e. unfold gs. rewrite list_elem_of_fmap. split.
        - intros (p & [= -> ->] & Hp'). by rewrite <-Hpa.
        - intros [-> Hf]. exists c. by rewrite Hpa. }
      rewrite Hch. case_decide as Hf.
      + rewrite <-(set_erase_insert a (children n)) at 2 by done.
        apply list_filter_iff. intros e. rewrite Hg. naive_solver.
      + apply filter_all. intros e _. rewrite Hg. naive_solver. }
  assert (Hnew : alter clear_Node a (foldl commit h' gs) !! a
                 = Some (clear_Node {| virus := virus na;
                     parents := filter (λ e, GuardParents a e ∉ gs) (parents na);
                     children := filter (λ e, GuardChildren a e ∉ gs) (children na) |})).
  { by rewrite lookup_alter_eq, lookup_commit, Hna. }
  unfold release. rewrite decide_False.
  - unfold set_heap. simpl. destruct st as [h v sn]. simpl in *. do 3 f_equal.
    apply map_eq. intros c. destruct (decide (c = a)) as [->|Hac].
    + by rewrite lookup_delete_eq.
    + rewrite lookup_delete_ne by done.
      destruct (h !! c) as [n|] eqn:Hc; [by apply Hold|].
      rewrite lookup_alter_ne by done.
      rewrite lookup_commit, (Hnone c) by done. done.
  - unfold referenced. simpl. intros [Hst|[Hv|Hh]].
    + congruence.
    + destruct Hv as (i & b & Hi & ->).
      destruct (wf_live _ _ _ Hwf Hi) as [n Hn]. congruence.
    + destruct Hh as (c & n & Hc & Hin).
      destruct (decide (c = a)) as [->|Hac].
      * rewrite Hnew in Hc. injection Hc as <-. simpl in Hin.
        rewrite elem_of_nil in Hin. tauto.
      * destruct (heap st !! c) as [n0|] eqn:Hc0.
        -- rewrite (Hold c n0 Hc0) in Hc. injection Hc as ->.
           destruct (wf_not_dangling st a c n Hwf Ha Hc0). tauto.
        -- rewrite lookup_alter_ne in Hc by done.
           rewrite lookup_commit, (Hnone c) in Hc by done. done.
Qed.

(** The same in a store that holds its stem: the new identifier is not
    in the store, so it is not the one of the stem. *)
Lemma create_remove_restores st (stem_id id : virus_id_t)
    (parent_ids : list virus_id_t) (a : addr) :
  wf st → get_stem_id st = Some stem_id → exists_ stem_id st = true →
  heap st !! a = None → exists_ id st = false → parent_ids ≠ [] →
  Forall (λ p, is_Some (viruses st !! p)) parent_ids →
  ∃ st1, create id parent_ids a st = Return st1
         ∧ exists_ id st1 = true
         ∧ remove id st1 = Some (Return st).
Proof.
  intros Hwf Hstem [sa Hs]%exists_true Ha Hid Hne Hall.
  apply (create_remove_restores_other st stem_id id parent_ids a); try done.
  apply exists_false in Hid. congruence.
Qed.

(** C7: in a well-formed store that holds [A] and [B] but not [X], where
    [X] is not the identifier [get_stem_id()] answers, [create(X, {A, B})]
    returns and [remove(X)] after it returns and leaves the store the
    [create] started from: the same nodes with the same parents and
    children sets, the same [viruses].  A store that holds its stem holds
    the identifier [get_stem_id()] answers, so there the condition on [X]
    follows from [X] not being in the store. *)
Theorem create_then_remove_restores st (stem_id A B X : virus_id_t) (x : addr) :
  wf st →
  get_stem_id st = Some stem_id →
  X ≠ stem_id →
  heap st !! x = None →
  exists_ A st = true →
  exists_ B st = true →
  exists_ X st = false →
  ∃ st1,
    create X [A; B] x st = Return st1
    ∧ exists_ X st1 = true
    ∧ remove X st1 = Some (Return st).
Proof.
  intros Hwf Hstem Hne Hx HA HB HX.
  apply (create_remove_restores_other st stem_id X [A; B] x); try done.
  repeat constructor; by apply exists_true.
Qed.

End round_trip.

(** ** The children iterators *)

Section iteration.
Context {virus_id_t : Type} `{Countable virus_id_t}.
Implicit Types (h : gmap addr (Node virus_id_t)) (n : Node virus_id_t).
Implicit Types (v : gmap virus_id_t addr) (st : VirusGenealogy virus_id_t).

(** C2, as the code has it: for an identifier in a store a caller can get,
    the walk from [get_children_begin] to [get_children_end] yields the
    viruses of the children, one for each element of the children set of the
    node, in the order of the set, which is the ascending order of the
    addresses of the children's nodes. *)
Theorem get_children_in_address_order st (id : virus_id_t) :
  reachable st →
  exists_ id st = true →
  ∃ a cs vs,
    viruses st !! id = Some a
    ∧ children_at (heap st) a = cs
    ∧ StronglySorted N.lt cs
    ∧ get_children id st = Some (Ok vs)
    ∧ Forall2 (λ c vi, virus <$> heap st !! c = Some vi) cs vs.
Proof.
  intros Hwf%reachable_wf [a Ha]%exists_true.
  destruct (wf_live _ _ _ Hwf Ha) as [n Hn].
  assert (is_Some (mapM (λ c, virus <$> heap st !! c) (children n))) as [vs Hvs].
  { apply mapM_is_Some, Forall_forall. intros c Hc. simpl.
    destruct (wf_closed _ Hwf a n c Hn) as [nc Hnc]; [tauto|].
    rewrite Hnc. simpl. eauto. }
  exists a, (children n), vs. split; [done|].
  split; [by apply children_at_lookup|].
  split; [by apply (wf_sorted _ Hwf a n)|].
  unfold get_children. rewrite Ha, (children_at_lookup _ _ _ Hn), Hvs.
  split; [done|]. by apply mapM_Some.
Qed.

End iteration.

(** ** Stores of callers who close no cycle *)

Section inv_facts.
Context {virus_id_t : Type} `{Countable virus_id_t}.
Implicit Types (h : gmap addr (Node virus_id_t)) (n : Node virus_id_t).
Implicit Types (v : gmap virus_id_t addr) (st : VirusGenealogy virus_id_t).

Lemma tc_first {A} (R : relation A) (a c : A) : tc R a c → ∃ b, R a b.
Proof. destruct 1; eauto. Qed.

Lemma edge_live h (a b : addr) : edge h a b → is_Some (h !! a).
Proof. intros (n & ? & _)%elem_of_children_at. eauto. Qed.

(** Two live nodes with the same identifier are the same node. *)
Lemma inv_id_inj st (a b : addr) (id : virus_id_t) :
  inv st → id_at (heap st) a = Some id → id_at (heap st) b = Some id → a = b.
Proof.
  intros Hinv (na & Ha & <-)%id_at_Some (nb & Hb & Heq)%id_at_Some.
  apply (inv_registered _ Hinv) in Ha, Hb. congruence.
Qed.

Lemma inv_stem_id st :
  inv st →
  ∃ stem_id, get_stem_id st = Some stem_id
             ∧ viruses st !! stem_id = Some (stemNode st).
Proof.
  intros Hinv. destruct (inv_stem_registered _ Hinv) as [stem_id Hs].
  exists stem_id. split; [|done]. by apply (wf_viruses _ (inv_wf _ Hinv)).
Qed.

Lemma inv_construct (stem_id : virus_id_t) (a : addr) : inv (construct stem_id a).
Proof.
  split; simpl.
  - apply wf_construct.
  - exists stem_id. apply lookup_singleton_eq.
  - unfold parents_at. by rewrite lookup_singleton_eq.
  - intros b n [-> <-]%lookup_singleton_Some. simpl. apply lookup_singleton_eq.
  - intros b c. rewrite elem_of_children_at, elem_of_parents_at.
    split; intros (n & [-> <-]%lookup_singleton_Some & Hin); simpl in Hin;
      by apply elem_of_nil in Hin.
  - intros b n [-> <-]%lookup_singleton_Some. done.
  - intros b [c Hc]%tc_first. apply elem_of_children_at in Hc
      as (n & [-> <-]%lookup_singleton_Some & Hin). by apply elem_of_nil in Hin.
Qed.

(** In such a store [get_parents] returns an empty vector for the stem and
    for no other identifier. *)
Lemma inv_stem_only_parentless st : inv st → stem_only_parentless st.
Proof.
  intros Hinv. pose proof (inv_wf _ Hinv) as Hwf.
  destruct (inv_stem_id st Hinv) as (stem_id & Hget & Hreg).
  exists stem_id. split; [done|]. split; [apply exists_true; eauto|].
  intros id [a Ha]%exists_true.
  destruct (wf_live _ _ _ Hwf Ha) as [n Hn].
  assert (is_Some (mapM (id_at (heap st)) (parents n))) as [ps Hps].
  { apply mapM_is_Some, Forall_forall. intros c Hc. simpl.
    destruct (wf_closed _ Hwf a n c Hn) as [nc Hnc]; [tauto|].
    unfold id_at. rewrite Hnc. simpl. eauto. }
  exists ps. unfold get_parents. rewrite Ha, (parents_at_lookup _ _ _ Hn), Hps.
  split; [done|]. apply length_mapM in Hps.
  split.
  - intros ->. destruct (decide (a = stemNode st)) as [->|Hne].
    + apply (wf_viruses _ Hwf) in Ha, Hreg. congruence.
    + pose proof (inv_parents _ Hinv a n Hn Hne). by destruct (parents n).
  - intros ->. assert (a = stemNode st) as -> by congruence.
    pose proof (inv_stem_parents _ Hinv) as Hp.
    rewrite (parents_at_lookup _ _ _ Hn) in Hp. rewrite Hp in Hps.
    by destruct ps.
Qed.

End inv_facts.

Section inv_create.
Context {virus_id_t : Type} `{Countable virus_id_t}.
Implicit Types (h : gmap addr (Node virus_id_t)) (n : Node virus_id_t).
Implicit Types (v : gmap virus_id_t addr) (st : VirusGenealogy virus_id_t).

(** New edges into a node that has no children close no cycle. *)
Lemma tc_new_sink {A} (R R' : relation A) (x : A) :
  (∀ a b, R' a b → R a b ∨ b = x) →
  (∀ b, ¬ R x b) →
  ∀ a b, tc R' a b → b = x ∨ tc R a b.
Proof.
  intros Hstep Hsink a b. induction 1 as [a b Hab|a b c Hab _ IH].
  - destruct (Hstep a b Hab) as [?| ->]; [right; by apply tc_once|by left].
  - destruct IH as [->|Hbc]; [by left|].
    destruct (Hstep a b Hab) as [?| ->]; [right; by eapply tc_l|].
    apply tc_first in Hbc as [d Hd]. by apply Hsink in Hd.
Qed.

Lemma inv_create st (id : virus_id_t) (ps : list virus_id_t) (a : addr) :
  inv st → heap st !! a = None → id ∉ ps →
  inv (state_of (create id ps a st)).
Proof.
  intros Hinv Ha Hnin. pose proof (inv_wf _ Hinv) as Hwf.
  destruct (decide (ps = [])) as [->|Hne]; [done|].
  destruct (exists_ id st) eqn:Hid.
  { unfold create. destruct ps; [done|]. by rewrite Hid. }
  destruct (decide (Forall (λ p, is_Some (viruses st !! p)) ps)) as [Hall|Hall].
  2:{ by rewrite create_throw. }
  destruct (create_return st id ps a Hwf Ha Hid Hne Hall)
    as (h' & Hcreate & (na & Hna & Hva & Hca & Hpa & Hsa) & Hsome & Hnone).
  pose proof (wf_create st id ps a Hwf Ha) as Hwf'.
  rewrite Hcreate in *. simpl in *. apply exists_false in Hid.
  set (F := found (viruses st) ps) in *.
  assert (HaF : a ∉ F).
  { intros [n Hn]%(wf_found_live _ _ _ Hwf). congruence. }
  assert (Hch : ∀ c b, b ∈ children_at h' c ↔
                       b ∈ children_at (heap st) c ∨ (b = a ∧ c ∈ F)).
  { intros c b. destruct (decide (c = a)) as [->|Hc].
    - rewrite (children_at_lookup _ _ _ Hna), Hca.
      unfold children_at. rewrite Ha. rewrite elem_of_nil. tauto.
    - destruct (heap st !! c) as [n|] eqn:Hn.
      + destruct (Hsome c n Hn) as (n' & Hn' & _ & _ & Hcn).
        rewrite (children_at_lookup _ _ _ Hn'), (children_at_lookup _ _ _ Hn), Hcn.
        case_decide; [rewrite elem_of_set_insert|]; tauto.
      + unfold children_at. rewrite Hn, (Hnone c Hc Hn), elem_of_nil.
        split; [tauto|]. intros [?|[_ [? ?]%(wf_found_live _ _ _ Hwf)]]; [done|].
        congruence. }
  assert (Hpar : ∀ c b, b ∈ parents_at h' c ↔
                        b ∈ parents_at (heap st) c ∨ (c = a ∧ b ∈ F)).
  { intros c b. destruct (decide (c = a)) as [->|Hc].
    - rewrite (parents_at_lookup _ _ _ Hna), Hpa.
      unfold parents_at. rewrite Ha. rewrite elem_of_nil. tauto.
    - destruct (heap st !! c) as [n|] eqn:Hn.
      + destruct (Hsome c n Hn) as (n' & Hn' & _ & Hpn & _).
        rewrite (parents_at_lookup _ _ _ Hn'), (parents_at_lookup _ _ _ Hn), Hpn.
        tauto.
      + unfold parents_at. rewrite Hn, (Hnone c Hc Hn), elem_of_nil. tauto. }
  assert (Hold : ∀ c n', c ≠ a → h' !! c = Some n' →
            ∃ n, heap st !! c = Some n ∧ virus n' = virus n
                 ∧ parents n' = parents n).
  { intros c n' Hc Hn'. destruct (heap st !! c) as [n|] eqn:Hn.
    - destruct (Hsome c n Hn) as (n'' & Hn'' & ? & ? & _).
      assert (n'' = n') as -> by congruence. by exists n.
    - rewrite (Hnone c Hc Hn) in Hn'. done. }
  destruct (inv_stem_registered _ Hinv) as [stem_id Hstem].
  assert (Hsa' : stemNode st ≠ a).
  { intros Heq. destruct (wf_stem _ Hwf) as [n Hn]. congruence. }
  split; simpl.
  - done.
  - exists stem_id. rewrite lookup_insert_ne; [done|]. congruence.
  - destruct (wf_stem _ Hwf) as [n Hn].
    destruct (Hsome _ n Hn) as (n' & Hn' & _ & Hpn & _).
    rewrite (parents_at_lookup _ _ _ Hn'), Hpn.
    rewrite <-(parents_at_lookup _ _ _ Hn). apply (inv_stem_parents _ Hinv).
  - intros c n' Hn'. destruct (decide (c = a)) as [->|Hc].
    + assert (n' = na) as -> by congruence. rewrite Hva. simpl.
      apply lookup_insert_eq.
    + destruct (Hold c n' Hc Hn') as (n & Hn & Hv & _). rewrite Hv.
      pose proof (inv_registered _ Hinv c n Hn) as Hreg.
      rewrite lookup_insert_ne; [done|]. congruence.
  - intros c b. rewrite Hch, Hpar, (inv_symmetric _ Hinv).
    split; (intros [?|[-> ?]]; [by left|right; done]).
  - intros c n' Hn' Hcs. destruct (decide (c = a)) as [->|Hc].
    + assert (n' = na) as -> by congruence.
      destruct ps as [|p ps]; [done|].
      apply Forall_cons in Hall as [[e He] _].
      assert (e ∈ parents na) as Hin.
      { apply Hpa. unfold F. simpl. rewrite He. left. }
      intros Hnil. rewrite Hnil in Hin. by apply elem_of_nil in Hin.
    + destruct (Hold c n' Hc Hn') as (n & Hn & _ & ->).
      by apply (inv_parents _ Hinv c n).
  - intros c Hcyc.
    destruct (tc_new_sink (edge (heap st)) (edge h') a) with (a := c) (b := c)
      as [->|Hc]; [| |done| |].
    + intros x y. unfold edge. rewrite Hch. tauto.
    + intros b. unfold edge, children_at. rewrite Ha. apply not_elem_of_nil.
    + apply tc_first in Hcyc as [b Hb]. unfold edge in Hb.
      rewrite (children_at_lookup _ _ _ Hna), Hca in Hb.
      by apply elem_of_nil in Hb.
    + by apply (inv_acyclic _ Hinv) in Hc.
Qed.

End inv_create.

Section inv_connect.
Context {virus_id_t : Type} `{Countable virus_id_t}.
Implicit Types (h : gmap addr (Node virus_id_t)) (n : Node virus_id_t).
Implicit Types (v : gmap virus_id_t addr) (st : VirusGenealogy virus_id_t).

(** Distinct live nodes are no more than the heap holds. *)
Lemma live_bound h (l : list addr) :
  NoDup l → (∀ a, a ∈ l → is_Some (h !! a)) → length l ≤ size h.
Proof.
  intros Hnd Hlive. rewrite <-size_dom. unfold size at 1, set_size. simpl.
  apply submseteq_length, NoDup_submseteq; [done|].
  intros a Ha. apply elem_of_elements, elem_of_dom. by apply Hlive.
Qed.

(** Going up from a node one gets to the stem, or finds as many distinct
    ancestors as one likes. *)
Lemma inv_ancestors st (k : nat) :
  inv st → ∀ c, is_Some (heap st !! c) →
  rtc (edge (heap st)) (stemNode st) c
  ∨ ∃ l, length l = k ∧ NoDup l
         ∧ ∀ a, a ∈ l → is_Some (heap st !! a) ∧ tc (edge (heap st)) a c.
Proof.
  intros Hinv. induction k as [|k IH]; intros c [n Hn].
  - right. exists []. split; [done|]. split; [constructor|].
    intros a Ha. by apply elem_of_nil in Ha.
  - destruct (decide (c = stemNode st)) as [->|Hc]; [by left|].
    pose proof (inv_parents _ Hinv c n Hn Hc) as Hpar.
    destruct (parents n) as [|p ps] eqn:Hps; [done|].
    assert (edge (heap st) p c) as Hpc.
    { apply (inv_symmetric _ Hinv). rewrite (parents_at_lookup _ _ _ Hn), Hps. left. }
    destruct (IH p (edge_live _ _ _ Hpc)) as [Hstem|(l & Hlen & Hnd & Hl)].
    + left. by eapply rtc_r.
    + right. exists (p :: l). split; [by rewrite <-Hlen|]. split.
      * constructor; [|done]. intros [_ Hpp]%Hl.
        by apply (inv_acyclic _ Hinv) in Hpp.
      * intros a [->|Ha]%elem_of_cons.
        -- split; [by eapply edge_live|by apply tc_once].
        -- destruct (Hl a Ha). split; [done|]. by eapply tc_r.
Qed.

(** Every live node is the stem or one of its descendants. *)
Lemma inv_from_stem st (c : addr) :
  inv st → is_Some (heap st !! c) → rtc (edge (heap st)) (stemNode st) c.
Proof.
  intros Hinv Hc.
  destruct (inv_ancestors st (S (size (heap st))) Hinv c Hc)
    as [?|(l & Hlen & Hnd & Hl)]; [done|].
  assert (length l ≤ size (heap st)); [|lia].
  apply live_bound; [done|]. intros a Ha. by apply Hl.
Qed.

(** One new edge from [p] to [x] closes a cycle only if [p] could be
    reached from [x] before. *)
Lemma tc_new_edge {A} (R R' : relation A) (p x : A) :
  (∀ a b, R' a b → R a b ∨ (a = p ∧ b = x)) →
  ∀ a b, tc R' a b → tc R a b ∨ (rtc R a p ∧ rtc R x b).
Proof.
  intros Hstep a b. induction 1 as [a b Hab|a b c Hab _ IH].
  - destruct (Hstep a b Hab) as [?|[-> ->]]; [left; by apply tc_once|by right].
  - destruct (Hstep a b Hab) as [Hab'|[-> ->]].
    + destruct IH as [?|[? ?]]; [left; by eapply tc_l|].
      right. split; [by eapply rtc_l|done].
    + right. split; [done|]. destruct IH as [?%tc_rtc|[_ ?]]; done.
Qed.

Lemma inv_connect st (child_id parent_id : virus_id_t) :
  inv st → ¬ descendant st child_id parent_id →
  inv (state_of (connect child_id parent_id st)).
Proof.
  intros Hinv Hdesc. pose proof (inv_wf _ Hinv) as Hwf.
  pose proof (wf_connect_many st child_id [parent_id] Hwf) as Hwf'.
  unfold connect, connect_many in *.
  destruct (viruses st !! child_id) as [x|] eqn:Hx; [|done].
  simpl in *.
  destruct (viruses st !! parent_id) as [p|] eqn:Hp; simpl in *.
  2:{ by rewrite set_heap_id. }
  destruct (set_contains x (children_at (heap st) p)) eqn:Hcont; simpl in *.
  { by rewrite set_heap_id. }
  apply set_contains_false in Hcont.
  assert (Hnot : ¬ rtc (edge (heap st)) x p).
  { intros Hrtc. apply Hdesc. by exists x, p. }
  destruct (wf_live _ _ _ Hwf Hx) as [nx Hnx].
  destruct (wf_live _ _ _ Hwf Hp) as [np Hnp].
  assert (Hxs : x ≠ stemNode st).
  { intros ->. apply Hnot. apply inv_from_stem; eauto. }
  set (h' := alter (with_parents (set_insert p)) x
               (alter (with_children (set_insert x)) p (heap st))) in *.
  assert (Hch : ∀ c b, b ∈ children_at h' c ↔
                       b ∈ children_at (heap st) c ∨ (c = p ∧ b = x)).
  { intros c b. unfold h'. rewrite children_at_link.
    destruct (decide (c = p)) as [->|Hc].
    - rewrite decide_True by eauto. rewrite elem_of_set_insert. naive_solver.
    - rewrite decide_False by naive_solver. naive_solver. }
  assert (Hpar : ∀ c b, b ∈ parents_at h' c ↔
                        b ∈ parents_at (heap st) c ∨ (c = x ∧ b = p)).
  { intros c b. unfold h', parents_at. rewrite lookup_link.
    destruct (heap st !! c) as [n|] eqn:Hn; simpl.
    - destruct (decide (c = x)) as [->|Hc].
      + rewrite elem_of_set_insert. naive_solver.
      + naive_solver.
    - rewrite elem_of_nil. split; [tauto|]. intros [?|[-> _]]; [done|congruence]. }
  assert (Hold : ∀ c n', h' !! c = Some n' →
            ∃ n, heap st !! c = Some n ∧ virus n' = virus n
                 ∧ (c ≠ x → parents n' = parents n)
                 ∧ ∀ b, b ∈ parents n → b ∈ parents n').
  { intros c n'. unfold h'. rewrite lookup_link.
    destruct (heap st !! c) as [n|]; simpl; [|done].
    intros [= <-]. exists n. simpl. split; [done|]. split; [done|]. split.
    - intros Hc. by rewrite decide_False.
    - intros b Hb. case_decide; [|done]. apply elem_of_set_insert. by right. }
  split; simpl.
  - done.
  - apply (inv_stem_registered _ Hinv).
  - destruct (parents_at h' (stemNode st)) as [|b l] eqn:Hl; [done|].
    assert (b ∈ parents_at h' (stemNode st)) as Hb by (rewrite Hl; left).
    apply Hpar in Hb as [Hb|[? _]]; [|done].
    rewrite (inv_stem_parents _ Hinv) in Hb. by apply elem_of_nil in Hb.
  - intros c n' Hn'. destruct (Hold c n' Hn') as (n & Hn & -> & _).
    by apply (inv_registered _ Hinv).
  - intros c b. rewrite Hch, Hpar, (inv_symmetric _ Hinv). naive_solver.
  - intros c n' Hn' Hc. destruct (Hold c n' Hn') as (n & Hn & _ & _ & Hsub).
    pose proof (inv_parents _ Hinv c n Hn Hc) as Hne.
    destruct (parents n) as [|b l]; [done|].
    intros Hnil. specialize (Hsub b). rewrite Hnil in Hsub.
    apply (not_elem_of_nil b), Hsub. left.
  - intros c Hcyc.
    destruct (tc_new_edge (edge (heap st)) (edge h') p x) with (a := c) (b := c)
      as [Hc|[Hcp Hxc]]; [|done| |].
    + intros a b. unfold edge. rewrite Hch. tauto.
    + by apply (inv_acyclic _ Hinv) in Hc.
    + apply Hnot. by etrans.
Qed.

End inv_connect.

(** ** The traversal of [remove] *)

Lemma filter_ext_elem {A} (P Q : A → Prop)
    `{!∀ x, Decision (P x), !∀ x, Decision (Q x)} (l : list A) :
  (∀ x, x ∈ l → P x ↔ Q x) → filter P l = filter Q l.
Proof.
  induction l as [|x l IH]; intros HPQ; [done|].
  rewrite !filter_cons. rewrite IH by (intros y Hy; apply HPQ; by right).
  apply decide_ext, HPQ. left.
Qed.

Lemma filter_length_all {A} (P : A → Prop) `{!∀ x, Decision (P x)} (l : list A) :
  length (filter P l) = length l → ∀ x, x ∈ l → P x.
Proof.
  intros Hlen x Hx. destruct (decide (P x)) as [|Hn]; [done|].
  pose proof (length_filter_lt P l x Hx Hn). lia.
Qed.

Lemma filter_length_none {A} (P : A → Prop) `{!∀ x, Decision (P x)} (l : list A) :
  (∀ x, x ∈ l → ¬ P x) → length (filter P l) = 0.
Proof.
  induction l as [|x l IH]; intros HP; [done|].
  rewrite filter_cons_False by (apply HP; left).
  apply IH. intros y Hy. apply HP. by right.
Qed.

(** One more processed node counts for the sets it is in. *)
Lemma filter_length_insert (current : addr) (P l : list addr) :
  NoDup l → current ∉ P →
  length (filter (λ p, p ∈ set_insert current P) l)
  = length (filter (λ p, p ∈ P) l) + (if decide (current ∈ l) then 1 else 0).
Proof.
  intros Hnd Hcur. induction Hnd as [|x l Hx Hnd IH]; [done|].
  rewrite !filter_cons. destruct (decide (x = current)) as [->|Hne].
  - rewrite decide_True by (apply elem_of_set_insert; by left).
    rewrite decide_False by done. simpl. rewrite IH.
    rewrite (decide_True (P := current ∈ current :: l)) by left.
    rewrite decide_False by done. lia.
  - destruct (decide (x ∈ P)) as [HxP|HxP].
    + rewrite decide_True by (apply elem_of_set_insert; by right).
      simpl. rewrite IH. f_equal. f_equal.
      apply decide_ext. rewrite elem_of_cons. naive_solver.
    + rewrite decide_False by (rewrite elem_of_set_insert; naive_solver).
      rewrite IH. f_equal.
      apply decide_ext. rewrite elem_of_cons. naive_solver.
Qed.

Section traversal_facts.
Context {virus_id_t : Type} `{Countable virus_id_t}.
Implicit Types (h : gmap addr (Node virus_id_t)) (n : Node virus_id_t).
Implicit Types (v : gmap virus_id_t addr) (st : VirusGenealogy virus_id_t).
Implicit Types (rp : gmap virus_id_t nat) (t : traversal virus_id_t).

Lemma count_of_lookup h rp (c : addr) n :
  h !! c = Some n → count_of h rp c = default 0 (rp !! get_id (virus n)).
Proof. unfold count_of, id_at. by intros ->. Qed.

(** The loop over the children of [current]: every child is counted once,
    and the children whose count reaches the number of their parents are
    queued, in the order of the set. *)
Lemma count_children_spec h (cs : list addr) :
  (∀ c1 c2 id, id_at h c1 = Some id → id_at h c2 = Some id → c1 = c2) →
  NoDup cs → (∀ c, c ∈ cs → is_Some (h !! c)) →
  ∀ rp (q : list addr),
  ∃ rp',
    count_children h cs rp q
    = Some (rp', q ++ filter (λ c, S (count_of h rp c) = length (parents_at h c)) cs)
    ∧ ∀ c, is_Some (h !! c) →
        count_of h rp' c = count_of h rp c + (if decide (c ∈ cs) then 1 else 0).
Proof.
  intros Hinj Hnd. induction Hnd as [|child cs Hchild Hnd IH]; intros Hlive rp q.
  - exists rp. simpl. rewrite app_nil_r. split; [done|].
    intros c _. rewrite ?decide_False by apply not_elem_of_nil. lia.
  - destruct (Hlive child) as [n Hn]; [left|]. simpl. rewrite Hn. simpl.
    set (id := get_id (virus n)). set (val := S (default 0 (rp !! id))).
    assert (Hval : val = S (count_of h rp child)).
    { by rewrite (count_of_lookup _ _ _ _ Hn). }
    assert (Hother : ∀ c, is_Some (h !! c) → c ≠ child →
              count_of h (<[id := val]> rp) c = count_of h rp c).
    { intros c [nc Hnc] Hne. rewrite !(count_of_lookup _ _ _ _ Hnc).
      rewrite lookup_insert_ne; [done|]. intros Heq. apply Hne.
      apply (Hinj c child id); unfold id_at.
      - rewrite Hnc. simpl. by rewrite <-Heq.
      - by rewrite Hn. }
    destruct (IH (λ c Hc, Hlive c (list_elem_of_further _ _ _ Hc))
                (<[id := val]> rp)
                (if decide (val = length (parents n)) then q ++ [child] else q))
      as (rp' & -> & Hcount).
    exists rp'. split.
    + f_equal. f_equal.
      rewrite (filter_ext_elem _ (λ c, S (count_of h rp c) = length (parents_at h c))).
      2:{ intros c Hc. rewrite Hother; [done|by apply Hlive; right|].
          intros ->. done. }
      rewrite filter_cons, (parents_at_lookup _ _ _ Hn), <-Hval.
      destruct (decide (val = length (parents n))); [|done].
      by rewrite <-(assoc_L (++)).
    + intros c Hc. rewrite (Hcount c Hc).
      destruct (decide (c = child)) as [->|Hne].
      * rewrite decide_False by done.
        rewrite (decide_True (P := child ∈ child :: cs)) by left.
        rewrite (count_of_lookup _ (<[id := val]> rp) _ _ Hn).
        fold id. rewrite lookup_insert_eq. simpl. lia.
      * rewrite (Hother c Hc Hne). f_equal.
        apply decide_ext. rewrite elem_of_cons. naive_solver.
Qed.

End traversal_facts.

Section traversal_step.
Context {virus_id_t : Type} `{Countable virus_id_t}.
Implicit Types (h : gmap addr (Node virus_id_t)) (n : Node virus_id_t).
Implicit Types (v : gmap virus_id_t addr) (st : VirusGenealogy virus_id_t).
Implicit Types (rp : gmap virus_id_t nat) (t : traversal virus_id_t).

(** One turn of the loop keeps what holds of its locals, and processes a
    node that was not processed before. *)
Lemma traversal_step st (r : addr) t (current : addr) (q : list addr) :
  inv st → traversal_inv (heap st) r t → to_process t = current :: q →
  ∃ n rp' q',
    heap st !! current = Some n
    ∧ count_children (heap st) (children n) (removed_parents t) q = Some (rp', q')
    ∧ traversal_inv (heap st) r
        {| to_process := q';
           fully_remove := set_insert current (fully_remove t);
           remove_iterators := remove_iterators t ++ [get_id (virus n)];
           removed_parents := rp' |}
    ∧ length (set_insert current (fully_remove t)) = S (length (fully_remove t)).
Proof.
  intros Hinv [Hnd Hdis Hsort Hlive Hdesc Hcount Hseen Hbegin Hit] HQ.
  pose proof (inv_wf _ Hinv) as Hwf. rewrite HQ in *.
  set (h := heap st) in *. set (P := fully_remove t) in *.
  destruct (Hlive current) as [n Hn]; [left; left|].
  assert (HcurP : current ∉ P) by (apply Hdis; left).
  apply NoDup_cons in Hnd as [Hcurq Hndq].
  assert (Hcs_nd : NoDup (children n)).
  { by apply sorted_NoDup, (wf_sorted _ Hwf current n). }
  assert (Hcs_live : ∀ c, c ∈ children n → is_Some (h !! c)).
  { intros c Hc. apply (wf_closed _ Hwf current n c Hn). tauto. }
  destruct (count_children_spec h (children n)
              (λ c1 c2 id, inv_id_inj st c1 c2 id Hinv) Hcs_nd Hcs_live
              (removed_parents t) q) as (rp' & Hcc & Hcount').
  set (pushed := filter (λ c, S (count_of h (removed_parents t) c)
                              = length (parents_at h c)) (children n)) in *.
  exists n, rp', (q ++ pushed). split; [done|]. split; [done|].
  set (P' := set_insert current P).
  assert (HP' : ∀ c, c ∈ P' ↔ c = current ∨ c ∈ P).
  { intros c. apply elem_of_set_insert. }
  assert (Hchild : ∀ c, c ∈ children n ↔ current ∈ parents_at h c).
  { intros c. rewrite <-(children_at_lookup _ _ _ Hn).
    apply (inv_symmetric _ Hinv). }
  assert (Hpar_nd : ∀ c, NoDup (parents_at h c)).
  { intros c. unfold parents_at. destruct (h !! c) as [nc|] eqn:Hnc; [|constructor].
    by apply sorted_NoDup, (wf_sorted _ Hwf c nc). }
  (* the counts *)
  assert (HA : ∀ c, is_Some (h !! c) →
            count_of h rp' c = length (filter (λ p, p ∈ P') (parents_at h c))).
  { intros c Hc. rewrite (Hcount' c Hc), (Hcount c Hc).
    unfold P'. rewrite filter_length_insert by done. f_equal.
    apply decide_ext, Hchild. }
  (* the children that are queued *)
  assert (HB : ∀ c, c ∈ pushed ↔
            c ∈ children n ∧ ∀ p, p ∈ parents_at h c → p ∈ P').
  { intros c. unfold pushed. rewrite list_elem_of_filter.
    assert (Hup : c ∈ children n →
              S (count_of h (removed_parents t) c)
              = length (filter (λ p, p ∈ P') (parents_at h c))).
    { intros Hc. rewrite <-(HA c (Hcs_live c Hc)), (Hcount' c (Hcs_live c Hc)).
      rewrite decide_True by done. lia. }
    split.
    - intros [Hlen Hc]. split; [done|]. rewrite (Hup Hc) in Hlen.
      exact (filter_length_all (λ p, p ∈ P') _ Hlen).
    - intros [Hc Hall]. split; [|done]. rewrite (Hup Hc). by rewrite filter_all. }
  assert (HC : ∀ c, c ∈ pushed →
            c ≠ r ∧ (c ∉ current :: q) ∧ (c ∉ P) ∧ is_Some (h !! c)).
  { intros c [Hc Hall]%HB. pose proof (Hcs_live c Hc) as Hclive.
    pose proof (proj1 (Hchild c) Hc) as Hcp.
    assert (edge h current c) as Hedge.
    { unfold edge. by rewrite (children_at_lookup _ _ _ Hn). }
    assert (c ≠ r) as Hcr.
    { intros ->. apply (inv_acyclic _ Hinv r).
      eapply tc_rtc_l; [apply (Hdesc current); left; left|by apply tc_once]. }
    assert (¬ (c ∈ current :: q ∨ c ∈ P)) as Hnew.
    { intros [_ Hin]%(Hseen c Hclive Hcr). by apply HcurP, Hin. }
    tauto. }
  split; [split; simpl|].
  - apply NoDup_app. split; [done|]. split.
    + intros c Hc Hp. apply HC in Hp as (_ & Hnq & _). apply Hnq. by right.
    + by apply NoDup_filter.
  - intros c [Hc|Hc]%elem_of_app; rewrite HP'.
    + intros [->|HcP]; [done|]. by apply (Hdis c); [right|].
    + apply HC in Hc as (_ & Hnq & HnP & _). intros [->|?]; [|done].
      apply Hnq. left.
  - by apply set_insert_sorted.
  - intros c [[Hc|Hc]%elem_of_app|[->|Hc]%HP'].
    + apply Hlive. left. by right.
    + by apply HC in Hc as (_ & _ & _ & ?).
    + eauto.
    + apply Hlive. by right.
  - intros c [[Hc|Hc]%elem_of_app|[->|Hc]%HP'].
    + apply Hdesc. left. by right.
    + apply HB in Hc as [Hc _]. eapply rtc_r; [apply (Hdesc current); left; left|].
      unfold edge. by rewrite (children_at_lookup _ _ _ Hn).
    + apply Hdesc. left. left.
    + apply Hdesc. by right.
  - exact HA.
  - intros c Hclive Hcr. rewrite elem_of_app. split.
    + intros [[Hc|Hc]|[->|Hc]%HP'].
      * destruct (proj1 (Hseen c Hclive Hcr)) as [Hne Hall]; [left; by right|].
        split; [done|]. intros p Hp. apply HP'. right. by apply Hall.
      * pose proof Hc as [Hcn Hall]%HB. split; [|done].
        intros Hnil. apply Hchild in Hcn. rewrite Hnil in Hcn.
        by apply elem_of_nil in Hcn.
      * destruct (proj1 (Hseen current Hclive Hcr)) as [Hne Hall]; [left; left|].
        split; [done|]. intros p Hp. apply HP'. right. by apply Hall.
      * destruct (proj1 (Hseen c Hclive Hcr)) as [Hne Hall]; [by right|].
        split; [done|]. intros p Hp. apply HP'. right. by apply Hall.
    + intros [Hne Hall]. destruct (decide (c ∈ children n)) as [Hc|Hc].
      * left. right. by apply HB.
      * assert (c ∈ current :: q ∨ c ∈ P) as [[->|Hq]%elem_of_cons|HcP].
        { apply (Hseen c Hclive Hcr). split; [done|]. intros p Hp.
          destruct (proj1 (HP' p) (Hall p Hp)) as [->|?]; [|done].
          by apply Hchild in Hp. }
        -- right. apply HP'. by left.
        -- left. by left.
        -- right. apply HP'. by right.
  - destruct Hbegin as [[->|Hr]%elem_of_cons|Hr].
    + right. apply HP'. by left.
    + left. apply elem_of_app. by left.
    + right. apply HP'. by right.
  - intros id. rewrite elem_of_app, list_elem_of_singleton, Hit. split.
    + intros [(c & Hc & Hid) | ->].
      * exists c. split; [apply HP'; by right|done].
      * exists current. split; [apply HP'; by left|].
        unfold id_at. fold h. by rewrite Hn.
    + intros (c & [->|Hc]%HP' & Hid).
      * right. unfold id_at in Hid. fold h in Hid. rewrite Hn in Hid.
        by injection Hid.
      * left. by exists c.
  - by apply set_insert_length.
Qed.

End traversal_step.

Section traversal_result.
Context {virus_id_t : Type} `{Countable virus_id_t}.
Implicit Types (h : gmap addr (Node virus_id_t)) (n : Node virus_id_t).
Implicit Types (v : gmap virus_id_t addr) (st : VirusGenealogy virus_id_t).
Implicit Types (rp : gmap virus_id_t nat) (t : traversal virus_id_t).

Lemma traversal_begin st (r : addr) :
  is_Some (heap st !! r) →
  traversal_inv (heap st) r
    {| to_process := [r]; fully_remove := [];
       remove_iterators := []; removed_parents := ∅ |}.
Proof.
  intros Hr. split; simpl.
  - apply NoDup_singleton.
  - intros c _. apply not_elem_of_nil.
  - constructor.
  - intros c [->%list_elem_of_singleton|[]%elem_of_nil]. done.
  - intros c [->%list_elem_of_singleton|[]%elem_of_nil]. done.
  - intros c [nc Hnc]. rewrite (count_of_lookup _ _ _ _ Hnc), lookup_empty. simpl.
    symmetry. apply filter_length_none. intros p _. apply not_elem_of_nil.
  - intros c Hc Hcr. rewrite list_elem_of_singleton, elem_of_nil. split; [naive_solver|].
    intros [Hne Hall]. destruct (parents_at (heap st) c) as [|p l]; [done|].
    destruct (not_elem_of_nil p). apply Hall. left.
  - left. left.
  - intros id. rewrite elem_of_nil. split; [done|].
    intros (c & []%elem_of_nil & _).
Qed.

(** With fuel for every node that is not processed yet, and one more turn
    to see the empty queue, the loop comes to its end. *)
Lemma traverse_spec st (r : addr) :
  inv st →
  ∀ (fuel : nat) t,
    traversal_inv (heap st) r t →
    size (heap st) < fuel + length (fully_remove t) →
    ∃ t', traverse fuel (heap st) t = Some t'
          ∧ traversal_inv (heap st) r t' ∧ to_process t' = [].
Proof.
  intros Hinv. induction fuel as [|fuel IH]; intros t Ht Hfuel.
  - assert (length (fully_remove t) ≤ size (heap st)); [|lia].
    apply live_bound; [apply sorted_NoDup, (ti_sorted _ _ _ Ht)|].
    intros a Ha. apply (ti_live _ _ _ Ht). by right.
  - simpl. destruct (to_process t) as [|current q] eqn:HQ.
    + by exists t.
    + destruct (traversal_step st r t current q Hinv Ht HQ)
        as (n & rp' & q' & Hn & Hcc & Ht' & Hlen).
      rewrite Hn. simpl. rewrite Hcc. simpl.
      apply IH; [done|]. simpl. lia.
Qed.

(** The traversal [remove] runs ends, and what it leaves in
    [fully_remove] is: the node the call names; with it the nodes all of
    whose parents are in [fully_remove]; and no other node. *)
Lemma traverse_total st (r : addr) :
  inv st → is_Some (heap st !! r) → r ≠ stemNode st →
  ∃ t,
    traverse (2 + size (heap st)) (heap st)
      {| to_process := [r]; fully_remove := [];
         remove_iterators := []; removed_parents := ∅ |} = Some t
    ∧ StronglySorted N.lt (fully_remove t)
    ∧ r ∈ fully_remove t
    ∧ (stemNode st ∉ fully_remove t)
    ∧ (∀ c, c ∈ fully_remove t → is_Some (heap st !! c))
    ∧ (∀ c, is_Some (heap st !! c) → c ≠ r →
         c ∈ fully_remove t
         ↔ parents_at (heap st) c ≠ []
           ∧ ∀ p, p ∈ parents_at (heap st) c → p ∈ fully_remove t)
    ∧ (∀ p, p ∈ parents_at (heap st) r → p ∉ fully_remove t)
    ∧ (∀ id, id ∈ remove_iterators t ↔
             ∃ c, c ∈ fully_remove t ∧ id_at (heap st) c = Some id).
Proof.
  intros Hinv Hr Hrs.
  destruct (traverse_spec st r Hinv (2 + size (heap st)) _ (traversal_begin st r Hr))
    as (t & Htr & [Hnd Hdis Hsort Hlive Hdesc Hcount Hseen Hbegin Hit] & HQ).
  { simpl. lia. }
  rewrite HQ in *. exists t. split; [done|]. split; [done|].
  assert (Hseen' : ∀ c, is_Some (heap st !! c) → c ≠ r →
            c ∈ fully_remove t
            ↔ parents_at (heap st) c ≠ []
              ∧ ∀ p, p ∈ parents_at (heap st) c → p ∈ fully_remove t).
  { intros c Hc Hcr. rewrite <-(Hseen c Hc Hcr), elem_of_nil. tauto. }
  split; [destruct Hbegin as [[]%elem_of_nil|?]; done|].
  split.
  { intros [Hne _]%Hseen'; [|apply (wf_stem _ (inv_wf _ Hinv))|done].
    by apply Hne, (inv_stem_parents _ Hinv). }
  split; [intros c Hc; apply Hlive; by right|].
  split; [done|]. split; [|done].
  intros p Hp HpP. apply (inv_acyclic _ Hinv r).
  eapply tc_rtc_l; [apply (Hdesc p); by right|].
  apply tc_once. by apply (inv_symmetric _ Hinv).
Qed.

End traversal_result.

(** ** [remove] *)

Section remove_facts.
Context {virus_id_t : Type} `{Countable virus_id_t}.
Implicit Types (h : gmap addr (Node virus_id_t)) (n : Node virus_id_t).
Implicit Types (v : gmap virus_id_t addr) (st : VirusGenealogy virus_id_t).
Implicit Types (rp : gmap virus_id_t nat) (t : traversal virus_id_t).

#[local] Arguments traverse : simpl never.

Lemma referenced_delete st (a b : addr) :
  referenced b (set_heap (delete a (heap st)) st) → referenced b st.
Proof.
  unfold referenced. simpl. intros [?|[?|(c & n & Hc & Hin)]]; [tauto..|].
  apply lookup_delete_Some in Hc as [_ Hc]. right; right. by exists c, n.
Qed.

(** Nodes nothing points at any more are destroyed. *)
Lemma release_all st (l : list addr) :
  (∀ a, a ∈ l → ¬ referenced a st) →
  foldl (λ s a, release a s) st l
  = set_heap (foldl (λ h a, delete a h) (heap st) l) st.
Proof.
  revert st. induction l as [|a l IH]; intros st Hl; simpl.
  - by rewrite set_heap_id.
  - unfold release at 2. rewrite decide_False by (apply Hl; left).
    rewrite IH; [done|]. intros b Hb Href. apply (Hl b); [by right|].
    by eapply referenced_delete.
Qed.

Lemma elem_of_child_guards h (fr : list addr) (g : RemoveGuard) :
  g ∈ child_guards h fr ↔
  ∃ current child, g = GuardParents child current ∧ current ∈ fr
                   ∧ child ∈ children_at h current ∧ child ∉ fr.
Proof.
  unfold child_guards. rewrite list_elem_of_bind. split.
  - intros (current & (child & -> & [? ?]%list_elem_of_filter)%list_elem_of_fmap & ?).
    by exists current, child.
  - intros (current & child & -> & ? & ? & ?). exists current. split; [|done].
    apply list_elem_of_fmap. exists child. split; [done|].
    by apply list_elem_of_filter.
Qed.

Lemma elem_of_parent_guards h (r : addr) (g : RemoveGuard) :
  g ∈ parent_guards h r ↔
  ∃ parent, g = GuardChildren parent r ∧ parent ∈ parents_at h r.
Proof. unfold parent_guards. by rewrite list_elem_of_fmap. Qed.

(** What [remove] does in the store of a caller who closes no cycle: it
    returns; the nodes it takes out are the node of [id] and the nodes all
    of whose parents are taken out; the other nodes stay, with what is left
    of their sets. *)
Lemma remove_spec st (id : virus_id_t) (r : addr) :
  inv st → get_stem_id st ≠ Some id → viruses st !! id = Some r →
  ∃ (P : list addr) st',
    remove id st = Some (Return st')
    ∧ r ∈ P
    ∧ (stemNode st ∉ P)
    ∧ (∀ c, c ∈ P → is_Some (heap st !! c))
    ∧ (∀ c, is_Some (heap st !! c) → c ≠ r →
         c ∈ P ↔ parents_at (heap st) c ≠ []
                 ∧ ∀ p, p ∈ parents_at (heap st) c → p ∈ P)
    ∧ (∀ p, p ∈ parents_at (heap st) r → p ∉ P)
    ∧ stemNode st' = stemNode st
    ∧ (∀ i a, viruses st' !! i = Some a ↔ viruses st !! i = Some a ∧ a ∉ P)
    ∧ (∀ c, c ∈ P ∨ heap st !! c = None → heap st' !! c = None)
    ∧ (∀ c n, c ∉ P → heap st !! c = Some n →
         ∃ n', heap st' !! c = Some n' ∧ virus n' = virus n
               ∧ parents n' = filter (λ e, e ∉ P) (parents n)
               ∧ children n' = filter (λ e, e ∉ P) (children n)).
Proof.
  intros Hinv Hid Hr. pose proof (inv_wf _ Hinv) as Hwf.
  destruct (inv_stem_id st Hinv) as (stem_id & Hget & Hreg).
  assert (id ≠ stem_id) as Hne by congruence.
  assert (r ≠ stemNode st) as Hrs.
  { intros ->. apply (wf_viruses _ Hwf) in Hr, Hreg. congruence. }
  destruct (traverse_total st r Hinv (wf_live _ _ _ Hwf Hr) Hrs)
    as (t & Htr & Hsort & HrP & HsP & Hlive & Hseen & Hrpar & Hit).
  set (P := fully_remove t) in *.
  set (gs := child_guards (heap st) P ++ parent_guards (heap st) r).
  set (h2 := foldl (λ h a, alter clear_Node a h) (foldl commit (heap st) gs) P).
  set (v' := foldl (λ v i, delete i v) (viruses st) (remove_iterators t)).
  (* the guards, seen from a node that stays *)
  assert (Hgp : ∀ c e, c ∉ P → e ∈ parents_at (heap st) c →
            GuardParents c e ∉ gs ↔ e ∉ P).
  { intros c e Hc He. unfold gs. rewrite elem_of_app, elem_of_child_guards,
      elem_of_parent_guards. split.
    - intros Hg HeP. apply Hg. left. exists e, c. split; [done|]. split; [done|].
      split; [|done]. by apply (inv_symmetric _ Hinv).
    - intros HeP [(e' & c' & [= -> ->] & ? & _)|(p & [=] & _)]. done. }
  assert (Hgc : ∀ c e, c ∉ P → e ∈ children_at (heap st) c →
            GuardChildren c e ∉ gs ↔ e ∉ P).
  { intros c e Hc He. unfold gs. rewrite elem_of_app, elem_of_child_guards,
      elem_of_parent_guards.
    pose proof (proj1 (inv_symmetric _ Hinv c e) He) as Hce. split.
    - intros Hg HeP. apply Hg. right. exists c. split; [|].
      + destruct (decide (e = r)) as [->|Her]; [done|].
        destruct (proj1 (Hseen e (Hlive e HeP) Her) HeP) as [_ Hall].
        destruct Hc. by apply Hall.
      + destruct (decide (e = r)) as [->|Her]; [done|].
        destruct (proj1 (Hseen e (Hlive e HeP) Her) HeP) as [_ Hall].
        destruct Hc. by apply Hall.
    - intros HeP [(e' & c' & [=] & _)|(p & [= -> ->] & _)]. done. }
  (* the heap before the nodes are destroyed *)
  assert (Hh2in : ∀ c n, c ∈ P → heap st !! c = Some n →
            h2 !! c = Some (clear_Node
              {| virus := virus n;
                 parents := filter (λ e, GuardParents c e ∉ gs) (parents n);
                 children := filter (λ e, GuardChildren c e ∉ gs) (children n) |})).
  { intros c n Hc Hn. unfold h2. rewrite lookup_clear, lookup_commit, Hn. simpl.
    by rewrite decide_True. }
  assert (Hh2out : ∀ c n, c ∉ P → heap st !! c = Some n →
            h2 !! c = Some {| virus := virus n;
                              parents := filter (λ e, e ∉ P) (parents n);
                              children := filter (λ e, e ∉ P) (children n) |}).
  { intros c n Hc Hn. unfold h2. rewrite lookup_clear, lookup_commit, Hn. simpl.
    rewrite decide_False by done. do 2 f_equal.
    - apply filter_ext_elem. intros e He. apply Hgp; [done|].
      by rewrite (parents_at_lookup _ _ _ Hn).
    - apply filter_ext_elem. intros e He. apply Hgc; [done|].
      by rewrite (children_at_lookup _ _ _ Hn). }
  assert (Hh2none : ∀ c, heap st !! c = None → h2 !! c = None).
  { intros c Hc. unfold h2. by rewrite lookup_clear, lookup_commit, Hc. }
  assert (Hv' : ∀ i a, v' !! i = Some a ↔ viruses st !! i = Some a ∧ a ∉ P).
  { intros i a. unfold v'. rewrite lookup_foldl_delete. case_decide as Hi.
    - split; [done|]. intros [Hia HaP]. destruct HaP.
      apply Hit in Hi as (c & Hc & Hci).
      apply (wf_viruses _ Hwf) in Hia.
      by rewrite (inv_id_inj st a c i Hinv Hia Hci).
    - split; [|tauto]. intros Hia. split; [done|]. intros HaP. apply Hi, Hit.
      exists a. split; [done|]. by apply (wf_viruses _ Hwf). }
  exists P, (set_heap (foldl (λ h a, delete a h) h2 P)
              {| heap := h2; viruses := v'; stemNode := stemNode st |}).
  split.
  { unfold remove. rewrite Hget. simpl. rewrite decide_False by done.
    change (2 + size (heap st)) with (S (S (size (heap st)))) in Htr.
    rewrite Hr, Htr. simpl. do 2 f_equal. apply release_all.
    intros a Ha. unfold referenced. simpl.
    intros [->|[(i & b & Hi & ->)|(c & n2 & Hc & Hin)]].
    - done.
    - apply Hv' in Hi as [_ ?]. done.
    - destruct (heap st !! c) as [n|] eqn:Hn.
      + destruct (decide (c ∈ P)) as [HcP|HcP].
        * rewrite (Hh2in c n HcP Hn) in Hc. injection Hc as <-. simpl in Hin.
          rewrite elem_of_nil in Hin. tauto.
        * rewrite (Hh2out c n HcP Hn) in Hc. injection Hc as <-. simpl in Hin.
          rewrite !list_elem_of_filter in Hin. tauto.
      + by rewrite (Hh2none c Hn) in Hc. }
  do 5 (split; [done|]). simpl. split; [done|]. split; [done|]. split.
  - intros c [Hc|Hc]; rewrite lookup_foldl_delete.
    + by rewrite decide_True.
    + case_decide; [done|]. by apply Hh2none.
  - intros c n Hc Hn. rewrite lookup_foldl_delete, decide_False by done.
    rewrite (Hh2out c n Hc Hn). eexists. split; [done|]. done.
Qed.

End remove_facts.

Section inv_remove.
Context {virus_id_t : Type} `{Countable virus_id_t}.
Implicit Types (h : gmap addr (Node virus_id_t)) (n : Node virus_id_t).
Implicit Types (v : gmap virus_id_t addr) (st : VirusGenealogy virus_id_t).

Lemma tc_mono {A} (R R' : relation A) :
  (∀ a b, R' a b → R a b) → ∀ a b, tc R' a b → tc R a b.
Proof.
  intros Hsub a b. induction 1 as [a b Hab|a b c Hab _ IH].
  - by apply tc_once, Hsub.
  - eapply tc_l; [by apply Hsub|done].
Qed.

(** [remove] either throws and leaves the store alone, or returns. *)
Lemma remove_cases st (id : virus_id_t) :
  inv st →
  (get_stem_id st = Some id ∧ remove id st = Some (Throw TriedToRemoveStemVirus st))
  ∨ (get_stem_id st ≠ Some id ∧ viruses st !! id = None
     ∧ remove id st = Some (Throw VirusNotFound st))
  ∨ (∃ r, get_stem_id st ≠ Some id ∧ viruses st !! id = Some r).
Proof.
  intros Hinv. destruct (inv_stem_id st Hinv) as (stem_id & Hget & Hreg).
  destruct (decide (id = stem_id)) as [->|Hne].
  - left. split; [done|]. unfold remove. rewrite Hget. simpl.
    by rewrite decide_True.
  - right. destruct (viruses st !! id) as [r|] eqn:Hr.
    + right. exists r. split; [congruence|done].
    + left. split; [congruence|]. split; [done|].
      unfold remove. rewrite Hget. simpl. rewrite decide_False by done.
      by rewrite Hr.
Qed.

(** In the store of a caller who closes no cycle [remove] comes to an
    end. *)
Lemma remove_total st (id : virus_id_t) : inv st → is_Some (remove id st).
Proof.
  intros Hinv.
  destruct (remove_cases st id Hinv) as [[_ ->]|[(_ & _ & ->)|(r & Hid & Hr)]];
    [eauto..|].
  destruct (remove_spec st id r Hinv Hid Hr) as (P & st' & -> & _). eauto.
Qed.

Lemma inv_remove st (id : virus_id_t) o :
  inv st → remove id st = Some o → inv (state_of o).
Proof.
  intros Hinv Hrm. pose proof (wf_remove st id o (inv_wf _ Hinv) Hrm) as Hwf'.
  destruct (remove_cases st id Hinv)
    as [[_ Heq]|[(_ & _ & Heq)|(r & Hid & Hr)]].
  { rewrite Heq in Hrm. by injection Hrm as <-. }
  { rewrite Heq in Hrm. by injection Hrm as <-. }
  destruct (remove_spec st id r Hinv Hid Hr)
    as (P & st' & Heq & HrP & HsP & Hlive & Hseen & Hrpar & Hstem & Hvir
        & Hgone & Hstay).
  rewrite Heq in Hrm. injection Hrm as <-. simpl in *.
  pose proof (inv_wf _ Hinv) as Hwf.
  assert (Hback : ∀ c n', heap st' !! c = Some n' →
            (c ∉ P) ∧ ∃ n, heap st !! c = Some n ∧ virus n' = virus n
              ∧ parents n' = filter (λ e, e ∉ P) (parents n)
              ∧ children n' = filter (λ e, e ∉ P) (children n)).
  { intros c n' Hn'. destruct (decide (c ∈ P)) as [Hc|Hc].
    { rewrite Hgone in Hn' by tauto. done. }
    split; [done|]. destruct (heap st !! c) as [n|] eqn:Hn.
    - destruct (Hstay c n Hc Hn) as (n'' & Hn'' & ?).
      assert (n'' = n') as -> by congruence. by exists n.
    - rewrite Hgone in Hn' by tauto. done. }
  assert (Hch : ∀ c b, b ∈ children_at (heap st') c ↔
            (c ∉ P) ∧ b ∈ children_at (heap st) c ∧ (b ∉ P)).
  { intros c b. rewrite !elem_of_children_at. split.
    - intros (n' & Hn' & Hb). destruct (Hback c n' Hn') as (Hc & n & Hn & _ & _ & Hcn).
      rewrite Hcn in Hb. apply list_elem_of_filter in Hb as [? ?].
      split; [done|]. split; [|done]. by exists n.
    - intros (Hc & (n & Hn & Hb) & HbP).
      destruct (Hstay c n Hc Hn) as (n' & Hn' & _ & _ & Hcn).
      exists n'. split; [done|]. rewrite Hcn. by apply list_elem_of_filter. }
  assert (Hpar : ∀ c b, b ∈ parents_at (heap st') c ↔
            (c ∉ P) ∧ b ∈ parents_at (heap st) c ∧ (b ∉ P)).
  { intros c b. rewrite !elem_of_parents_at. split.
    - intros (n' & Hn' & Hb). destruct (Hback c n' Hn') as (Hc & n & Hn & _ & Hpn & _).
      rewrite Hpn in Hb. apply list_elem_of_filter in Hb as [? ?].
      split; [done|]. split; [|done]. by exists n.
    - intros (Hc & (n & Hn & Hb) & HbP).
      destruct (Hstay c n Hc Hn) as (n' & Hn' & _ & Hpn & _).
      exists n'. split; [done|]. rewrite Hpn. by apply list_elem_of_filter. }
  split.
  - done.
  - destruct (inv_stem_registered _ Hinv) as [stem_id Hreg].
    exists stem_id. rewrite Hstem. by apply Hvir.
  - rewrite Hstem. destruct (parents_at (heap st') (stemNode st)) as [|b l] eqn:Hl;
      [done|].
    assert (b ∈ parents_at (heap st') (stemNode st)) as Hb by (rewrite Hl; left).
    apply Hpar in Hb as (_ & Hb & _).
    rewrite (inv_stem_parents _ Hinv) in Hb. by apply elem_of_nil in Hb.
  - intros c n' Hn'. destruct (Hback c n' Hn') as (Hc & n & Hn & -> & _).
    apply Hvir. split; [|done]. by apply (inv_registered _ Hinv).
  - intros c b. rewrite Hch, Hpar, (inv_symmetric _ Hinv). tauto.
  - rewrite Hstem. intros c n' Hn' Hcs.
    destruct (Hback c n' Hn') as (Hc & n & Hn & _ & Hpn & _).
    pose proof (inv_parents _ Hinv c n Hn Hcs) as Hne.
    intros Hnil. apply Hc.
    assert (c ≠ r) as Hcr by (by intros ->).
    apply (Hseen c); [eauto|done|].
    rewrite (parents_at_lookup _ _ _ Hn). split; [done|].
    intros p Hp. destruct (decide (p ∈ P)) as [|HpP]; [done|].
    assert (p ∈ parents n') as Hin.
    { rewrite Hpn. by apply list_elem_of_filter. }
    rewrite Hnil in Hin. by apply elem_of_nil in Hin.
  - intros c Hcyc. apply (inv_acyclic _ Hinv c).
    eapply tc_mono; [|exact Hcyc]. intros a b. unfold edge. rewrite Hch. tauto.
Qed.

(** Every store of a caller who closes no cycle has these properties. *)
Lemma disciplined_inv st : disciplined st → inv st.
Proof.
  induction 1 as [stem_id a|st id ps a _ IH Ha Hid|st c p _ IH Hdesc
                  |st id o _ IH Hrm].
  - apply inv_construct.
  - by apply inv_create.
  - by apply inv_connect.
  - by eapply inv_remove.
Qed.

Lemma disciplined_reachable st : disciplined st → reachable st.
Proof.
  induction 1; [apply reachable_construct|by apply reachable_create
               |by apply reachable_connect|by eapply reachable_remove].
Qed.

End inv_remove.

(** ** [remove] comes to an end in every store *)

Lemma filter_length_mono {A} (P Q : A → Prop)
    `{!∀ x, Decision (P x), !∀ x, Decision (Q x)} (l : list A) :
  (∀ x, x ∈ l → P x → Q x) → length (filter P l) ≤ length (filter Q l).
Proof.
  induction l as [|x l IH]; intros HPQ; [done|].
  assert (length (filter P l) ≤ length (filter Q l)) as Hle.
  { apply IH. intros y Hy. apply HPQ. by right. }
  rewrite !filter_cons. destruct (decide (P x)) as [HP|HP].
  - rewrite decide_True by (apply HPQ; [left|done]). simpl. lia.
  - destruct (decide (Q x)); simpl; lia.
Qed.

Lemma filter_length_strict {A} (P Q : A → Prop)
    `{!∀ x, Decision (P x), !∀ x, Decision (Q x)} (l : list A) (y : A) :
  (∀ x, x ∈ l → P x → Q x) → y ∈ l → Q y → ¬ P y →
  length (filter P l) < length (filter Q l).
Proof.
  induction l as [|x l IH]; intros HPQ Hy HQ HP; [by apply elem_of_nil in Hy|].
  assert (length (filter P l) ≤ length (filter Q l)) as Hle.
  { apply filter_length_mono. intros z Hz. apply HPQ. by right. }
  rewrite !filter_cons. apply elem_of_cons in Hy as [<-|Hy].
  - rewrite decide_False, decide_True by done. simpl. lia.
  - assert (length (filter P l) < length (filter Q l)) as Hlt.
    { apply IH; [|done..]. intros z Hz. apply HPQ. by right. }
    destruct (decide (P x)) as [HPx|HPx].
    + rewrite decide_True by (apply HPQ; [left|done]). simpl. lia.
    + destruct (decide (Q x)); simpl; lia.
Qed.

Section remove_returns.
Context {virus_id_t : Type} `{Countable virus_id_t}.
Implicit Types (h : gmap addr (Node virus_id_t)) (n : Node virus_id_t).
Implicit Types (v : gmap virus_id_t addr) (st : VirusGenealogy virus_id_t).
Implicit Types (rp : gmap virus_id_t nat) (t : traversal virus_id_t).

#[local] Arguments traverse : simpl never.

Lemma unsaturated_bound h rp : length (unsaturated h rp) ≤ size h.
Proof.
  unfold unsaturated. etrans; [apply length_filter|].
  by rewrite <-size_dom.
Qed.

(** Counting a child never makes a node one that may still be queued, and
    a child that is queued is none any more. *)
Lemma count_children_measure h (cs : list addr) :
  (∀ c, c ∈ cs → is_Some (h !! c)) →
  ∀ rp (q : list addr),
  ∃ rp' q',
    count_children h cs rp q = Some (rp', q')
    ∧ length q' + length (unsaturated h rp') ≤ length q + length (unsaturated h rp)
    ∧ ∀ c, c ∈ q' → c ∈ q ∨ c ∈ cs.
Proof.
  induction cs as [|child cs IH]; intros Hlive rp q.
  - exists rp, q. split; [done|]. split; [done|]. tauto.
  - destruct (Hlive child) as [n Hn]; [left|]. simpl. rewrite Hn. simpl.
    set (id := get_id (virus n)). set (val := S (default 0 (rp !! id))).
    set (q1 := if decide (val = length (parents n)) then q ++ [child] else q).
    destruct (IH (λ c Hc, Hlive c (list_elem_of_further _ _ _ Hc))
                (<[id := val]> rp) q1) as (rp' & q' & -> & Hle & Hin).
    exists rp', q'. split; [done|].
    assert (Hgrow : ∀ c, count_of h rp c ≤ count_of h (<[id := val]> rp) c).
    { intros c. unfold count_of. destruct (id_at h c) as [i|]; simpl; [|done].
      destruct (decide (id = i)) as [<-|Hne].
      - rewrite lookup_insert_eq. simpl. unfold val. lia.
      - by rewrite lookup_insert_ne. }
    assert (Hchild : count_of h rp child < val
                     ∧ count_of h (<[id := val]> rp) child = val).
    { rewrite !(count_of_lookup _ _ _ _ Hn). fold id.
      rewrite lookup_insert_eq. simpl. unfold val. lia. }
    split.
    + assert (length q1 + length (unsaturated h (<[id := val]> rp))
              ≤ length q + length (unsaturated h rp)); [|lia].
      unfold q1. destruct (decide (val = length (parents n))) as [Hval|Hval].
      * rewrite length_app. simpl.
        assert (length (unsaturated h (<[id := val]> rp))
                < length (unsaturated h rp)); [|lia].
        unfold unsaturated. apply filter_length_strict with (y := child).
        -- intros c _. specialize (Hgrow c). lia.
        -- apply elem_of_elements, elem_of_dom. eauto.
        -- rewrite (parents_at_lookup _ _ _ Hn). lia.
        -- rewrite (parents_at_lookup _ _ _ Hn). lia.
      * assert (length (unsaturated h (<[id := val]> rp))
                ≤ length (unsaturated h rp)); [|lia].
        unfold unsaturated. apply filter_length_mono.
        intros c _. specialize (Hgrow c). lia.
    + intros c Hc. destruct (Hin c Hc) as [Hq1|?]; [|right; by right].
      unfold q1 in Hq1. destruct (decide (val = length (parents n))); [|by left].
      apply elem_of_app in Hq1 as [?|Heq%list_elem_of_singleton]; [by left|].
      subst c.
      right. left.
Qed.

Lemma traverse_returns h :
  heap_closed h →
  ∀ (fuel : nat) t,
    (∀ c, c ∈ to_process t → is_Some (h !! c)) →
    length (to_process t) + length (unsaturated h (removed_parents t)) < fuel →
    is_Some (traverse fuel h t).
Proof.
  intros Hclosed. induction fuel as [|fuel IH]; intros t Hlive Hfuel; [lia|].
  unfold traverse; fold (@traverse virus_id_t _ _).
  destruct (to_process t) as [|current q] eqn:HQ; [eauto|].
  destruct (Hlive current) as [n Hn]; [left|]. rewrite Hn. simpl.
  destruct (count_children_measure h (children n)) with
    (rp := removed_parents t) (q := q) as (rp' & q' & -> & Hle & Hin).
  { intros c Hc. apply (Hclosed current n c Hn). tauto. }
  simpl. apply IH; simpl.
  - intros c [Hc|Hc]%Hin.
    + apply Hlive. by right.
    + apply (Hclosed current n c Hn). tauto.
  - simpl in Hfuel. lia.
Qed.

(** [remove] returns or throws in every well-formed store. *)
Lemma remove_returns st (id : virus_id_t) : wf st → is_Some (remove id st).
Proof.
  intros Hwf. unfold remove, get_stem_id, id_at.
  destruct (wf_stem _ Hwf) as [n ->]. simpl.
  destruct (decide (id = get_id (virus n))); [eauto|].
  destruct (viruses st !! id) as [r|] eqn:Hr; [|eauto].
  destruct (traverse_returns (heap st) (wf_closed _ Hwf) (2 + size (heap st))
    {| to_process := [r]; fully_remove := [];
       remove_iterators := []; removed_parents := ∅ |}) as [t Ht].
  - simpl. intros c ->%list_elem_of_singleton. by eapply wf_live.
  - simpl. pose proof (unsaturated_bound (heap st) ∅). lia.
  - change (2 + size (heap st)) with (S (S (size (heap st)))) in Ht.
    rewrite Ht. simpl. eauto.
Qed.

End remove_returns.

(** ** The graph after [create] and after [remove] *)

Lemma sorted_elements_nil (l : list addr) : (∀ x, x ∉ l) → l = [].
Proof. destruct l as [|x l]; [done|]. intros Hl. destruct (Hl x). left. Qed.

Lemma sorted_elements_singleton (l : list addr) (b : addr) :
  StronglySorted N.lt l → (∀ x, x ∈ l ↔ x = b) → l = [b].
Proof.
  intros Hs%sorted_NoDup Hl. destruct l as [|x l].
  - destruct (not_elem_of_nil b). by apply Hl.
  - assert (x = b) as -> by (apply Hl; left). f_equal.
    apply sorted_elements_nil. intros y Hy.
    apply NoDup_cons in Hs as [Hb _].
    assert (y = b) as -> by (apply Hl; by right). done.
Qed.

Section graph.
Context {virus_id_t : Type} `{Countable virus_id_t}.
Implicit Types (h : gmap addr (Node virus_id_t)) (n : Node virus_id_t).
Implicit Types (v : gmap virus_id_t addr) (st : VirusGenealogy virus_id_t).

Lemma parents_at_sorted st (c : addr) :
  wf st → StronglySorted N.lt (parents_at (heap st) c).
Proof.
  intros Hwf. unfold parents_at. destruct (heap st !! c) as [n|] eqn:Hn;
    [by apply (wf_sorted _ Hwf c n)|constructor].
Qed.

Lemma children_at_sorted st (c : addr) :
  wf st → StronglySorted N.lt (children_at (heap st) c).
Proof.
  intros Hwf. unfold children_at. destruct (heap st !! c) as [n|] eqn:Hn;
    [by apply (wf_sorted _ Hwf c n)|constructor].
Qed.

(** A [create] that finds all its parents, seen as a change of the graph:
    one new node, and an edge to it from each of the parents. *)
Lemma create_graph st (id : virus_id_t) (ps : list virus_id_t) (a : addr) :
  wf st → heap st !! a = None → exists_ id st = false → ps ≠ [] →
  Forall (λ p, is_Some (viruses st !! p)) ps →
  ∃ st',
    create id ps a st = Return st'
    ∧ viruses st' = <[id := a]> (viruses st)
    ∧ stemNode st' = stemNode st
    ∧ (∀ c, id_at (heap st') c
            = if decide (c = a) then Some id else id_at (heap st) c)
    ∧ (∀ c b, b ∈ children_at (heap st') c ↔
              b ∈ children_at (heap st) c ∨ (b = a ∧ c ∈ found (viruses st) ps))
    ∧ (∀ c b, b ∈ parents_at (heap st') c ↔
              b ∈ parents_at (heap st) c ∨ (c = a ∧ b ∈ found (viruses st) ps)).
Proof.
  intros Hwf Ha Hid Hne Hall.
  destruct (create_return st id ps a Hwf Ha Hid Hne Hall)
    as (h' & Hcreate & (na & Hna & Hva & Hca & Hpa & Hsa) & Hsome & Hnone).
  eexists. split; [exact Hcreate|]. simpl. split; [done|]. split; [done|].
  set (F := found (viruses st) ps) in *.
  split; [|split].
  - intros c. unfold id_at. destruct (decide (c = a)) as [->|Hc].
    + rewrite Hna. simpl. by rewrite Hva.
    + destruct (heap st !! c) as [n|] eqn:Hn.
      * destruct (Hsome c n Hn) as (n' & -> & Hv & _). simpl. by rewrite Hv.
      * by rewrite (Hnone c Hc Hn).
  - intros c b. destruct (decide (c = a)) as [->|Hc].
    + rewrite (children_at_lookup _ _ _ Hna), Hca.
      unfold children_at. rewrite Ha. rewrite elem_of_nil.
      split; [tauto|]. intros [?|[_ [? ?]%(wf_found_live _ _ _ Hwf)]]; [done|].
      congruence.
    + destruct (heap st !! c) as [n|] eqn:Hn.
      * destruct (Hsome c n Hn) as (n' & Hn' & _ & _ & Hcn).
        rewrite (children_at_lookup _ _ _ Hn'), (children_at_lookup _ _ _ Hn), Hcn.
        case_decide; [rewrite elem_of_set_insert|]; tauto.
      * unfold children_at. rewrite Hn, (Hnone c Hc Hn), elem_of_nil.
        split; [tauto|]. intros [?|[_ [? ?]%(wf_found_live _ _ _ Hwf)]]; [done|].
        congruence.
  - intros c b. destruct (decide (c = a)) as [->|Hc].
    + rewrite (parents_at_lookup _ _ _ Hna), Hpa.
      unfold parents_at. rewrite Ha. rewrite elem_of_nil. tauto.
    + destruct (heap st !! c) as [n|] eqn:Hn.
      * destruct (Hsome c n Hn) as (n' & Hn' & _ & Hpn & _).
        rewrite (parents_at_lookup _ _ _ Hn'), (parents_at_lookup _ _ _ Hn), Hpn.
        tauto.
      * unfold parents_at. rewrite Hn, (Hnone c Hc Hn), elem_of_nil. tauto.
Qed.

(** A [remove] that returns, seen as a change of the graph: the nodes of
    [P] go, with the edges from and to them. *)
Lemma remove_graph st (id : virus_id_t) (r : addr) :
  inv st → get_stem_id st ≠ Some id → viruses st !! id = Some r →
  ∃ (P : list addr) st',
    remove id st = Some (Return st')
    ∧ r ∈ P
    ∧ (stemNode st ∉ P)
    ∧ (∀ c, c ∈ P → is_Some (heap st !! c))
    ∧ (∀ c, is_Some (heap st !! c) → c ≠ r →
         c ∈ P ↔ parents_at (heap st) c ≠ []
                 ∧ ∀ p, p ∈ parents_at (heap st) c → p ∈ P)
    ∧ stemNode st' = stemNode st
    ∧ (∀ i a, viruses st' !! i = Some a ↔ viruses st !! i = Some a ∧ a ∉ P)
    ∧ (∀ c, id_at (heap st') c
            = if decide (c ∈ P) then None else id_at (heap st) c)
    ∧ (∀ c b, b ∈ children_at (heap st') c ↔
              (c ∉ P) ∧ b ∈ children_at (heap st) c ∧ (b ∉ P))
    ∧ (∀ c b, b ∈ parents_at (heap st') c ↔
              (c ∉ P) ∧ b ∈ parents_at (heap st) c ∧ (b ∉ P)).
Proof.
  intros Hinv Hid Hr.
  destruct (remove_spec st id r Hinv Hid Hr)
    as (P & st' & Heq & HrP & HsP & Hlive & Hseen & Hrpar & Hstem & Hvir
        & Hgone & Hstay).
  exists P, st'. do 7 (split; [done|]).
  assert (Hlook : ∀ c, heap st' !! c
            = if decide (c ∈ P) then None
              else (λ n, {| virus := virus n;
                            parents := filter (λ e, e ∉ P) (parents n);
                            children := filter (λ e, e ∉ P) (children n) |})
                   <$> heap st !! c).
  { intros c. destruct (decide (c ∈ P)) as [Hc|Hc]; [apply Hgone; tauto|].
    destruct (heap st !! c) as [n|] eqn:Hn; simpl.
    - destruct (Hstay c n Hc Hn) as (n' & -> & Hv & Hp & Hch). f_equal.
      by apply Node_eq.
    - apply Hgone. tauto. }
  split; [|split].
  - intros c. unfold id_at. rewrite Hlook. destruct (decide (c ∈ P)); [done|].
    by destruct (heap st !! c).
  - intros c b. unfold children_at. rewrite Hlook.
    destruct (decide (c ∈ P)) as [HcP|HcP]; [rewrite elem_of_nil; tauto|].
    destruct (heap st !! c) as [n|]; simpl.
    + rewrite list_elem_of_filter. tauto.
    + rewrite elem_of_nil. tauto.
  - intros c b. unfold parents_at. rewrite Hlook.
    destruct (decide (c ∈ P)) as [HcP|HcP]; [rewrite elem_of_nil; tauto|].
    destruct (heap st !! c) as [n|]; simpl.
    + rewrite list_elem_of_filter. tauto.
    + rewrite elem_of_nil. tauto.
Qed.

(** [get_parents] and the children iterators, from the graph. *)
Lemma get_parents_at st (id : virus_id_t) (a : addr) (ids : list virus_id_t) :
  viruses st !! id = Some a →
  mapM (id_at (heap st)) (parents_at (heap st) a) = Some ids →
  get_parents id st = Some (Ok ids).
Proof. unfold get_parents. by intros -> ->. Qed.

Lemma get_children_at st (id : virus_id_t) (a : addr) (ids : list virus_id_t) :
  viruses st !! id = Some a →
  mapM (id_at (heap st)) (children_at (heap st) a) = Some ids →
  get_children id st = Some (Ok (mkVirus <$> ids)).
Proof.
  unfold get_children. intros -> Hids.
  assert (mapM (λ c, virus <$> heap st !! c) (children_at (heap st) a)
          = Some (mkVirus <$> ids)) as ->; [|done].
  apply mapM_Some. apply mapM_Some in Hids.
  apply Forall2_fmap_r. eapply Forall2_impl; [exact Hids|].
  intros c i. unfold id_at. destruct (heap st !! c) as [n|]; simpl; [|done].
  intros [= <-]. by destruct (virus n).
Qed.

End graph.

(** ** The scenario with two parents *)

Section scenario.
Context {virus_id_t : Type} `{Countable virus_id_t}.
Implicit Types (st : VirusGenealogy virus_id_t).

Lemma id_at_None (h : gmap addr (Node virus_id_t)) (c : addr) :
  id_at h c = None ↔ h !! c = None.
Proof. unfold id_at. destruct (h !! c); naive_solver. Qed.

Lemma id_at_live (h : gmap addr (Node virus_id_t)) (c : addr) (id : virus_id_t) :
  id_at h c = Some id → is_Some (h !! c).
Proof. intros (n & ? & _)%id_at_Some. eauto. Qed.

(** C6: the stem [S], then [create(A, {S})], [create(B, {S})] and
    [create(C, {A, B})], for any four identifiers and wherever the
    allocator puts the four nodes.  [remove(A)] returns; after it [A] is not
    in the store, [C] is, [B] is the one child left of [S] and the one
    parent of [C].  [remove(B)] after that returns and takes [C] out with
    [B]; [S] has no child left. *)
Theorem remove_one_parent_then_the_other (S A B C : virus_id_t) (s a b c : addr) :
  S ≠ A → S ≠ B → S ≠ C → A ≠ B → A ≠ C → B ≠ C →
  a ≠ s → b ≠ s → b ≠ a → c ≠ s → c ≠ a → c ≠ b →
  ∃ st1 st2 st3 st4 st5,
    create A [S] a (construct S s) = Return st1
    ∧ create B [S] b st1 = Return st2
    ∧ create C [A; B] c st2 = Return st3
    ∧ remove A st3 = Some (Return st4)
    ∧ exists_ A st4 = false
    ∧ exists_ C st4 = true
    ∧ get_children S st4 = Some (Ok [mkVirus B])
    ∧ get_parents C st4 = Some (Ok [B])
    ∧ remove B st4 = Some (Return st5)
    ∧ exists_ B st5 = false
    ∧ exists_ C st5 = false
    ∧ exists_ S st5 = true
    ∧ get_children S st5 = Some (Ok []).
Proof.
  intros HSA HSB HSC HAB HAC HBC Has Hbs Hba Hcs Hca Hcb.
  set (st0 := construct S s).
  pose proof (inv_construct S s) as Hinv0. fold st0 in Hinv0.
  (* create(A, {S}) *)
  destruct (create_graph st0 A [S] a) as (st1 & Hc1 & Hv1 & Hs1 & Hi1 & Hch1 & Hp1).
  { apply (inv_wf _ Hinv0). }
  { simpl. by rewrite lookup_singleton_ne. }
  { apply exists_false. simpl. by rewrite lookup_singleton_ne. }
  { done. }
  { repeat constructor. simpl. rewrite lookup_singleton_eq. eauto. }
  pose proof (inv_create st0 A [S] a Hinv0) as Hinv1. rewrite Hc1 in Hinv1.
  simpl in Hinv1, Hv1, Hs1, Hi1, Hch1, Hp1.
  rewrite lookup_singleton_eq in Hch1, Hp1.
  specialize (Hinv1 ltac:(by rewrite lookup_singleton_ne)
                    ltac:(by intros ?%list_elem_of_singleton)).
  assert (Hi0 : ∀ x, id_at (heap st0) x = if decide (x = s) then Some S else None).
  { intros x. unfold id_at. simpl. destruct (decide (x = s)) as [->|Hx].
    - by rewrite lookup_singleton_eq.
    - by rewrite lookup_singleton_ne. }
  assert (Hch0 : ∀ x y, y ∉ children_at (heap st0) x).
  { intros x y. unfold children_at. simpl.
    destruct (decide (x = s)) as [->|Hx].
    - rewrite lookup_singleton_eq. apply not_elem_of_nil.
    - rewrite lookup_singleton_ne by done. apply not_elem_of_nil. }
  assert (Hp0 : ∀ x y, y ∉ parents_at (heap st0) x).
  { intros x y. unfold parents_at. simpl.
    destruct (decide (x = s)) as [->|Hx].
    - rewrite lookup_singleton_eq. apply not_elem_of_nil.
    - rewrite lookup_singleton_ne by done. apply not_elem_of_nil. }
  (* create(B, {S}) *)
  destruct (create_graph st1 B [S] b) as (st2 & Hc2 & Hv2 & Hs2 & Hi2 & Hch2 & Hp2).
  { apply (inv_wf _ Hinv1). }
  { apply id_at_None. rewrite Hi1, Hi0. by rewrite !decide_False. }
  { apply exists_false. rewrite Hv1.
    by rewrite lookup_insert_ne, lookup_singleton_ne. }
  { done. }
  { repeat constructor. rewrite Hv1.
    rewrite lookup_insert_ne, lookup_singleton_eq by done. eauto. }
  pose proof (inv_create st1 B [S] b Hinv1) as Hinv2. rewrite Hc2 in Hinv2.
  simpl in Hinv2.
  specialize (Hinv2 ltac:(apply id_at_None; rewrite Hi1, Hi0;
                            by rewrite !decide_False)
                    ltac:(by intros ?%list_elem_of_singleton)).
  assert (Hf1 : found (viruses st1) [S] = [s]).
  { simpl. rewrite Hv1. by rewrite lookup_insert_ne, lookup_singleton_eq. }
  rewrite Hf1 in Hch2, Hp2.
  (* create(C, {A, B}) *)
  assert (HvA : viruses st2 !! A = Some a).
  { rewrite Hv2, Hv1. by rewrite lookup_insert_ne, lookup_insert_eq. }
  assert (HvB : viruses st2 !! B = Some b).
  { rewrite Hv2. by rewrite lookup_insert_eq. }
  assert (Hfresh3 : heap st2 !! c = None).
  { apply id_at_None. rewrite Hi2, Hi1, Hi0. by rewrite !decide_False. }
  destruct (create_graph st2 C [A; B] c) as (st3 & Hc3 & Hv3 & Hs3 & Hi3 & Hch3 & Hp3).
  { apply (inv_wf _ Hinv2). }
  { done. }
  { apply exists_false. rewrite Hv2, Hv1.
    by rewrite !lookup_insert_ne, lookup_singleton_ne. }
  { done. }
  { repeat constructor; eauto. }
  pose proof (inv_create st2 C [A; B] c Hinv2 Hfresh3) as Hinv3.
  rewrite Hc3 in Hinv3. simpl in Hinv3.
  specialize (Hinv3 ltac:(by intros [?|[?|[]%elem_of_nil]%elem_of_cons]%elem_of_cons)).
  assert (Hf2 : found (viruses st2) [A; B] = [a; b]).
  { simpl. by rewrite HvA, HvB. }
  rewrite Hf2 in Hch3, Hp3.
  (* the graph after the three calls *)
  assert (Hch : ∀ x y, y ∈ children_at (heap st3) x ↔
            (x = s ∧ (y = a ∨ y = b)) ∨ ((x = a ∨ x = b) ∧ y = c)).
  { intros x y. rewrite Hch3, Hch2, Hch1. pose proof (Hch0 x y).
    rewrite !elem_of_cons, !elem_of_nil. naive_solver. }
  assert (Hp : ∀ x y, y ∈ parents_at (heap st3) x ↔
            ((x = a ∨ x = b) ∧ y = s) ∨ (x = c ∧ (y = a ∨ y = b))).
  { intros x y. rewrite Hp3, Hp2, Hp1. pose proof (Hp0 x y).
    rewrite !elem_of_cons, !elem_of_nil. naive_solver. }
  assert (Hi : ∀ x, id_at (heap st3) x
            = if decide (x = c) then Some C else if decide (x = b) then Some B
              else if decide (x = a) then Some A
              else if decide (x = s) then Some S else None).
  { intros x. by rewrite Hi3, Hi2, Hi1, Hi0. }
  assert (Hv : ∀ i x, viruses st3 !! i = Some x ↔
            (i = C ∧ x = c) ∨ (i = B ∧ x = b) ∨ (i = A ∧ x = a) ∨ (i = S ∧ x = s)).
  { intros i x. rewrite Hv3, Hv2, Hv1. rewrite !lookup_insert_Some.
    rewrite lookup_singleton_Some. naive_solver. }
  assert (Hstem3 : stemNode st3 = s) by (by rewrite Hs3, Hs2, Hs1).
  (* remove(A) *)
  destruct (remove_graph st3 A a Hinv3)
    as (P & st4 & Hr4 & HaP & HsP & HliveP & HseenP & Hs4 & Hv4 & Hi4 & Hch4 & Hp4).
  { unfold get_stem_id. rewrite Hstem3, Hi. rewrite !decide_False by done.
    rewrite decide_True by done. congruence. }
  { apply Hv. tauto. }
  rewrite Hstem3 in HsP.
  assert (HbP : b ∉ P).
  { intros HbP. apply HseenP in HbP as [_ Hall]; [| |done].
    - apply HsP, Hall, Hp. tauto.
    - eapply id_at_live. rewrite Hi. rewrite decide_False, decide_True by done. done. }
  assert (HcP : c ∉ P).
  { intros HcP. apply HseenP in HcP as [_ Hall]; [| |done].
    - apply HbP, Hall, Hp. tauto.
    - eapply id_at_live. rewrite Hi. by rewrite decide_True. }
  pose proof (inv_remove st3 A _ Hinv3 Hr4) as Hinv4. simpl in Hinv4.
  assert (Hv4C : viruses st4 !! C = Some c).
  { apply Hv4. split; [apply Hv; tauto|done]. }
  assert (Hv4B : viruses st4 !! B = Some b).
  { apply Hv4. split; [apply Hv; tauto|done]. }
  assert (Hv4S : viruses st4 !! S = Some s).
  { apply Hv4. split; [apply Hv; tauto|done]. }
  assert (Hp4c : parents_at (heap st4) c = [b]).
  { apply sorted_elements_singleton; [apply parents_at_sorted, (inv_wf _ Hinv4)|].
    intros y. rewrite Hp4, Hp. split; [naive_solver|]. intros ->.
    split; [done|]. split; [tauto|done]. }
  assert (Hch4s : children_at (heap st4) s = [b]).
  { apply sorted_elements_singleton; [apply children_at_sorted, (inv_wf _ Hinv4)|].
    intros y. rewrite Hch4, Hch. split; [naive_solver|]. intros ->.
    split; [done|]. split; [tauto|done]. }
  assert (Hi4b : id_at (heap st4) b = Some B).
  { rewrite Hi4, decide_False by done. rewrite Hi.
    by rewrite decide_False, decide_True. }
  assert (Hi4c : id_at (heap st4) c = Some C).
  { rewrite Hi4, decide_False by done. rewrite Hi. by rewrite decide_True. }
  assert (Hi4s : id_at (heap st4) s = Some S).
  { rewrite Hi4, decide_False by done. rewrite Hi.
    rewrite !decide_False by done. by rewrite decide_True. }
  (* remove(B) *)
  destruct (remove_graph st4 B b Hinv4)
    as (P' & st5 & Hr5 & HbP' & HsP' & _ & HseenP' & Hs5 & Hv5 & Hi5 & Hch5 & Hp5).
  { unfold get_stem_id. rewrite Hs4, Hstem3, Hi4s. congruence. }
  { done. }
  rewrite Hs4, Hstem3 in HsP'.
  assert (HcP' : c ∈ P').
  { apply HseenP'; [by eapply id_at_live|done|]. rewrite Hp4c.
    split; [done|]. by intros p ->%list_elem_of_singleton. }
  exists st1, st2, st3, st4, st5.
  do 4 (split; [done|]).
  split.
  { apply exists_false. destruct (viruses st4 !! A) as [x|] eqn:Hx; [|done].
    apply Hv4 in Hx as [Hx HxP]. apply Hv in Hx. naive_solver. }
  split; [apply exists_true; eauto|].
  split.
  { apply (get_children_at st4 S s [B]); [done|]. rewrite Hch4s. simpl.
    by rewrite Hi4b. }
  split.
  { apply (get_parents_at st4 C c [B]); [done|]. rewrite Hp4c. simpl.
    by rewrite Hi4b. }
  split; [done|].
  split.
  { apply exists_false. destruct (viruses st5 !! B) as [x|] eqn:Hx; [|done].
    apply Hv5 in Hx as [Hx HxP]. congruence. }
  split.
  { apply exists_false. destruct (viruses st5 !! C) as [x|] eqn:Hx; [|done].
    apply Hv5 in Hx as [Hx HxP]. congruence. }
  split.
  { apply exists_true. exists s. by apply Hv5. }
  apply (get_children_at st5 S s []); [by apply Hv5|].
  rewrite (sorted_elements_nil (children_at (heap st5) s)); [done|].
  intros y. rewrite Hch5, Hch4s. intros (_ & ->%list_elem_of_singleton & ?). done.
Qed.

End scenario.

(** ** The roll-back of [connect] *)

Section rollback_facts.
Context {virus_id_t : Type} `{Countable virus_id_t}.
Implicit Types (h : gmap addr (Node virus_id_t)) (n : Node virus_id_t).
Implicit Types (v : gmap virus_id_t addr) (st : VirusGenealogy virus_id_t).

(** When the private [connect] throws, every node but the child is as it
    was, and the children set of the child too.  The parents set of the
    child keeps the parents that were processed before the identifier that
    is missing. *)
Lemma connect_many_throw st (child_id : virus_id_t) (ids : list virus_id_t)
    (x : addr) :
  wf st →
  viruses st !! child_id = Some x →
  ¬ Forall (λ id, is_Some (viruses st !! id)) ids →
  ∃ h',
    connect_many child_id ids st = Throw VirusNotFound (set_heap h' st)
    ∧ (∀ c, c ≠ x → h' !! c = heap st !! c)
    ∧ (∀ c, children_at h' c = children_at (heap st) c)
    ∧ (∀ e, e ∈ parents_at h' x ↔
            e ∈ parents_at (heap st) x
            ∨ (e ∈ found (viruses st) ids ∧ x ∉ children_at (heap st) e)).
Proof.
  intros Hwf Hx Hall. unfold connect_many. rewrite Hx.
  destruct (connect_loop_spec x (viruses st) ids [] (heap st))
    as (ipn & h1 & -> & Hip & Hnone & Hsome).
  rewrite bool_decide_eq_false_2 by done. simpl.
  exists (rollback ipn h1). split; [done|].
  assert (Hlook : ∀ c n, heap st !! c = Some n →
            ∃ n', rollback ipn h1 !! c = Some n' ∧ virus n' = virus n
              ∧ children n' = children n
              ∧ (c ≠ x → parents n' = parents n)
              ∧ ∀ e, e ∈ parents n' ↔
                     e ∈ parents n
                     ∨ (c = x ∧ e ∈ found (viruses st) ids
                        ∧ x ∉ children_at (heap st) e)).
  { intros c n Hn. destruct (Hsome c n Hn) as (n1 & Hn1 & Hv & Hch & Hpar & Hpin & _).
    rewrite lookup_rollback, Hn1. simpl. eexists. split; [done|]. simpl.
    split; [done|]. split; [|done]. rewrite Hch.
    pose proof (children_at_lookup _ _ _ Hn) as Hcc.
    case_decide as Hf.
    - rewrite <-(set_erase_insert x (children n)) at 2 by tauto.
      apply list_filter_iff. intros e. rewrite Hip, Hcc. naive_solver.
    - apply filter_all. intros e _. rewrite Hip, Hcc. naive_solver. }
  split; [|split].
  - intros c Hc. destruct (heap st !! c) as [n|] eqn:Hn.
    + destruct (Hlook c n Hn) as (n' & -> & Hv & Hch & Hpar & _).
      f_equal. apply Node_eq; auto.
    + by rewrite lookup_rollback, (Hnone c Hn).
  - intros c. unfold children_at. destruct (heap st !! c) as [n|] eqn:Hn.
    + by destruct (Hlook c n Hn) as (n' & -> & _ & -> & _).
    + by rewrite lookup_rollback, (Hnone c Hn).
  - intros e. destruct (wf_live _ _ _ Hwf Hx) as [n Hn].
    destruct (Hlook x n Hn) as (n' & Hn' & _ & _ & _ & Hpin).
    rewrite (parents_at_lookup _ _ _ Hn'), (parents_at_lookup _ _ _ Hn), Hpin.
    naive_solver.
Qed.

(** The public [connect] leaves the store alone when it throws. *)
Lemma connect_throw st (child_id parent_id : virus_id_t) e st' :
  connect child_id parent_id st = Throw e st' → st' = st.
Proof.
  unfold connect, connect_many.
  destruct (viruses st !! child_id) as [x|]; [|by intros [= _ <-]].
  simpl. destruct (viruses st !! parent_id) as [p|].
  - by destruct (set_contains x (children_at (heap st) p)).
  - intros [= _ <-]. simpl. apply set_heap_id.
Qed.

End rollback_facts.

(** ** The stem *)

Section stem.
Context {virus_id_t : Type} `{Countable virus_id_t}.
Implicit Types (st : VirusGenealogy virus_id_t).

(** C3, as the code has it: after every call of a caller who closes no
    cycle (no [create] with the new identifier among its parents, no
    [connect] whose parent is the child or one of its descendants), the stem
    is in the store and is the one virus without parents. *)
Theorem disciplined_stem_only_parentless st :
  disciplined st → stem_only_parentless st.
Proof. intros Hd. by apply inv_stem_only_parentless, disciplined_inv. Qed.

(** C4, as the code has it: in every store a caller can get,
    [remove(get_stem_id())] throws [TriedToRemoveStemVirus], before anything
    else is looked at, and leaves the store as it is; and
    [exists(get_stem_id())] is true in the stores of a caller who closes no
    cycle. *)
Theorem stem_cannot_be_removed st :
  reachable st →
  ∃ stem_id,
    get_stem_id st = Some stem_id
    ∧ remove stem_id st = Some (Throw TriedToRemoveStemVirus st)
    ∧ (disciplined st → exists_ stem_id st = true).
Proof.
  intros Hwf%reachable_wf. destruct (wf_stem _ Hwf) as [n Hn].
  exists (get_id (virus n)).
  assert (get_stem_id st = Some (get_id (virus n))) as Hget.
  { unfold get_stem_id, id_at. by rewrite Hn. }
  split; [done|]. split.
  - unfold remove. rewrite Hget. simpl. by rewrite decide_True.
  - intros Hinv%disciplined_inv.
    destruct (inv_stem_id st Hinv) as (stem_id & Hget' & Hreg).
    apply exists_true. assert (stem_id = get_id (virus n)) as <- by congruence.
    eauto.
Qed.

End stem.

(** ** The claims on the example stores *)

Module ExampleFacts.
Import Examples.

Lemma create_existing_throws_witness :
  ["S"] ≠ [] ∧ exists_ "A" store_SA = true
  ∧ create "A" ["S"] 105%N store_SA = Throw VirusAlreadyCreated store_SA.
Proof.
  split; [done|]. split; [by vm_compute|].
  apply (create_existing_throws store_SA "A" ["S"] 105%N); [done|by vm_compute].
Defined.

Lemma create_no_parents_fresh_witness :
  exists_ "B" store_SA = false
  ∧ create "B" [] 105%N store_SA = Return store_SA
  ∧ exists_ "B" (state_of (create "B" [] 105%N store_SA)) = false.
Proof.
  split; [by vm_compute|].
  apply (create_no_parents_fresh store_SA "B" 105%N). by vm_compute.
Defined.

Lemma create_no_parents_existing_witness :
  exists_ "A" store_SA = true
  ∧ create "A" [] 105%N store_SA = Return store_SA.
Proof.
  split; [by vm_compute|].
  apply (create_no_parents_existing store_SA "A" 105%N). by vm_compute.
Defined.

(** C1: the private [connect] on the store [create("X", {"S", "Z"})] hands
    to it.  [Z] is not in the store, so the call throws [VirusNotFound]
    after [S] was processed.  The roll-back takes [X] out of the children
    of [S], but [S] stays in the parents of [X]: the store the exception
    leaves behind is not the store the call started from.  ([create] then
    erases [X], and with the node of [X] its parents set goes.) *)
Theorem connect_many_rollback_keeps_parent :
  ∃ st',
    connect_many "X" ["S"; "Z"] store_SX = Throw VirusNotFound st'
    ∧ children_at (heap st') 100%N = children_at (heap store_SX) 100%N
    ∧ parents_at (heap store_SX) 101%N = []
    ∧ parents_at (heap st') 101%N = [100%N]
    ∧ st' ≠ store_SX
    ∧ create "X" ["S"; "Z"] 101%N store_S = Throw VirusNotFound store_S.
Proof.
  eexists. split; [by vm_compute|].
  do 3 (split; [by vm_compute|]). split; [|by vm_compute].
  intros Heq. apply (f_equal (λ st, parents_at (heap st) 101%N)) in Heq.
  by vm_compute in Heq.
Qed.

(** The scenario [S], [create(A, {S})], [create(B, {S})],
    [create(C, {A, B})], evaluated with the nodes at ascending addresses.
    [remove(A)] takes [A] and the edge from [S] to [A] out and keeps [C],
    whose only parent is then [B]; [remove(B)] after that takes [C] out with
    [B], and what is left is the store with [S] alone. *)
Example scenario_remove_A_then_B :
  create "A" ["S"] 101%N store_S = Return store_SA
  ∧ create "B" ["S"] 102%N store_SA = Return store_SAB
  ∧ create "C" ["A"; "B"] 103%N store_SAB = Return store_SABC
  ∧ get_parents "C" store_SABC = Some (Ok ["A"; "B"])
  ∧ get_children "S" store_SABC = Some (Ok [mkVirus "A"; mkVirus "B"])
  ∧ ∃ st1 st2,
      remove "A" store_SABC = Some (Return st1)
      ∧ exists_ "A" st1 = false
      ∧ exists_ "C" st1 = true
      ∧ get_children "S" st1 = Some (Ok [mkVirus "B"])
      ∧ get_parents "C" st1 = Some (Ok ["B"])
      ∧ remove "B" st1 = Some (Return st2)
      ∧ exists_ "B" st2 = false
      ∧ exists_ "C" st2 = false
      ∧ get_children "S" st2 = Some (Ok [])
      ∧ st2 = store_S.
Proof.
  do 5 (split; [by vm_compute|]).
  eexists _, _. split; [by vm_compute|].
  do 8 (split; [by vm_compute|]). by vm_compute.
Qed.

Lemma reachable_store_SA : reachable store_SA.
Proof. apply reachable_create; [apply reachable_construct|by vm_compute]. Qed.

Lemma reachable_store_SAB : reachable store_SAB.
Proof. apply reachable_create; [apply reachable_store_SA|by vm_compute]. Qed.

Lemma disciplined_store_SA : disciplined store_SA.
Proof.
  apply disciplined_create; [apply disciplined_construct|by vm_compute|].
  by intros ?%list_elem_of_singleton.
Qed.

Lemma disciplined_store_SAB : disciplined store_SAB.
Proof.
  apply disciplined_create; [apply disciplined_store_SA|by vm_compute|].
  by intros ?%list_elem_of_singleton.
Qed.

(** C2, counterexample: the stem [0] with the children [2] and [1], created
    in this order at the addresses 101 and 102.  The iterators yield [2]
    before [1]. *)
Lemma children_not_in_id_order :
  create 2%N [0%N] 101%N store_0 = Return store_02
  ∧ create 1%N [0%N] 102%N store_02 = Return store_021
  ∧ reachable store_021
  ∧ exists_ 0%N store_021 = true
  ∧ get_children 0%N store_021 = Some (Ok [mkVirus 2%N; mkVirus 1%N])
  ∧ ¬ children_in_id_order store_021 0%N.
Proof.
  do 2 (split; [by vm_compute|]). split.
  { do 2 (apply reachable_create; [|by vm_compute]). apply reachable_construct. }
  do 2 (split; [by vm_compute|]).
  intros Hsorted. specialize (Hsorted [mkVirus 2%N; mkVirus 1%N]).
  assert (StronglySorted N.lt [2%N; 1%N]) as Hs by (apply Hsorted; by vm_compute).
  apply StronglySorted_cons in Hs as [Hs _].
  apply Forall_cons in Hs as [Hs _]. lia.
Qed.

Lemma get_children_in_address_order_witness :
  reachable store_SAB ∧ exists_ "S" store_SAB = true
  ∧ ∃ a cs vs,
      viruses store_SAB !! "S" = Some a
      ∧ children_at (heap store_SAB) a = cs
      ∧ StronglySorted N.lt cs
      ∧ get_children "S" store_SAB = Some (Ok vs)
      ∧ Forall2 (λ c vi, virus <$> heap store_SAB !! c = Some vi) cs vs.
Proof.
  split; [apply reachable_store_SAB|]. split; [by vm_compute|].
  apply (get_children_in_address_order store_SAB "S");
    [apply reachable_store_SAB|by vm_compute].
Defined.

(** C3, counterexample: [S], [create("A", {"S"})], [connect("S", "A")].
    All calls return, and the stem has the parent [A]: no virus of the store
    is without parents. *)
Lemma stem_gets_a_parent :
  create "A" ["S"] 101%N store_S = Return store_SA
  ∧ connect "S" "A" store_SA = Return store_SA_cycle
  ∧ reachable store_SA_cycle
  ∧ get_stem_id store_SA_cycle = Some "S"
  ∧ get_parents "S" store_SA_cycle = Some (Ok ["A"])
  ∧ get_parents "A" store_SA_cycle = Some (Ok ["S"])
  ∧ ¬ stem_only_parentless store_SA_cycle.
Proof.
  do 2 (split; [by vm_compute|]).
  split; [apply reachable_connect, reachable_store_SA|].
  do 3 (split; [by vm_compute|]).
  intros (stem_id & Hget & Hin & Hall).
  assert (stem_id = "S") as -> by (vm_compute in Hget; congruence).
  destruct (Hall "S" Hin) as (ps & Hps & Hnil).
  assert (ps = ["A"]) as -> by (vm_compute in Hps; congruence).
  by destruct Hnil as [_ Hnil]; specialize (Hnil eq_refl).
Qed.

Lemma disciplined_stem_only_parentless_witness :
  disciplined store_SAB ∧ stem_only_parentless store_SAB.
Proof.
  split; [apply disciplined_store_SAB|].
  apply (disciplined_stem_only_parentless store_SAB), disciplined_store_SAB.
Defined.

(** C4, counterexample: [S], [create("Q1", {"S"})], [create("Q2", {"Q1"})],
    [connect("Q1", "Q2")], [create("R", {"Q1"})], [connect("S", "R")] and
    then [remove("R")].  All calls return.  The traversal takes the stem
    with [R], since [R] is its only parent, and stops at [Q1], which keeps
    its parent [Q2]: [get_stem_id()] still is [S], and [S] is not in the
    store. *)
Lemma stem_is_removed :
  create "Q1" ["S"] 101%N store_S = Return store_Q1
  ∧ create "Q2" ["Q1"] 102%N store_Q1 = Return store_Q2
  ∧ connect "Q1" "Q2" store_Q2 = Return store_Q1_Q2
  ∧ create "R" ["Q1"] 103%N store_Q1_Q2 = Return store_R
  ∧ connect "S" "R" store_R = Return store_R_S
  ∧ ∃ st,
      remove "R" store_R_S = Some (Return st)
      ∧ reachable st
      ∧ get_stem_id st = Some "S"
      ∧ exists_ "S" st = false
      ∧ exists_ "Q1" st = true.
Proof.
  do 5 (split; [by vm_compute|]).
  eexists. split; [by vm_compute|]. split.
  - eapply (reachable_remove store_R_S "R" (Return _)); [|by vm_compute].
    apply reachable_connect.
    apply reachable_create; [|by vm_compute].
    apply reachable_connect.
    do 2 (apply reachable_create; [|by vm_compute]).
    apply reachable_construct.
  - by vm_compute.
Qed.

Lemma stem_cannot_be_removed_witness :
  reachable store_SAB
  ∧ ∃ stem_id,
      get_stem_id store_SAB = Some stem_id
      ∧ remove stem_id store_SAB = Some (Throw TriedToRemoveStemVirus store_SAB)
      ∧ (disciplined store_SAB → exists_ stem_id store_SAB = true).
Proof.
  split; [apply reachable_store_SAB|].
  apply (stem_cannot_be_removed store_SAB), reachable_store_SAB.
Defined.

Lemma create_parents_and_children_witness :
  wf store_SAB ∧ heap store_SAB !! 103%N = None
  ∧ exists_ "C" store_SAB = false ∧ ["A"; "B"] ≠ []
  ∧ (∀ p, p ∈ ["A"; "B"] → exists_ p store_SAB = true)
  ∧ ∃ st',
      create "C" ["A"; "B"] 103%N store_SAB = Return st'
      ∧ exists_ "C" st' = true
      ∧ (∃ ps, get_parents "C" st' = Some (Ok ps)
               ∧ NoDup ps ∧ ∀ p, p ∈ ps ↔ p ∈ ["A"; "B"])
      ∧ (∀ p, p ∈ ["A"; "B"] →
           ∃ cs, get_children p st' = Some (Ok cs) ∧ mkVirus "C" ∈ cs).
Proof.
  assert (Hpresent : ∀ p, p ∈ ["A"; "B"] → exists_ p store_SAB = true).
  { intros p [->|[->|[]%elem_of_nil]%elem_of_cons]%elem_of_cons; by vm_compute. }
  split; [apply reachable_wf, reachable_store_SAB|].
  do 3 (split; [by vm_compute|]). split; [exact Hpresent|].
  apply (create_parents_and_children store_SAB "C" ["A"; "B"] 103%N);
    [apply reachable_wf, reachable_store_SAB|by vm_compute..|exact Hpresent].
Defined.

Lemma create_then_remove_restores_witness :
  wf store_SAB ∧ get_stem_id store_SAB = Some "S"
  ∧ "X" ≠ "S" ∧ heap store_SAB !! 110%N = None
  ∧ exists_ "A" store_SAB = true ∧ exists_ "B" store_SAB = true
  ∧ exists_ "X" store_SAB = false
  ∧ ∃ st1,
      create "X" ["A"; "B"] 110%N store_SAB = Return st1
      ∧ exists_ "X" st1 = true
      ∧ remove "X" st1 = Some (Return store_SAB).
Proof.
  split; [apply reachable_wf, reachable_store_SAB|].
  split; [by vm_compute|]. split; [done|].
  do 4 (split; [by vm_compute|]).
  apply (create_then_remove_restores store_SAB "S" "A" "B" "X" 110%N);
    [apply reachable_wf, reachable_store_SAB|by vm_compute|done
    |by vm_compute..].
Defined.

(** C7, counterexample: the caller of the store without its stem, [S],
    [create("Q1", {"S"})], [create("Q2", {"Q1"})], [connect("Q1", "Q2")],
    [create("R", {"Q1"})], [connect("S", "R")], [remove("R")].  The store
    holds [Q1] and [Q2] and not [S].  [create("S", {"Q1", "Q2"})] returns,
    with a new node for [S]; [remove("S")] then throws
    [TriedToRemoveStemVirus], since [S] is what [get_stem_id()] answers,
    and leaves the store as the [create] made it: [S] is in the store with
    the parents [Q1] and [Q2], and [Q1] has the child [S] it had not. *)
Lemma round_trip_fails_for_stem_id :
  remove "R" store_R_S = Some (Return store_stem_gone)
  ∧ reachable store_stem_gone
  ∧ exists_ "Q1" store_stem_gone = true
  ∧ exists_ "Q2" store_stem_gone = true
  ∧ exists_ "S" store_stem_gone = false
  ∧ heap store_stem_gone !! 104%N = None
  ∧ create "S" ["Q1"; "Q2"] 104%N store_stem_gone = Return store_stem_again
  ∧ remove "S" store_stem_again
    = Some (Throw TriedToRemoveStemVirus store_stem_again)
  ∧ exists_ "S" store_stem_again = true
  ∧ get_parents "S" store_stem_again = Some (Ok ["Q1"; "Q2"])
  ∧ get_children "Q1" store_stem_gone = Some (Ok [mkVirus "Q2"])
  ∧ get_children "Q1" store_stem_again
    = Some (Ok [mkVirus "Q2"; mkVirus "S"])
  ∧ store_stem_again ≠ store_stem_gone.
Proof.
  assert (Hrem : remove "R" store_R_S = Some (Return store_stem_gone))
    by by vm_compute.
  split; [exact Hrem|]. split.
  { apply (reachable_remove store_R_S "R" (Return store_stem_gone)); [|exact Hrem].
    apply reachable_connect.
    apply reachable_create; [|by vm_compute].
    apply reachable_connect.
    do 2 (apply reachable_create; [|by vm_compute]).
    apply reachable_construct. }
  do 10 (split; [by vm_compute|]).
  intros Heq.
  assert (exists_ "S" store_stem_again = exists_ "S" store_stem_gone) as Hex
    by by rewrite Heq.
  by vm_compute in Hex.
Qed.

Lemma remove_one_parent_then_the_other_witness :
  "S" ≠ "A" ∧ "S" ≠ "B" ∧ "S" ≠ "C" ∧ "A" ≠ "B" ∧ "A" ≠ "C" ∧ "B" ≠ "C"
  ∧ 101%N ≠ 100%N ∧ 102%N ≠ 100%N ∧ 102%N ≠ 101%N
  ∧ 103%N ≠ 100%N ∧ 103%N ≠ 101%N ∧ 103%N ≠ 102%N
  ∧ ∃ st1 st2 st3 st4 st5,
      create "A" ["S"] 101%N (construct "S" 100%N) = Return st1
      ∧ create "B" ["S"] 102%N st1 = Return st2
      ∧ create "C" ["A"; "B"] 103%N st2 = Return st3
      ∧ remove "A" st3 = Some (Return st4)
      ∧ exists_ "A" st4 = false
      ∧ exists_ "C" st4 = true
      ∧ get_children "S" st4 = Some (Ok [mkVirus "B"])
      ∧ get_parents "C" st4 = Some (Ok ["B"])
      ∧ remove "B" st4 = Some (Return st5)
      ∧ exists_ "B" st5 = false
      ∧ exists_ "C" st5 = false
      ∧ exists_ "S" st5 = true
      ∧ get_children "S" st5 = Some (Ok []).
Proof.
  do 12 (split; [done|]).
  by apply (remove_one_parent_then_the_other "S" "A" "B" "C"
              100%N 101%N 102%N 103%N).
Defined.

End ExampleFacts.

(** * More of the interface *)

(** ** The queries *)

Lemma mapM_elem {A B} (f : A → option B) (l : list A) (k : list B) (y : B) :
  mapM f l = Some k → y ∈ k ↔ ∃ x, x ∈ l ∧ f x = Some y.
Proof.
  revert k. induction l as [|x l IH]; intros k; simpl.
  - intros [= <-]. rewrite elem_of_nil. split; [done|].
    intros (x & []%elem_of_nil & _).
  - destruct (f x) as [z|] eqn:Hz; simpl; [|done].
    destruct (mapM f l) as [k'|]; simpl; [|done]. intros [= <-].
    rewrite elem_of_cons, (IH k' eq_refl). split.
    + intros [->|(x' & ? & ?)]; [exists x; split; [left|done]|].
      exists x'. split; [by right|done].
    + intros (x' & [->|Hx']%elem_of_cons & Hy); [left; congruence|].
      right. by exists x'.
Qed.

Lemma mapM_agree {A B} (f g : A → option B) (l : list A) :
  (∀ x, x ∈ l → f x = g x) → mapM f l = mapM g l.
Proof.
  induction l as [|x l IH]; intros Hfg; [done|]. simpl.
  rewrite (Hfg x) by left. rewrite IH; [done|].
  intros y Hy. apply Hfg. by right.
Qed.

Section queries.
Context {virus_id_t : Type} `{Countable virus_id_t}.
Implicit Types (h : gmap addr (Node virus_id_t)) (n : Node virus_id_t).
Implicit Types (v : gmap virus_id_t addr) (st : VirusGenealogy virus_id_t).

(** What [get_parents] returns for a virus of a well-formed store: the
    identifiers of the nodes of its parents set, in the order of the set. *)
Lemma get_parents_elems st (id : virus_id_t) (a : addr) :
  wf st → viruses st !! id = Some a →
  ∃ ps, get_parents id st = Some (Ok ps)
        ∧ mapM (id_at (heap st)) (parents_at (heap st) a) = Some ps
        ∧ ∀ p, p ∈ ps ↔
               ∃ e, e ∈ parents_at (heap st) a ∧ id_at (heap st) e = Some p.
Proof.
  intros Hwf Ha. destruct (wf_live _ _ _ Hwf Ha) as [n Hn].
  assert (is_Some (mapM (id_at (heap st)) (parents_at (heap st) a))) as [ps Hps].
  { apply mapM_is_Some, Forall_forall. intros c Hc. simpl.
    rewrite (parents_at_lookup _ _ _ Hn) in Hc.
    destruct (wf_closed _ Hwf a n c Hn) as [nc Hnc]; [tauto|].
    unfold id_at. rewrite Hnc. simpl. eauto. }
  exists ps. unfold get_parents. rewrite Ha, Hps. split; [done|]. split; [done|].
  intros p. by apply mapM_elem.
Qed.

Lemma get_children_elems st (id : virus_id_t) (a : addr) :
  wf st → viruses st !! id = Some a →
  ∃ cs, get_children id st = Some (Ok cs)
        ∧ mapM (λ c, virus <$> heap st !! c) (children_at (heap st) a) = Some cs
        ∧ ∀ c, mkVirus c ∈ cs ↔
               ∃ e, e ∈ children_at (heap st) a ∧ id_at (heap st) e = Some c.
Proof.
  intros Hwf Ha. destruct (wf_live _ _ _ Hwf Ha) as [n Hn].
  assert (is_Some (mapM (λ c, virus <$> heap st !! c)
                     (children_at (heap st) a))) as [cs Hcs].
  { apply mapM_is_Some, Forall_forall. intros c Hc. simpl.
    rewrite (children_at_lookup _ _ _ Hn) in Hc.
    destruct (wf_closed _ Hwf a n c Hn) as [nc Hnc]; [tauto|].
    rewrite Hnc. simpl. eauto. }
  exists cs. unfold get_children. rewrite Ha, Hcs. split; [done|]. split; [done|].
  intros c. rewrite (mapM_elem _ _ _ _ Hcs). unfold id_at.
  split; intros (e & He & Hv); exists e; (split; [done|]);
    destruct (heap st !! e) as [ne|]; simpl in *; [|done| |done].
  - injection Hv as Hv. by rewrite Hv.
  - injection Hv as Hv. f_equal. destruct (virus ne). simpl in Hv. by subst.
Qed.

(** X1: in every store a caller can get, [operator[]] on an identifier of
    the store returns a virus whose [get_id()] is this identifier; on any
    other identifier it throws [VirusNotFound]. *)
Theorem lookup_virus_get_id st (id : virus_id_t) :
  reachable st →
  (exists_ id st = true →
     ∃ vi, lookup_virus id st = Some (Ok vi) ∧ get_id vi = id)
  ∧ (exists_ id st = false → lookup_virus id st = Some (Err VirusNotFound)).
Proof.
  intros Hwf%reachable_wf. unfold lookup_virus. split.
  - intros [a Ha]%exists_true. rewrite Ha.
    apply (wf_viruses _ Hwf), id_at_Some in Ha as (n & -> & Hid).
    exists (virus n). done.
  - intros ->%exists_false. done.
Qed.

(** X2: in the store of a caller who closes no cycle, [get_parents] of an
    identifier of the store returns identifiers of the store, none of them
    twice and none of them the identifier itself; the children iterators
    yield viruses of the store, none of them twice.  For an identifier that
    is not in the store both throw [VirusNotFound]. *)
Theorem parents_and_children_in_store st (id : virus_id_t) :
  disciplined st →
  (exists_ id st = true →
     ∃ ps cs,
       get_parents id st = Some (Ok ps)
       ∧ NoDup ps
       ∧ (∀ p, p ∈ ps → exists_ p st = true ∧ p ≠ id)
       ∧ get_children id st = Some (Ok cs)
       ∧ NoDup cs
       ∧ (∀ vi, vi ∈ cs → exists_ (get_id vi) st = true ∧ get_id vi ≠ id))
  ∧ (exists_ id st = false →
       get_parents id st = Some (Err VirusNotFound)
       ∧ get_children id st = Some (Err VirusNotFound)).
Proof.
  intros Hinv%disciplined_inv. pose proof (inv_wf _ Hinv) as Hwf. split.
  2:{ intros Hid%exists_false. unfold get_parents, get_children. by rewrite Hid. }
  intros [a Ha]%exists_true.
  destruct (wf_live _ _ _ Hwf Ha) as [n Hn].
  destruct (get_parents_elems st id a Hwf Ha) as (ps & Hps & Hmp & Hpin).
  destruct (get_children_elems st id a Hwf Ha) as (cs & Hcs & Hmc & Hcin).
  assert (Hreg : ∀ e i, id_at (heap st) e = Some i → viruses st !! i = Some e).
  { intros e i (ne & Hne & <-)%id_at_Some. by apply (inv_registered _ Hinv). }
  exists ps, cs. split; [done|]. split; [|split; [|split; [done|split]]].
  - (* no parent twice *)
    assert (ps = default id ∘ id_at (heap st) <$> parents_at (heap st) a) as ->.
    { apply (inj Some). rewrite <-Hmp. apply mapM_total.
      intros e He. simpl.
      rewrite (parents_at_lookup _ _ _ Hn) in He.
      destruct (wf_closed _ Hwf a n e Hn) as [ne Hne]; [tauto|].
      unfold id_at. by rewrite Hne. }
    apply NoDup_fmap_2_strong; [|apply sorted_NoDup, parents_at_sorted, Hwf].
    intros e1 e2 He1 He2. simpl.
    rewrite (parents_at_lookup _ _ _ Hn) in He1, He2.
    destruct (wf_closed _ Hwf a n e1 Hn) as [n1 Hn1]; [tauto|].
    destruct (wf_closed _ Hwf a n e2 Hn) as [n2 Hn2]; [tauto|].
    unfold id_at. rewrite Hn1, Hn2. simpl. intros Heq.
    apply (inv_registered _ Hinv) in Hn1, Hn2. congruence.
  - intros p (e & He & Hid)%Hpin. pose proof (Hreg e p Hid) as Hp.
    split; [apply exists_true; eauto|]. intros ->.
    assert (e = a) as -> by congruence.
    apply (inv_acyclic _ Hinv a), tc_once. by apply (inv_symmetric _ Hinv).
  - (* no child twice *)
    assert (cs = default (mkVirus id) ∘ (λ c, virus <$> heap st !! c)
                 <$> children_at (heap st) a) as ->.
    { apply (inj Some). rewrite <-Hmc. apply mapM_total.
      intros e He. simpl.
      rewrite (children_at_lookup _ _ _ Hn) in He.
      destruct (wf_closed _ Hwf a n e Hn) as [ne Hne]; [tauto|].
      by rewrite Hne. }
    apply NoDup_fmap_2_strong; [|apply sorted_NoDup, children_at_sorted, Hwf].
    intros e1 e2 He1 He2. simpl.
    rewrite (children_at_lookup _ _ _ Hn) in He1, He2.
    destruct (wf_closed _ Hwf a n e1 Hn) as [n1 Hn1]; [tauto|].
    destruct (wf_closed _ Hwf a n e2 Hn) as [n2 Hn2]; [tauto|].
    rewrite Hn1, Hn2. simpl. intros Heq.
    apply (inv_registered _ Hinv) in Hn1, Hn2. congruence.
  - intros [c] Hc. simpl. apply Hcin in Hc as (e & He & Hid).
    pose proof (Hreg e c Hid) as Hp.
    split; [apply exists_true; eauto|]. intros ->.
    assert (e = a) as -> by congruence.
    by apply (inv_acyclic _ Hinv a), tc_once.
Qed.

(** X3: in the store of a caller who closes no cycle the two sets agree:
    [p] is among the parents [get_parents(c)] returns exactly when the virus
    [c] is among what the children iterators of [p] yield. *)
Theorem parent_iff_child st (p c : virus_id_t) :
  disciplined st →
  exists_ p st = true →
  exists_ c st = true →
  ∃ ps cs,
    get_parents c st = Some (Ok ps)
    ∧ get_children p st = Some (Ok cs)
    ∧ (p ∈ ps ↔ mkVirus c ∈ cs).
Proof.
  intros Hinv%disciplined_inv [ap Hp]%exists_true [ac Hc]%exists_true.
  pose proof (inv_wf _ Hinv) as Hwf.
  destruct (get_parents_elems st c ac Hwf Hc) as (ps & Hps & _ & Hpin).
  destruct (get_children_elems st p ap Hwf Hp) as (cs & Hcs & _ & Hcin).
  exists ps, cs. split; [done|]. split; [done|].
  assert (Hreg : ∀ e i, id_at (heap st) e = Some i → viruses st !! i = Some e).
  { intros e i (ne & Hne & <-)%id_at_Some. by apply (inv_registered _ Hinv). }
  rewrite Hpin, Hcin. split.
  - intros (e & He & Hid). assert (e = ap) as -> by (apply Hreg in Hid; congruence).
    exists ac. split; [by apply (inv_symmetric _ Hinv)|].
    by apply (wf_viruses _ Hwf).
  - intros (e & He & Hid). assert (e = ac) as -> by (apply Hreg in Hid; congruence).
    exists ap. split; [by apply (inv_symmetric _ Hinv)|].
    by apply (wf_viruses _ Hwf).
Qed.

End queries.

(** ** [create] with parents that are missing or are the new virus *)

Section create_more.
Context {virus_id_t : Type} `{Countable virus_id_t}.
Implicit Types (h : gmap addr (Node virus_id_t)) (n : Node virus_id_t).
Implicit Types (v : gmap virus_id_t addr) (st : VirusGenealogy virus_id_t).

(** A node that is in its own parents set is never destroyed. *)
Lemma sweep_self_parent (fuel : nat) h (a : addr) n :
  h !! a = Some n → a ∈ parents n → sweep fuel h !! a = Some n.
Proof.
  revert h. induction fuel as [|fuel IH]; intros h Ha Hself; [done|]. simpl.
  case_decide as Hsize; [done|]. apply IH; [|done].
  unfold pointed_at. apply map_lookup_filter_Some. split; [done|].
  exists a, n. split; [done|]. by left.
Qed.

(** X4: [create] with a parent that is not in the store throws
    [VirusNotFound] and leaves the store exactly as it was, when the new
    identifier is not among the parents it is given. *)
Theorem create_missing_parent_restores st (id p : virus_id_t)
    (parent_ids : list virus_id_t) (a : addr) :
  reachable st →
  heap st !! a = None →
  exists_ id st = false →
  id ∉ parent_ids →
  p ∈ parent_ids →
  exists_ p st = false →
  create id parent_ids a st = Throw VirusNotFound st.
Proof.
  intros Hwf%reachable_wf Ha Hid Hnin Hp Hpn. apply create_throw; try done.
  intros Hall. eapply Forall_forall in Hall as [x Hx]; [|exact Hp].
  apply exists_false in Hpn. congruence.
Qed.

(** The store after [create(id, {id, z})] where neither is in the store:
    the loop connects the new node to itself and the roll-back erases only
    the child it put into a children set. *)
Lemma create_self_then_missing st (id z : virus_id_t) (a : addr) :
  exists_ id st = false → exists_ z st = false → id ≠ z →
  create id [id; z] a st
  = Throw VirusNotFound
      (set_heap (<[a := {| virus := mkVirus id; parents := [a];
                           children := [] |}]> (heap st)) st).
Proof.
  intros Hid Hz Hne. unfold create. rewrite Hid.
  apply exists_false in Hid, Hz.
  unfold connect_many. simpl viruses. simpl heap. rewrite lookup_insert_eq.
  simpl connect_loop. rewrite lookup_insert_eq.
  unfold children_at at 1. rewrite lookup_insert_eq. simpl.
  rewrite lookup_insert_ne, Hz by done. simpl.
  rewrite !alter_insert_eq. simpl.
  assert (with_children (set_erase a)
            (with_parents (set_insert a)
               (with_children (set_insert a) (new_Node id)))
          = {| virus := mkVirus id; parents := [a]; children := [] |}) as ->.
  { unfold with_children, with_parents, new_Node, set_erase. simpl. f_equal.
    rewrite filter_cons_False by (intros Hf; by apply Hf). done. }
  unfold set_viruses, set_heap. simpl. rewrite delete_insert_id by done.
  f_equal. unfold release. rewrite decide_True; [done|].
  right. right. simpl. eexists a, _. rewrite lookup_insert_eq.
  split; [done|]. left. simpl. by left.
Qed.

(** X5: [create(id, {id, z})] with neither identifier in the store throws
    [VirusNotFound] and the map of identifiers is as before, but the node
    made for [id] stays in memory with itself as its only parent: the
    roll-back does not undo the insertion into the parents set.  The
    destructor of the store does not destroy this node. *)
Theorem create_self_parent_leaks st (id z : virus_id_t) (a : addr) :
  reachable st →
  heap st !! a = None →
  exists_ id st = false →
  exists_ z st = false →
  id ≠ z →
  ∃ st', create id [id; z] a st = Throw VirusNotFound st'
         ∧ viruses st' = viruses st
         ∧ heap st' !! a
           = Some {| virus := mkVirus id; parents := [a]; children := [] |}
         ∧ destructor st' !! a
           = Some {| virus := mkVirus id; parents := [a]; children := [] |}.
Proof.
  intros Hwf%reachable_wf Ha Hid Hz Hne. eexists. split.
  { by apply create_self_then_missing. }
  split; [done|]. split; [simpl; by rewrite lookup_insert_eq|].
  unfold destructor. apply sweep_self_parent; [|by left].
  rewrite lookup_clear. simpl. rewrite lookup_insert_eq. simpl.
  rewrite decide_False; [done|].
  intros ((i & b) & -> & Hb%elem_of_map_to_list)%list_elem_of_fmap. simpl in *.
  destruct (wf_live _ _ _ Hwf Hb) as [n Hn]. congruence.
Qed.

(** X6: [create(id, {id})] with [id] not in the store does not throw: the
    identifier is found in the map because it was put there before the
    parents are looked up.  The new virus is then its own only parent and
    its own only child. *)
Theorem create_own_parent st (id : virus_id_t) (a : addr) :
  exists_ id st = false →
  ∃ st', create id [id] a st = Return st'
         ∧ exists_ id st' = true
         ∧ get_parents id st' = Some (Ok [id])
         ∧ get_children id st' = Some (Ok [mkVirus id]).
Proof.
  intros Hid. unfold create. rewrite Hid. apply exists_false in Hid.
  unfold connect_many. simpl viruses. simpl heap. rewrite lookup_insert_eq.
  simpl connect_loop. rewrite lookup_insert_eq.
  unfold children_at at 1. rewrite lookup_insert_eq. simpl.
  rewrite !alter_insert_eq. simpl.
  eexists. split; [done|].
  split; [apply exists_true; simpl; rewrite lookup_insert_eq; eauto|].
  unfold get_parents, get_children, parents_at, children_at, id_at. simpl.
  rewrite !lookup_insert_eq. simpl. by rewrite !lookup_insert_eq.
Qed.

(** X7: a [create] that returns changes the parents of no virus of the
    store, and the children only of the parents it was given: these get
    the new virus as one more child. *)
Theorem create_frame st (id i : virus_id_t) (parent_ids : list virus_id_t)
    (a : addr) :
  reachable st →
  heap st !! a = None →
  exists_ id st = false →
  parent_ids ≠ [] →
  Forall (λ p, exists_ p st = true) parent_ids →
  exists_ i st = true →
  ∃ st' cs cs',
    create id parent_ids a st = Return st'
    ∧ get_parents i st' = get_parents i st
    ∧ get_children i st = Some (Ok cs)
    ∧ get_children i st' = Some (Ok cs')
    ∧ (∀ vi, vi ∈ cs' ↔ vi ∈ cs ∨ (vi = mkVirus id ∧ i ∈ parent_ids)).
Proof.
  intros Hwf%reachable_wf Ha Hid Hne Hall [x Hx]%exists_true.
  assert (Hall' : Forall (λ p, is_Some (viruses st !! p)) parent_ids).
  { eapply Forall_impl; [exact Hall|]. intros p [y Hy]%exists_true. eauto. }
  destruct (create_return st id parent_ids a Hwf Ha Hid Hne Hall')
    as (h' & Hcreate & (na & Hna & Hva & Hca & Hpa & Hsa) & Hsome & Hnone).
  apply exists_false in Hid.
  assert (i ≠ id) as Hi by congruence.
  destruct (wf_live _ _ _ Hwf Hx) as [n Hn].
  destruct (Hsome x n Hn) as (n' & Hn' & Hv' & Hp' & Hc').
  assert (Hids : ∀ c, c ≠ a → id_at h' c = id_at (heap st) c).
  { intros c Hc. unfold id_at. destruct (heap st !! c) as [nc|] eqn:Hnc.
    - destruct (Hsome c nc Hnc) as (nc' & -> & Hvc & _). simpl. by rewrite Hvc.
    - by rewrite (Hnone c Hc Hnc). }
  destruct (get_children_elems st i x Hwf Hx) as (cs & Hcs & Hmc & Hcin).
  assert (Hwf' : wf {| heap := h'; viruses := <[id := a]> (viruses st);
                       stemNode := stemNode st |}).
  { pose proof (wf_create st id parent_ids a Hwf Ha) as Hw.
    by rewrite Hcreate in Hw. }
  destruct (get_children_elems _ i x Hwf') as (cs' & Hcs' & Hmc' & Hcin').
  { simpl. by rewrite lookup_insert_ne. }
  eexists _, cs, cs'. split; [exact Hcreate|]. split; [|split; [done|split; [done|]]].
  - unfold get_parents. simpl. rewrite lookup_insert_ne, Hx by done.
    f_equal. unfold parents_at. rewrite Hn', Hn, Hp'.
    apply mapM_agree. intros e He. apply Hids. intros ->.
    destruct (wf_closed _ Hwf x n a Hn) as [? ?]; [tauto|congruence].
  - intros [c]. rewrite Hcin, Hcin'. simpl.
    unfold children_at. rewrite Hn', Hn, Hc'.
    assert (Hfound : x ∈ found (viruses st) parent_ids ↔ i ∈ parent_ids).
    { split.
      - intros (j & Hj & Hjx)%elem_of_found. assert (j = i) as ->; [|done].
        apply (wf_viruses _ Hwf) in Hjx. apply (wf_viruses _ Hwf) in Hx.
        congruence.
      - intros Hin. by apply (found_all _ _ i). }
    split.
    + intros (e & He & Hide). case_decide as Hf.
      * apply elem_of_set_insert in He as [->|He].
        -- right. unfold id_at in Hide. rewrite Hna in Hide. simpl in Hide.
           rewrite Hva in Hide. simpl in Hide. split; [congruence|tauto].
        -- left. exists e. split; [done|]. rewrite <-Hids; [done|].
           intros ->. destruct (wf_closed _ Hwf x n a Hn) as [? ?]; [tauto|congruence].
      * left. exists e. split; [done|]. rewrite <-Hids; [done|].
        intros ->. destruct (wf_closed _ Hwf x n a Hn) as [? ?]; [tauto|congruence].
    + intros [(e & He & Hide)|[[= ->] Hin]].
      * exists e. split.
        -- case_decide; [apply elem_of_set_insert; by right|done].
        -- rewrite Hids; [done|]. intros ->.
           destruct (wf_closed _ Hwf x n a Hn) as [? ?]; [tauto|congruence].
      * exists a. rewrite decide_True by tauto. split.
        -- apply elem_of_set_insert. by left.
        -- unfold id_at. rewrite Hna. simpl. by rewrite Hva.
Qed.

End create_more.

(** ** The public [connect] *)

Section connect_more.
Context {virus_id_t : Type} `{Countable virus_id_t}.
Implicit Types (h : gmap addr (Node virus_id_t)) (n : Node virus_id_t).
Implicit Types (v : gmap virus_id_t addr) (st : VirusGenealogy virus_id_t).

Local Ltac case_conj Hd :=
  match goal with
  | |- context [decide (?P ∧ ?Q)] => destruct (decide (P ∧ Q)) as [Hd|Hd]
  | _ : context [decide (?P ∧ ?Q)] |- _ => destruct (decide (P ∧ Q)) as [Hd|Hd]
  end.

(** A [connect] of two viruses of the store, one node at a time. *)
Lemma connect_return st (child_id parent_id : virus_id_t) (x y : addr) :
  viruses st !! child_id = Some x →
  viruses st !! parent_id = Some y →
  ∃ h',
    connect child_id parent_id st = Return (set_heap h' st)
    ∧ ∀ e, h' !! e
           = (λ n, {| virus := virus n;
                      parents :=
                        if decide (e = x ∧ x ∉ children_at (heap st) y)
                        then set_insert y (parents n) else parents n;
                      children :=
                        if decide (e = y ∧ x ∉ children_at (heap st) y)
                        then set_insert x (children n) else children n |})
             <$> heap st !! e.
Proof.
  intros Hx Hy. unfold connect, connect_many. rewrite Hx. simpl. rewrite Hy.
  destruct (set_contains x (children_at (heap st) y)) eqn:Hc.
  - apply set_contains_true in Hc. exists (heap st). split; [done|].
    intros e. destruct (heap st !! e) as [[]|]; simpl; [|done].
    by rewrite !decide_False by tauto.
  - apply set_contains_false in Hc. eexists. split; [done|].
    intros e. rewrite lookup_link.
    destruct (heap st !! e) as [n|]; simpl; [|done]. f_equal. f_equal.
    + apply decide_ext. tauto.
    + apply decide_ext. tauto.
Qed.

(** X8: [connect] throws [VirusNotFound] when the child or the parent is
    not in the store, and then the store is as it was; when both are in
    the store it returns, and the store holds the same identifiers and the
    same stem as before. *)
Theorem connect_outcomes st (child_id parent_id : virus_id_t) :
  (exists_ child_id st && exists_ parent_id st = false →
     connect child_id parent_id st = Throw VirusNotFound st)
  ∧ (exists_ child_id st && exists_ parent_id st = true →
       ∃ st', connect child_id parent_id st = Return st'
              ∧ viruses st' = viruses st
              ∧ stemNode st' = stemNode st
              ∧ ∀ a, id_at (heap st') a = id_at (heap st) a).
Proof.
  split.
  - intros Hf. unfold connect, connect_many.
    destruct (viruses st !! child_id) as [x|] eqn:Hx; [|done].
    assert (exists_ child_id st = true) as Hc by (apply exists_true; eauto).
    rewrite Hc in Hf. simpl in Hf. apply exists_false in Hf.
    simpl. rewrite Hf. simpl. by rewrite set_heap_id.
  - intros [[x Hx]%exists_true [y Hy]%exists_true]%andb_true_iff.
    destruct (connect_return st child_id parent_id x y Hx Hy) as (h' & -> & Hh').
    eexists. split; [done|]. split; [done|]. split; [done|].
    intros a. simpl. unfold id_at. rewrite Hh'.
    by destruct (heap st !! a).
Qed.

(** X9: in the store of a caller who closes no cycle, [connect(c, p)] on
    two viruses of the store returns; after it [p] is one of the parents
    of [c] and [c] one of the children of [p], besides those they had, and
    the parents and the children of every other virus are as before. *)
Theorem connect_adds_edge st (child_id parent_id : virus_id_t) :
  disciplined st →
  exists_ child_id st = true →
  exists_ parent_id st = true →
  ∃ st' ps ps' cs cs',
    connect child_id parent_id st = Return st'
    ∧ get_parents child_id st = Some (Ok ps)
    ∧ get_parents child_id st' = Some (Ok ps')
    ∧ (∀ i, i ∈ ps' ↔ i = parent_id ∨ i ∈ ps)
    ∧ get_children parent_id st = Some (Ok cs)
    ∧ get_children parent_id st' = Some (Ok cs')
    ∧ (∀ vi, vi ∈ cs' ↔ vi = mkVirus child_id ∨ vi ∈ cs)
    ∧ (∀ i, i ≠ child_id → get_parents i st' = get_parents i st)
    ∧ (∀ i, i ≠ parent_id → get_children i st' = get_children i st).
Proof.
  intros Hinv%disciplined_inv [x Hx]%exists_true [y Hy]%exists_true.
  pose proof (inv_wf _ Hinv) as Hwf.
  destruct (connect_return st child_id parent_id x y Hx Hy) as (h' & Hconn & Hh').
  assert (Hwf' : wf (set_heap h' st)).
  { pose proof (wf_connect_many st child_id [parent_id] Hwf) as Hw.
    unfold connect in Hconn. by rewrite Hconn in Hw. }
  assert (Hids : ∀ a, id_at h' a = id_at (heap st) a).
  { intros a. unfold id_at. rewrite Hh'. by destruct (heap st !! a). }
  destruct (wf_live _ _ _ Hwf Hx) as [nx Hnx].
  destruct (wf_live _ _ _ Hwf Hy) as [ny Hny].
  pose proof (wf_viruses _ Hwf _ _ Hx) as Hidx.
  pose proof (wf_viruses _ Hwf _ _ Hy) as Hidy.
  destruct (get_parents_elems st child_id x Hwf Hx) as (ps & Hps & _ & Hpin).
  destruct (get_parents_elems _ child_id x Hwf' Hx) as (ps' & Hps' & _ & Hpin').
  destruct (get_children_elems st parent_id y Hwf Hy) as (cs & Hcs & _ & Hcin).
  destruct (get_children_elems _ parent_id y Hwf' Hy) as (cs' & Hcs' & _ & Hcin').
  simpl in Hpin', Hcin'.
  exists (set_heap h' st), ps, ps', cs, cs'.
  do 3 (split; [done|]). split; [|split; [done|split; [done|split; [|split]]]].
  - (* the parents of the child *)
    intros i. rewrite Hpin, Hpin'. unfold parents_at at 1.
    rewrite Hh', Hnx. simpl. rewrite (parents_at_lookup _ _ _ Hnx). split.
    + intros (e & He & Hide). rewrite Hids in Hide. case_conj Hd.
      * apply elem_of_set_insert in He as [->|He]; [left; congruence|].
        right. eauto.
      * right. eauto.
    + intros [->|(e & He & Hide)].
      * exists y. rewrite Hids. split; [|done]. case_conj Hd.
        -- apply elem_of_set_insert. by left.
        -- destruct (decide (x ∈ children_at (heap st) y)) as [Hin|Hnin];
             [|tauto].
           apply (inv_symmetric _ Hinv) in Hin.
           by rewrite (parents_at_lookup _ _ _ Hnx) in Hin.
      * exists e. rewrite Hids. split; [|done].
        case_conj Hd; [apply elem_of_set_insert; by right|done].
  - (* the children of the parent *)
    intros [c]. rewrite Hcin, Hcin'. unfold children_at at 1.
    rewrite Hh', Hny. simpl. split.
    + intros (e & He & Hide). rewrite Hids in Hide. case_conj Hd.
      * apply elem_of_set_insert in He as [->|He]; [left; congruence|].
        right. exists e. by rewrite (children_at_lookup _ _ _ Hny).
      * right. exists e. by rewrite (children_at_lookup _ _ _ Hny).
    + intros [[= ->]|(e & He & Hide)].
      * exists x. rewrite Hids. split; [|done]. case_conj Hd.
        -- apply elem_of_set_insert. by left.
        -- rewrite (children_at_lookup _ _ _ Hny) in Hd.
           destruct (decide (x ∈ children ny)) as [Hin|Hnin]; [done|tauto].
      * rewrite (children_at_lookup _ _ _ Hny) in He. exists e. rewrite Hids. split; [|done].
        case_conj Hd; [apply elem_of_set_insert; by right|done].
  - intros i Hi. unfold get_parents. simpl.
    destruct (viruses st !! i) as [z|] eqn:Hz; [|done]. f_equal.
    assert (z ≠ x) as Hzx.
    { intros ->. apply (wf_viruses _ Hwf) in Hz. congruence. }
    unfold parents_at. rewrite Hh'.
    destruct (heap st !! z) as [nz|]; simpl; [|done].
    rewrite decide_False by tauto. apply mapM_agree. intros e _. apply Hids.
  - intros i Hi. unfold get_children. simpl.
    destruct (viruses st !! i) as [z|] eqn:Hz; [|done]. f_equal.
    assert (z ≠ y) as Hzy.
    { intros ->. apply (wf_viruses _ Hwf) in Hz. congruence. }
    unfold children_at. rewrite Hh'.
    destruct (heap st !! z) as [nz|]; simpl; [|done].
    rewrite decide_False by tauto. apply mapM_agree. intros e _.
    rewrite !Hh'. by destruct (heap st !! e).
Qed.

(** X10: [connect] is idempotent: in every store a caller can get, the
    same call once more returns and changes nothing. *)
Theorem connect_twice st (child_id parent_id : virus_id_t) st' :
  reachable st →
  connect child_id parent_id st = Return st' →
  connect child_id parent_id st' = Return st'.
Proof.
  intros Hwf%reachable_wf Hconn.
  destruct (viruses st !! child_id) as [x|] eqn:Hx.
  2:{ unfold connect, connect_many in Hconn. by rewrite Hx in Hconn. }
  destruct (viruses st !! parent_id) as [y|] eqn:Hy.
  2:{ unfold connect, connect_many in Hconn. rewrite Hx in Hconn. simpl in Hconn.
      by rewrite Hy in Hconn. }
  destruct (connect_return st child_id parent_id x y Hx Hy) as (h' & Heq & Hh').
  rewrite Heq in Hconn. injection Hconn as <-.
  destruct (wf_live _ _ _ Hwf Hy) as [ny Hny].
  unfold connect, connect_many. simpl. rewrite Hx. simpl. rewrite Hy.
  assert (x ∈ children_at h' y) as Hin%set_contains_true.
  { unfold children_at at 1. rewrite Hh', Hny. simpl.
    rewrite (children_at_lookup _ _ _ Hny).
    destruct (decide (x ∈ children ny)) as [Hin|Hnin].
    - by rewrite decide_False by tauto.
    - rewrite decide_True by tauto. apply elem_of_set_insert. by left. }
  by rewrite Hin.
Qed.

End connect_more.

(** ** What [remove] takes and what it leaves *)

Section remove_more.
Context {virus_id_t : Type} `{Countable virus_id_t}.
Implicit Types (h : gmap addr (Node virus_id_t)) (n : Node virus_id_t).
Implicit Types (v : gmap virus_id_t addr) (st : VirusGenealogy virus_id_t).

#[local] Arguments traverse : simpl never.

(** The loop only adds to [remove_iterators]. *)
Lemma traverse_iterators h (fuel : nat) :
  ∀ t t', traverse fuel h t = Some t' →
  ∀ i, i ∈ remove_iterators t → i ∈ remove_iterators t'.
Proof.
  induction fuel as [|fuel IH]; intros t t' Ht i Hi; [done|].
  unfold traverse in Ht; fold (@traverse virus_id_t _ _) in Ht.
  destruct (to_process t) as [|current q]; [congruence|].
  destruct (h !! current) as [n|]; simpl in Ht; [|done].
  destruct (count_children h (children n) (removed_parents t) q)
    as [[rp q']|]; simpl in Ht; [|done].
  apply (IH _ _ Ht). simpl. apply elem_of_app. by left.
Qed.

(** Its first turn adds the identifier of [begin_node]. *)
Lemma traverse_first h (fuel : nat) (r : addr) n t :
  traverse (S fuel) h {| to_process := [r]; fully_remove := [];
                         remove_iterators := []; removed_parents := ∅ |}
  = Some t →
  h !! r = Some n → get_id (virus n) ∈ remove_iterators t.
Proof.
  intros Ht Hr. unfold traverse in Ht; fold (@traverse virus_id_t _ _) in Ht.
  simpl in Ht. rewrite Hr in Ht. simpl in Ht.
  destruct (count_children h (children n) ∅ []) as [[rp q']|]; simpl in Ht;
    [|done].
  apply (traverse_iterators _ _ _ _ Ht). simpl. by left.
Qed.

(** Dropping pointers destroys neither the map of identifiers nor the node
    of the stem. *)
Lemma release_all_stem st (l : list addr) :
  viruses (foldl (λ s a, release a s) st l) = viruses st
  ∧ stemNode (foldl (λ s a, release a s) st l) = stemNode st
  ∧ heap (foldl (λ s a, release a s) st l) !! stemNode st
    = heap st !! stemNode st.
Proof.
  revert st. induction l as [|a l IH]; intros st; [done|]. simpl.
  destruct (IH (release a st)) as (-> & -> & Hh). unfold release in *.
  destruct (decide (referenced a st)) as [Href|Href]; [done|].
  simpl in *. split; [done|]. split; [done|]. rewrite Hh.
  apply lookup_delete_ne. intros ->. apply Href. by left.
Qed.

(** X11: in every store a caller can get, [remove] throws
    [TriedToRemoveStemVirus] for the identifier of the stem and
    [VirusNotFound] for an identifier that is not in the store, and leaves
    the store as it was.  For any other identifier, and a caller who closes
    no cycle, it returns: the identifier is no longer in the store, no
    identifier is new in it, and [get_stem_id] answers as before. *)
Theorem remove_outcomes st (id : virus_id_t) :
  reachable st →
  ∃ stem_id,
    get_stem_id st = Some stem_id
    ∧ (id = stem_id → remove id st = Some (Throw TriedToRemoveStemVirus st))
    ∧ (id ≠ stem_id → exists_ id st = false →
         remove id st = Some (Throw VirusNotFound st))
    ∧ (id ≠ stem_id → exists_ id st = true → disciplined st →
         ∃ st', remove id st = Some (Return st')
                ∧ exists_ id st' = false
                ∧ get_stem_id st' = Some stem_id
                ∧ ∀ i, exists_ i st' = true → exists_ i st = true).
Proof.
  intros Hwf%reachable_wf. destruct (wf_stem _ Hwf) as [ns Hns].
  exists (get_id (virus ns)).
  assert (Hget : get_stem_id st = Some (get_id (virus ns))).
  { unfold get_stem_id, id_at. by rewrite Hns. }
  split; [done|]. unfold remove. rewrite Hget. simpl. split; [|split].
  - intros ->. by rewrite decide_True.
  - intros Hne ->%exists_false. by rewrite decide_False.
  - intros Hne [r Hr]%exists_true _. rewrite decide_False, Hr by done.
    destruct (traverse_returns (heap st) (wf_closed _ Hwf) (2 + size (heap st))
      {| to_process := [r]; fully_remove := [];
         remove_iterators := []; removed_parents := ∅ |}) as [t Ht].
    { simpl. intros c ->%list_elem_of_singleton. by eapply wf_live. }
    { simpl. pose proof (unsaturated_bound (heap st) ∅). lia. }
    change (2 + size (heap st)) with (S (S (size (heap st)))) in Ht.
    change (2 + size (heap st)) with (S (S (size (heap st)))).
    rewrite Ht. simpl. eexists. split; [done|].
    match goal with
    | |- context [foldl (λ s a, release a s) ?s0 ?l] =>
        destruct (release_all_stem s0 l) as (Hv & Hs & Hh)
    end.
    simpl in Hv, Hs, Hh.
    destruct (wf_live _ _ _ Hwf Hr) as [nr Hnr].
    pose proof (wf_viruses _ Hwf _ _ Hr) as Hidr.
    unfold id_at in Hidr. rewrite Hnr in Hidr. injection Hidr as Hidr.
    pose proof (traverse_first _ _ _ _ _ Ht Hnr) as Hin. rewrite Hidr in Hin.
    split; [|split].
    + apply exists_false. rewrite Hv, lookup_foldl_delete.
      by rewrite decide_True.
    + unfold get_stem_id, id_at. rewrite Hs, Hh, lookup_clear, lookup_commit.
      rewrite Hns. simpl. by case_decide.
    + intros i [a Ha]%exists_true. apply exists_true.
      rewrite Hv, lookup_foldl_delete in Ha. case_decide; [done|]. eauto.
Qed.

(** In an acyclic store a set of nodes in which every node but [r] has a
    parent in the set holds descendants of [r] only. *)
Lemma removed_ancestors st (r : addr) (P : list addr) (k : nat) :
  inv st →
  (∀ c, c ∈ P → is_Some (heap st !! c)) →
  (∀ c, c ∈ P → c ≠ r →
     parents_at (heap st) c ≠ [] ∧ ∀ p, p ∈ parents_at (heap st) c → p ∈ P) →
  ∀ c, c ∈ P →
  rtc (edge (heap st)) r c
  ∨ ∃ l, length l = k ∧ NoDup l
         ∧ ∀ a, a ∈ l → is_Some (heap st !! a) ∧ tc (edge (heap st)) a c.
Proof.
  intros Hinv Hlive Hfix. induction k as [|k IH]; intros c Hc.
  - right. exists []. split; [done|]. split; [constructor|].
    intros a Ha. by apply elem_of_nil in Ha.
  - destruct (decide (c = r)) as [->|Hcr]; [by left|].
    destruct (Hfix c Hc Hcr) as [Hne Hall].
    destruct (parents_at (heap st) c) as [|p ps] eqn:Hps; [done|].
    assert (edge (heap st) p c) as Hpc.
    { apply (inv_symmetric _ Hinv). rewrite Hps. left. }
    destruct (IH p) as [Hr|(l & Hlen & Hnd & Hl)]; [apply Hall; left| |].
    + left. by eapply rtc_r.
    + right. exists (p :: l). split; [by rewrite <-Hlen|]. split.
      * constructor; [|done]. intros [_ Hpp]%Hl.
        by apply (inv_acyclic _ Hinv) in Hpp.
      * intros a [->|Ha]%elem_of_cons.
        -- split; [by eapply edge_live|by apply tc_once].
        -- destruct (Hl a Ha). split; [done|]. by eapply tc_r.
Qed.

Lemma removed_descend st (r : addr) (P : list addr) :
  inv st →
  (∀ c, c ∈ P → is_Some (heap st !! c)) →
  (∀ c, c ∈ P → c ≠ r →
     parents_at (heap st) c ≠ [] ∧ ∀ p, p ∈ parents_at (heap st) c → p ∈ P) →
  ∀ c, c ∈ P → rtc (edge (heap st)) r c.
Proof.
  intros Hinv Hlive Hfix c Hc.
  destruct (removed_ancestors st r P (S (size (heap st))) Hinv Hlive Hfix c Hc)
    as [?|(l & Hlen & Hnd & Hl)]; [done|].
  assert (length l ≤ size (heap st)); [|lia].
  apply live_bound; [done|]. intros a Ha. by apply Hl.
Qed.

(** Whether an identifier of the old store is in the new one. *)
Lemma removed_exists st st' (P : list addr) (i : virus_id_t) (x : addr) :
  (∀ j a, viruses st' !! j = Some a ↔ viruses st !! j = Some a ∧ a ∉ P) →
  viruses st !! i = Some x →
  (exists_ i st' = false ↔ x ∈ P) ∧ (exists_ i st' = true ↔ x ∉ P).
Proof.
  intros Hvir Hx. destruct (decide (x ∈ P)) as [Hin|Hnin].
  - assert (viruses st' !! i = None) as Hn.
    { destruct (viruses st' !! i) as [a|] eqn:Ha; [|done].
      apply Hvir in Ha as [Ha ?]. congruence. }
    apply exists_false in Hn. rewrite Hn. naive_solver.
  - assert (viruses st' !! i = Some x) as Hs by by apply Hvir.
    assert (exists_ i st' = true) as -> by (apply exists_true; eauto).
    naive_solver.
Qed.

(** X12: for a caller who closes no cycle, [remove(id)] of a virus that is
    not the stem takes [id] and, of the other viruses, exactly those all
    of whose parents it takes; a virus that stays keeps the parents and the
    children that stay. *)
Theorem remove_cascade st (stem_id id : virus_id_t) :
  disciplined st →
  get_stem_id st = Some stem_id →
  id ≠ stem_id →
  exists_ id st = true →
  ∃ st',
    remove id st = Some (Return st')
    ∧ exists_ id st' = false
    ∧ ∀ i, i ≠ id → exists_ i st = true →
        ∃ ps cs,
          get_parents i st = Some (Ok ps)
          ∧ get_children i st = Some (Ok cs)
          ∧ (exists_ i st' = false ↔
               ps ≠ [] ∧ ∀ p, p ∈ ps → exists_ p st' = false)
          ∧ (exists_ i st' = true →
               ∃ ps' cs',
                 get_parents i st' = Some (Ok ps')
                 ∧ get_children i st' = Some (Ok cs')
                 ∧ (∀ p, p ∈ ps' ↔ p ∈ ps ∧ exists_ p st' = true)
                 ∧ (∀ vi, vi ∈ cs' ↔
                      vi ∈ cs ∧ exists_ (get_id vi) st' = true)).
Proof.
  intros Hdisc Hstem Hne [r Hr]%exists_true.
  pose proof (disciplined_inv _ Hdisc) as Hinv.
  pose proof (inv_wf _ Hinv) as Hwf.
  assert (get_stem_id st ≠ Some id) as Hns by congruence.
  destruct (remove_graph st id r Hinv Hns Hr)
    as (P & st' & Hrem & HrP & HsP & Hlive & Hfix & Hs' & Hvir & Hid' & Hch' & Hpa').
  assert (Hinv' : inv st') by apply (inv_remove st id _ Hinv Hrem).
  pose proof (inv_wf _ Hinv') as Hwf'.
  assert (Hreg : ∀ e j, id_at (heap st) e = Some j → viruses st !! j = Some e).
  { intros e j (ne & Hne' & <-)%id_at_Some. by apply (inv_registered _ Hinv). }
  exists st'. split; [done|].
  split; [by apply (removed_exists st st' P id r Hvir Hr)|].
  intros i Hi [x Hx]%exists_true.
  destruct (get_parents_elems st i x Hwf Hx) as (ps & Hps & Hmp & Hpin).
  destruct (get_children_elems st i x Hwf Hx) as (cs & Hcs & Hmc & Hcin).
  exists ps, cs. split; [done|]. split; [done|].
  destruct (removed_exists st st' P i x Hvir Hx) as [Hgone Hstay].
  assert (x ≠ r) as Hxr.
  { intros ->. apply (wf_viruses _ Hwf) in Hx, Hr. congruence. }
  split.
  - rewrite Hgone, (Hfix x (wf_live _ _ _ Hwf Hx) Hxr).
    assert (H1 : parents_at (heap st) x ≠ [] ↔ ps ≠ []).
    { apply length_mapM in Hmp. split; intros Hnil Heq; apply Hnil.
      - rewrite Heq in Hmp. by destruct (parents_at (heap st) x).
      - rewrite Heq in Hmp. by destruct ps. }
    assert (H2 : (∀ p, p ∈ parents_at (heap st) x → p ∈ P)
                 ↔ ∀ p, p ∈ ps → exists_ p st' = false).
    { split.
      - intros Hall p (e & He & Hide)%Hpin.
        apply (removed_exists st st' P p e Hvir (Hreg _ _ Hide)). by apply Hall.
      - intros Hall e He.
        destruct (wf_live _ _ _ Hwf Hx) as [nx Hnx].
        rewrite (parents_at_lookup _ _ _ Hnx) in He.
        destruct (wf_closed _ Hwf x nx e Hnx) as [ne Hne']; [tauto|].
        assert (id_at (heap st) e = Some (get_id (virus ne))) as Hide.
        { unfold id_at. by rewrite Hne'. }
        apply (removed_exists st st' P _ e Hvir (Hreg _ _ Hide)).
        apply Hall, Hpin. exists e.
        by rewrite (parents_at_lookup _ _ _ Hnx). }
    tauto.
  - intros HxP%Hstay.
    assert (Hx' : viruses st' !! i = Some x) by by apply Hvir.
    destruct (get_parents_elems st' i x Hwf' Hx') as (ps' & Hps' & _ & Hpin').
    destruct (get_children_elems st' i x Hwf' Hx') as (cs' & Hcs' & _ & Hcin').
    exists ps', cs'. split; [done|]. split; [done|]. split.
    + intros p. rewrite Hpin, Hpin'. split.
      * intros (e & (_ & He & HeP)%Hpa' & Hide).
        rewrite Hid', decide_False in Hide by done.
        split; [eauto|].
        by apply (removed_exists st st' P p e Hvir (Hreg _ _ Hide)).
      * intros [(e & He & Hide) Hp].
        apply (removed_exists st st' P p e Hvir (Hreg _ _ Hide)) in Hp.
        exists e. split; [by apply Hpa'|]. by rewrite Hid', decide_False.
    + intros [c]. rewrite Hcin, Hcin'. simpl. split.
      * intros (e & (_ & He & HeP)%Hch' & Hide).
        rewrite Hid', decide_False in Hide by done.
        split; [eauto|].
        by apply (removed_exists st st' P c e Hvir (Hreg _ _ Hide)).
      * intros [(e & He & Hide) Hp].
        apply (removed_exists st st' P c e Hvir (Hreg _ _ Hide)) in Hp.
        exists e. split; [by apply Hch'|]. by rewrite Hid', decide_False.
Qed.

(** X13: for a caller who closes no cycle, [remove(id)] touches
    descendants of [id] only: a virus that does not descend from [id] is
    in the store afterwards, with the parents it had. *)
Theorem remove_spares_others st (stem_id id i : virus_id_t) :
  disciplined st →
  get_stem_id st = Some stem_id →
  id ≠ stem_id →
  exists_ id st = true →
  exists_ i st = true →
  ¬ descendant st id i →
  ∃ st',
    remove id st = Some (Return st')
    ∧ exists_ i st' = true
    ∧ lookup_virus i st' = lookup_virus i st
    ∧ get_parents i st' = get_parents i st.
Proof.
  intros Hdisc Hstem Hne [r Hr]%exists_true [x Hx]%exists_true Hnd.
  pose proof (disciplined_inv _ Hdisc) as Hinv.
  pose proof (inv_wf _ Hinv) as Hwf.
  assert (get_stem_id st ≠ Some id) as Hns by congruence.
  destruct (remove_spec st id r Hinv Hns Hr)
    as (P & st' & Hrem & HrP & HsP & Hlive & Hfix & _ & Hs' & Hvir & Hgone & Hstay).
  assert (Hdesc : ∀ c, c ∈ P → rtc (edge (heap st)) r c).
  { apply (removed_descend st r P Hinv Hlive). intros c Hc Hcr.
    by apply (Hfix c (Hlive c Hc) Hcr). }
  assert (HxP : x ∉ P).
  { intros Hin. apply Hnd. exists r, x. split; [done|]. split; [done|].
    by apply Hdesc. }
  assert (Hx' : viruses st' !! i = Some x) by by apply Hvir.
  exists st'. split; [done|]. split; [apply exists_true; eauto|].
  destruct (wf_live _ _ _ Hwf Hx) as [nx Hnx].
  destruct (Hstay x nx HxP Hnx) as (nx' & Hnx' & Hvx & Hpx & _).
  assert (HpP : ∀ e, e ∈ parents nx → e ∉ P).
  { intros e He Hin. apply Hnd. exists r, x. split; [done|]. split; [done|].
    eapply rtc_r; [by apply Hdesc|]. apply (inv_symmetric _ Hinv).
    by rewrite (parents_at_lookup _ _ _ Hnx). }
  split.
  - unfold lookup_virus. rewrite Hx, Hx', Hnx, Hnx'. simpl. by rewrite Hvx.
  - unfold get_parents. rewrite Hx, Hx'. f_equal.
    unfold parents_at. rewrite Hnx, Hnx', Hpx.
    rewrite filter_all by (intros e He; by apply HpP).
    apply mapM_agree. intros e He%HpP. unfold id_at.
    destruct (heap st !! e) as [ne|] eqn:Hne'.
    + destruct (Hstay e ne He Hne') as (ne' & -> & Hve & _). simpl.
      by rewrite Hve.
    + rewrite Hgone; [done|by right].
Qed.

End remove_more.

(** ** The shape of the graph *)

Section shape.
Context {virus_id_t : Type} `{Countable virus_id_t}.
Implicit Types (h : gmap addr (Node virus_id_t)) (n : Node virus_id_t).
Implicit Types (v : gmap virus_id_t addr) (st : VirusGenealogy virus_id_t).

(** X14: in the store of a caller who closes no cycle the stem is in the
    store and every virus of the store is the stem or one of its
    descendants. *)
Theorem all_descend_from_stem st :
  disciplined st →
  ∃ stem_id,
    get_stem_id st = Some stem_id
    ∧ exists_ stem_id st = true
    ∧ ∀ id, exists_ id st = true → descendant st stem_id id.
Proof.
  intros Hinv%disciplined_inv.
  destruct (inv_stem_id st Hinv) as (stem_id & Hget & Hreg).
  exists stem_id. split; [done|]. split; [apply exists_true; eauto|].
  intros id [x Hx]%exists_true. exists (stemNode st), x.
  split; [done|]. split; [done|].
  apply inv_from_stem; [done|]. by eapply wf_live, Hx; apply inv_wf.
Qed.

(** X15: in the store of a caller who closes no cycle no virus is its own
    ancestor: two viruses that descend from each other are the same. *)
Theorem descendant_antisymmetric st (id1 id2 : virus_id_t) :
  disciplined st →
  descendant st id1 id2 →
  descendant st id2 id1 →
  id1 = id2.
Proof.
  intros Hinv%disciplined_inv (a & b & Ha & Hb & Hab) (b' & a' & Hb' & Ha' & Hba).
  assert (a' = a) as -> by congruence. assert (b' = b) as -> by congruence.
  assert (a = b) as ->.
  { apply rtc_tc in Hab as [?|Hab]; [done|].
    destruct (inv_acyclic _ Hinv a). by eapply tc_rtc_r. }
  pose proof (inv_wf _ Hinv) as Hwf.
  apply (wf_viruses _ Hwf) in Ha, Hb. congruence.
Qed.

(** The private [connect] changes the identifier of no node. *)
Lemma connect_many_ids st (child_id : virus_id_t) (ids : list virus_id_t) :
  stemNode (state_of (connect_many child_id ids st)) = stemNode st
  ∧ ∀ c, id_at (heap (state_of (connect_many child_id ids st))) c
         = id_at (heap st) c.
Proof.
  unfold connect_many. destruct (viruses st !! child_id) as [x|]; [|done].
  destruct (connect_loop_spec x (viruses st) ids [] (heap st))
    as (ipn & h' & -> & _ & Hnone & Hsome).
  assert (Hh' : ∀ c, id_at h' c = id_at (heap st) c).
  { intros c. unfold id_at. destruct (heap st !! c) as [n|] eqn:Hn.
    - destruct (Hsome c n Hn) as (n' & -> & Hv & _). simpl. by rewrite Hv.
    - by rewrite (Hnone c Hn). }
  case_bool_decide; simpl; (split; [done|]); [done|].
  intros c. rewrite <-Hh'. unfold id_at. rewrite lookup_rollback.
  by destruct (h' !! c).
Qed.

Lemma create_stem_id st (id : virus_id_t) (ps : list virus_id_t) (a : addr) :
  wf st → heap st !! a = None →
  get_stem_id (state_of (create id ps a st)) = get_stem_id st.
Proof.
  intros Hwf Ha. destruct (wf_stem _ Hwf) as [ns Hns].
  assert (stemNode st ≠ a) as Hsa by congruence.
  unfold create. destruct ps as [|p ps]; [done|].
  destruct (exists_ id st); [done|].
  match goal with
  | |- context [connect_many id ?l ?s1] =>
      destruct (connect_many_ids s1 id l) as [Hs Hids];
      destruct (connect_many id l s1) as [st2|e st2]
  end; simpl in Hs, Hids; unfold get_stem_id.
  - simpl. rewrite Hs, Hids. unfold id_at. by rewrite lookup_insert_ne.
  - simpl. unfold release. case_decide; simpl.
    + rewrite Hs, Hids. unfold id_at. by rewrite lookup_insert_ne.
    + rewrite Hs. unfold id_at at 1. rewrite lookup_delete_ne by done.
      fold (id_at (heap st2) (stemNode st)). rewrite Hids.
      unfold id_at. by rewrite lookup_insert_ne.
Qed.

(** X16: the identifier of the stem is the one the constructor was given,
    and in every store a caller can get, [get_stem_id] answers the same
    after a call of [create] or of [connect], whether the call returns or
    throws. *)
Theorem stem_id_is_kept st (stem_id id p : virus_id_t)
    (parent_ids : list virus_id_t) (s a : addr) :
  reachable st →
  heap st !! a = None →
  get_stem_id (construct stem_id s) = Some stem_id
  ∧ get_stem_id (state_of (create id parent_ids a st)) = get_stem_id st
  ∧ get_stem_id (state_of (connect id p st)) = get_stem_id st.
Proof.
  intros Hwf%reachable_wf Ha.
  split; [unfold get_stem_id, id_at; simpl; by rewrite lookup_singleton_eq|].
  split; [by apply create_stem_id|].
  destruct (connect_many_ids st id [p]) as [Hs Hids].
  unfold get_stem_id, connect. by rewrite Hs, Hids.
Qed.

End shape.

(** ** Walking the children of a virus *)

Section iterator_facts.
Context {virus_id_t : Type} `{Countable virus_id_t}.
Implicit Types (h : gmap addr (Node virus_id_t)) (n : Node virus_id_t).
Implicit Types (v : gmap virus_id_t addr) (st : VirusGenealogy virus_id_t).

#[local] Arguments walk : simpl never.
#[local] Arguments walk_back : simpl never.

Lemma walk_S (fuel : nat) st (it last : Iterator) :
  walk (S fuel) st it last
  = if Iterator_neqb it last then
      vi ← Iterator_deref st it;
      it' ← Iterator_incr st it;
      vs ← walk fuel st it' last;
      Some (vi :: vs)
    else Some [].
Proof. done. Qed.

Lemma walk_back_S (fuel : nat) st (it first : Iterator) :
  walk_back (S fuel) st it first
  = if Iterator_neqb it first then
      it' ← Iterator_decr it;
      vi ← Iterator_deref st it';
      vs ← walk_back fuel st it' first;
      Some (vi :: vs)
    else Some [].
Proof. done. Qed.

(** Dereferencing the iterator at a position of the set. *)
Lemma deref_lookup st (a : addr) (vs : list (Virus virus_id_t)) (k : nat) vi :
  mapM (λ c, virus <$> heap st !! c) (children_at (heap st) a) = Some vs →
  vs !! k = Some vi →
  Iterator_deref st (mkIterator a k) = Some vi.
Proof.
  intros Hvs%mapM_Some Hk. unfold Iterator_deref. simpl.
  destruct (Forall2_lookup_r _ _ _ _ _ Hvs Hk) as (c & -> & Hc). done.
Qed.

(** A walk forward from a position to [end()]. *)
Lemma walk_drop st (a : addr) (vs : list (Virus virus_id_t)) :
  mapM (λ c, virus <$> heap st !! c) (children_at (heap st) a) = Some vs →
  ∀ d k, k + d = length vs →
  walk (S d) st (mkIterator a k) (Node_end (heap st) a) = Some (drop k vs).
Proof.
  intros Hvs. pose proof (length_mapM _ _ _ Hvs) as Hlen.
  induction d as [|d IH]; intros k Hk.
  - assert (k = length vs) as -> by lia. rewrite walk_S. unfold Node_end.
    rewrite Hlen. unfold Iterator_neqb, Iterator_eqb.
    rewrite bool_decide_eq_true_2 by done. simpl. by rewrite drop_all.
  - destruct (lookup_lt_is_Some_2 vs k) as [vi Hvi]; [lia|].
    rewrite walk_S.
    unfold Iterator_neqb, Iterator_eqb, Node_end.
    rewrite bool_decide_eq_false_2 by (intros [= ->]; lia). simpl negb.
    cbv iota. rewrite (deref_lookup st a vs k vi Hvs Hvi). simpl.
    unfold Iterator_incr. simpl. rewrite decide_True by lia. simpl.
    fold (Node_end (heap st) a). rewrite (IH (S k)) by lia. simpl.
    by rewrite <-(drop_S _ _ _ Hvi).
Qed.

(** A walk backward from a position to [begin()]. *)
Lemma walk_back_take st (a : addr) (vs : list (Virus virus_id_t)) :
  mapM (λ c, virus <$> heap st !! c) (children_at (heap st) a) = Some vs →
  ∀ k, k ≤ length vs →
  walk_back (S k) st (mkIterator a k) (Node_begin a)
  = Some (reverse (take k vs)).
Proof.
  intros Hvs. induction k as [|k IH]; intros Hk.
  - rewrite walk_back_S. unfold Iterator_neqb, Iterator_eqb, Node_begin.
    by rewrite bool_decide_eq_true_2.
  - destruct (lookup_lt_is_Some_2 vs k) as [vi Hvi]; [lia|].
    rewrite walk_back_S.
    unfold Iterator_neqb, Iterator_eqb, Node_begin.
    rewrite bool_decide_eq_false_2 by done. simpl negb. cbv iota.
    unfold Iterator_decr. simpl.
    rewrite (deref_lookup st a vs k vi Hvs Hvi). simpl.
    fold (Node_begin a). rewrite IH by lia. simpl.
    by rewrite (take_S_r _ _ _ Hvi), reverse_snoc.
Qed.

(** X17: in every store a caller can get, for a virus of the store, the
    loop from [get_children_begin] to [get_children_end] that dereferences
    and increments yields every child once, in the order of the set, and
    ends; the loop from the end that decrements and dereferences yields
    them in the opposite order; the two iterators are equal exactly when
    the virus has no child.  For an identifier that is not in the store
    both functions throw [VirusNotFound]. *)
Theorem children_iterators_walk st (id : virus_id_t) :
  reachable st →
  (exists_ id st = true →
     ∃ first last vs,
       get_children_begin id st = Ok first
       ∧ get_children_end id st = Ok last
       ∧ get_children id st = Some (Ok vs)
       ∧ walk (S (length vs)) st first last = Some vs
       ∧ walk_back (S (length vs)) st last first = Some (reverse vs)
       ∧ (Iterator_eqb first last = true ↔ vs = []))
  ∧ (exists_ id st = false →
       get_children_begin id st = Err VirusNotFound
       ∧ get_children_end id st = Err VirusNotFound).
Proof.
  intros Hwf%reachable_wf. split.
  2:{ intros Hid%exists_false. unfold get_children_begin, get_children_end.
      by rewrite Hid. }
  intros [a Ha]%exists_true.
  destruct (get_children_elems st id a Hwf Ha) as (vs & Hget & Hvs & _).
  pose proof (length_mapM _ _ _ Hvs) as Hlen.
  exists (Node_begin a), (Node_end (heap st) a), vs.
  unfold get_children_begin, get_children_end. rewrite Ha.
  do 3 (split; [done|]). split; [|split].
  - unfold Node_begin. by rewrite (walk_drop st a vs Hvs (length vs) 0).
  - unfold Node_end at 1. rewrite Hlen.
    rewrite (walk_back_take st a vs Hvs (length vs)) by done.
    by rewrite firstn_all.
  - unfold Iterator_eqb, Node_begin, Node_end. rewrite Hlen.
    rewrite bool_decide_eq_true. split.
    + intros [= Hz]. by destruct vs.
    + by intros ->.
Qed.

End iterator_facts.

(** ** The destructor *)

Section destructor_facts.
Context {virus_id_t : Type} `{Countable virus_id_t}.
Implicit Types (h : gmap addr (Node virus_id_t)) (n : Node virus_id_t).
Implicit Types (v : gmap virus_id_t addr) (st : VirusGenealogy virus_id_t).

Lemma pointed_at_none h :
  (∀ a n, h !! a = Some n → parents n = [] ∧ children n = []) →
  pointed_at h = ∅.
Proof.
  intros Hall. apply map_empty. intros a. unfold pointed_at.
  apply map_lookup_filter_None. right. intros n Hn (b & nb & Hb & Hor).
  destruct (Hall b nb Hb) as [Hp Hc]. rewrite Hp, Hc in Hor.
  destruct Hor as [[]%elem_of_nil|[]%elem_of_nil].
Qed.

Lemma sweep_empty (fuel : nat) : sweep fuel (∅ : gmap addr (Node virus_id_t)) = ∅.
Proof.
  induction fuel as [|fuel IH]; [done|]. simpl. by case_decide.
Qed.

(** X18: the destructor of the store of a caller who closes no cycle
    leaves no node behind: every node is in [viruses], so the sets of every
    node are cleared and no pointer is left when the members go. *)
Theorem destructor_frees_all st :
  disciplined st → destructor st = ∅.
Proof.
  intros Hinv%disciplined_inv. unfold destructor.
  match goal with |- sweep (size ?h1) ?h1 = _ => set (h := h1) end.
  assert (Hnone : pointed_at h = ∅).
  { apply pointed_at_none. intros a n. unfold h. rewrite lookup_clear.
    destruct (heap st !! a) as [na|] eqn:Hna; simpl; [|done].
    rewrite decide_True.
    - intros [= <-]. done.
    - apply list_elem_of_fmap.
      exists (get_id (virus na), a). split; [done|].
      apply elem_of_map_to_list. by apply (inv_registered _ Hinv). }
  destruct (size h) as [|k] eqn:Hsize.
  - by apply map_size_empty_iff.
  - simpl. rewrite Hnone, map_size_empty, decide_False by lia.
    apply sweep_empty.
Qed.

End destructor_facts.

(** ** [create] and [remove] as inverse of each other *)

Section round_trip_more.
Context {virus_id_t : Type} `{Countable virus_id_t}.
Implicit Types (st : VirusGenealogy virus_id_t).

(** X19: in every store a caller can get whose stem is in the store,
    [create] of a new virus, with one parent by [create(id, parent_id)] or
    with any vector of parents that are in the store, whether an
    identifier comes twice in it or not, followed by [remove] of the new
    virus gives back the store as it was. *)
Theorem create_any_then_remove_restores st (stem_id id p : virus_id_t)
    (parent_ids : list virus_id_t) (a : addr) :
  reachable st →
  get_stem_id st = Some stem_id →
  exists_ stem_id st = true →
  heap st !! a = None →
  exists_ id st = false →
  exists_ p st = true →
  Forall (λ q, exists_ q st = true) parent_ids →
  (∃ st1, create_one id p a st = Return st1
          ∧ remove id st1 = Some (Return st))
  ∧ (∃ st1, create id (p :: parent_ids) a st = Return st1
            ∧ remove id st1 = Some (Return st)).
Proof.
  intros Hwf%reachable_wf Hstem Hin Ha Hid Hp Hall.
  assert (Hall' : Forall (λ q, is_Some (viruses st !! q)) (p :: parent_ids)).
  { constructor; [by apply exists_true|].
    eapply Forall_impl; [exact Hall|]. intros q Hq. by apply exists_true. }
  split.
  - destruct (create_remove_restores st stem_id id [p] a)
      as (st1 & Hc & _ & Hr); try done.
    + constructor; [by apply exists_true|constructor].
    + by exists st1.
  - destruct (create_remove_restores st stem_id id (p :: parent_ids) a)
      as (st1 & Hc & _ & Hr); try done.
    by exists st1.
Qed.

End round_trip_more.

(** ** Pointers and nodes *)

Section memory.
Context {virus_id_t : Type} `{Countable virus_id_t}.
Implicit Types (h : gmap addr (Node virus_id_t)) (n : Node virus_id_t).
Implicit Types (v : gmap virus_id_t addr) (st : VirusGenealogy virus_id_t).

(** X20: in every store a caller can get, whatever calls returned or threw
    before, no query follows a pointer to a node that was destroyed:
    [get_stem_id], [operator[]], [get_parents] and the walk over the
    children all give an answer. *)
Theorem queries_meet_no_dangling_pointer st (id : virus_id_t) :
  reachable st →
  is_Some (get_stem_id st)
  ∧ is_Some (lookup_virus id st)
  ∧ is_Some (get_parents id st)
  ∧ is_Some (get_children id st).
Proof.
  intros Hwf%reachable_wf.
  split.
  { destruct (wf_stem _ Hwf) as [ns Hns]. unfold get_stem_id, id_at.
    rewrite Hns. simpl. eauto. }
  destruct (viruses st !! id) as [a|] eqn:Ha.
  - destruct (wf_live _ _ _ Hwf Ha) as [n Hn].
    destruct (get_parents_elems st id a Hwf Ha) as (ps & -> & _).
    destruct (get_children_elems st id a Hwf Ha) as (cs & -> & _).
    unfold lookup_virus. rewrite Ha, Hn. simpl.
    split; [eauto|]. split; eauto.
  - unfold lookup_virus, get_parents, get_children. rewrite Ha.
    split; [eauto|]. split; eauto.
Qed.

(** X21: the store of a caller who closes no cycle holds no node that is
    out of reach: the nodes in memory are exactly the nodes [viruses]
    points at, one for each identifier, so what [remove] takes out of the
    map is destroyed. *)
Theorem nodes_are_the_viruses st :
  disciplined st →
  size (heap st) = size (viruses st)
  ∧ ∀ a, is_Some (heap st !! a) ↔ ∃ id, viruses st !! id = Some a.
Proof.
  intros Hinv%disciplined_inv. pose proof (inv_wf _ Hinv) as Hwf.
  assert (Hiff : ∀ a, is_Some (heap st !! a) ↔ ∃ id, viruses st !! id = Some a).
  { intros a. split.
    - intros [n Hn]. exists (get_id (virus n)).
      by apply (inv_registered _ Hinv).
    - intros [id Hid]. by eapply wf_live. }
  split; [|done].
  assert (Hdom : dom (heap st) ≡ map_to_set (λ _ a, a) (viruses st)).
  { intros a. rewrite elem_of_dom, Hiff, elem_of_map_to_set. naive_solver. }
  rewrite <-!size_dom. rewrite Hdom.
  unfold map_to_set. rewrite size_list_to_set.
  - by rewrite length_fmap, length_map_to_list, size_dom.
  - apply NoDup_fmap_2_strong; [|apply NoDup_map_to_list].
    intros [i a] [j b] Hi%elem_of_map_to_list Hj%elem_of_map_to_list. simpl.
    intros ->. f_equal.
    apply (wf_viruses _ Hwf) in Hi, Hj. congruence.
Qed.

End memory.

(** ** The loop of [remove] in a graph with cycles *)

Section remove_loop.
Context {virus_id_t : Type} `{Countable virus_id_t}.
Implicit Types (h : gmap addr (Node virus_id_t)) (n : Node virus_id_t).
Implicit Types (v : gmap virus_id_t addr) (st : VirusGenealogy virus_id_t).

#[local] Arguments traverse : simpl never.

(** The loop ends with an empty queue, and what it put into [fully_remove]
    stays there. *)
Lemma traverse_end h (fuel : nat) :
  ∀ t t', traverse fuel h t = Some t' →
  to_process t' = []
  ∧ ∀ c, c ∈ fully_remove t → c ∈ fully_remove t'.
Proof.
  induction fuel as [|fuel IH]; intros t t' Ht; [done|].
  unfold traverse in Ht; fold (@traverse virus_id_t _ _) in Ht.
  destruct (to_process t) as [|current q] eqn:Hq; [by injection Ht as <-|].
  destruct (h !! current) as [n|]; simpl in Ht; [|done].
  destruct (count_children h (children n) (removed_parents t) q)
    as [[rp q']|]; simpl in Ht; [|done].
  destruct (IH _ _ Ht) as [Hend Hin]. split; [done|].
  intros c Hc. apply Hin. simpl. apply elem_of_set_insert. by right.
Qed.

Lemma traverse_first_node h (fuel : nat) (r : addr) n t :
  traverse (S fuel) h {| to_process := [r]; fully_remove := [];
                         remove_iterators := []; removed_parents := ∅ |}
  = Some t →
  h !! r = Some n → r ∈ fully_remove t.
Proof.
  intros Ht Hr. unfold traverse in Ht; fold (@traverse virus_id_t _ _) in Ht.
  simpl in Ht. rewrite Hr in Ht. simpl in Ht.
  destruct (count_children h (children n) ∅ []) as [[rp q']|]; simpl in Ht;
    [|done].
  apply (traverse_end _ _ _ _ Ht). simpl. by left.
Qed.

(** X22: in every store a caller can get, with cycles or without, the loop
    of [remove] over the queue comes to an end: it takes no more turns than
    there are nodes, and one, meets no node that was destroyed, and leaves
    the queue empty, with [begin_node] among the nodes to remove and its
    identifier among the iterators to erase. *)
Theorem remove_loop_ends st (id : virus_id_t) (begin_node : addr) :
  reachable st →
  viruses st !! id = Some begin_node →
  ∃ t,
    traverse (2 + size (heap st)) (heap st)
      {| to_process := [begin_node]; fully_remove := [];
         remove_iterators := []; removed_parents := ∅ |}
    = Some t
    ∧ to_process t = []
    ∧ begin_node ∈ fully_remove t
    ∧ id ∈ remove_iterators t.
Proof.
  intros Hwf%reachable_wf Hr.
  destruct (traverse_returns (heap st) (wf_closed _ Hwf) (2 + size (heap st))
    {| to_process := [begin_node]; fully_remove := [];
       remove_iterators := []; removed_parents := ∅ |}) as [t Ht].
  { simpl. intros c ->%list_elem_of_singleton. by eapply wf_live. }
  { simpl. pose proof (unsaturated_bound (heap st) ∅). lia. }
  exists t. split; [done|].
  destruct (wf_live _ _ _ Hwf Hr) as [nr Hnr].
  pose proof (wf_viruses _ Hwf _ _ Hr) as Hidr.
  unfold id_at in Hidr. rewrite Hnr in Hidr. injection Hidr as Hidr.
  change (2 + size (heap st)) with (S (S (size (heap st)))) in Ht.
  split; [by apply (traverse_end _ _ _ _ Ht)|]. split.
  - by apply (traverse_first_node _ _ _ _ _ Ht Hnr).
  - rewrite <-Hidr. by apply (traverse_first _ _ _ _ _ Ht Hnr).
Qed.

End remove_loop.

(** ** The further properties on the stores of the examples *)

Module ExtraFacts.
Import Examples.

Lemma reachable_store_SABC : reachable store_SABC.
Proof.
  apply reachable_create; [apply ExampleFacts.reachable_store_SAB|by vm_compute].
Qed.

Lemma disciplined_store_SABC : disciplined store_SABC.
Proof.
  apply disciplined_create;
    [apply ExampleFacts.disciplined_store_SAB|by vm_compute|].
  by intros [?|[?|[]%elem_of_nil]%elem_of_cons]%elem_of_cons.
Qed.

(** From [A] no walk along the children sets gets to [B] in the store
    [S -> A, S -> B, A -> C, B -> C]. *)
Lemma B_not_below_A : ¬ descendant store_SABC "A" "B".
Proof.
  intros (a & b & Ha & Hb & Hr).
  assert (a = 101%N) as -> by (vm_compute in Ha; congruence).
  assert (b = 102%N) as -> by (vm_compute in Hb; congruence).
  apply rtc_inv in Hr as [?|(y & Hy & Hr)]; [done|].
  assert (y = 103%N) as ->.
  { unfold edge in Hy.
    assert (children_at (heap store_SABC) 101%N = [103%N]) as Hc
      by by vm_compute.
    rewrite Hc in Hy. by apply list_elem_of_singleton in Hy. }
  apply rtc_inv in Hr as [?|(z & Hz & _)]; [done|].
  unfold edge in Hz.
  assert (children_at (heap store_SABC) 103%N = []) as Hc by by vm_compute.
  rewrite Hc in Hz. by apply elem_of_nil in Hz.
Qed.

Lemma lookup_virus_get_id_witness :
  reachable store_SAB
  ∧ (exists_ "A" store_SAB = true →
       ∃ vi, lookup_virus "A" store_SAB = Some (Ok vi) ∧ get_id vi = "A")
  ∧ (exists_ "A" store_SAB = false →
       lookup_virus "A" store_SAB = Some (Err VirusNotFound)).
Proof.
  split; [apply ExampleFacts.reachable_store_SAB|].
  apply (lookup_virus_get_id store_SAB "A"), ExampleFacts.reachable_store_SAB.
Defined.

Lemma parents_and_children_in_store_witness :
  disciplined store_SABC
  ∧ (exists_ "C" store_SABC = true →
       ∃ ps cs,
         get_parents "C" store_SABC = Some (Ok ps)
         ∧ NoDup ps
         ∧ (∀ p, p ∈ ps → exists_ p store_SABC = true ∧ p ≠ "C")
         ∧ get_children "C" store_SABC = Some (Ok cs)
         ∧ NoDup cs
         ∧ (∀ vi, vi ∈ cs →
              exists_ (get_id vi) store_SABC = true ∧ get_id vi ≠ "C")).
Proof.
  split; [apply disciplined_store_SABC|].
  apply (parents_and_children_in_store store_SABC "C"), disciplined_store_SABC.
Defined.

Lemma parent_iff_child_witness :
  exists_ "A" store_SABC = true ∧ exists_ "C" store_SABC = true
  ∧ ∃ ps cs,
      get_parents "C" store_SABC = Some (Ok ps)
      ∧ get_children "A" store_SABC = Some (Ok cs)
      ∧ ("A" ∈ ps ↔ mkVirus "C" ∈ cs).
Proof.
  do 2 (split; [by vm_compute|]).
  apply (parent_iff_child store_SABC "A" "C");
    [apply disciplined_store_SABC|by vm_compute..].
Defined.

Lemma create_missing_parent_restores_witness :
  heap store_SAB !! 103%N = None
  ∧ exists_ "C" store_SAB = false
  ∧ exists_ "Z" store_SAB = false
  ∧ create "C" ["A"; "Z"] 103%N store_SAB = Throw VirusNotFound store_SAB.
Proof.
  do 3 (split; [by vm_compute|]).
  apply (create_missing_parent_restores store_SAB "C" "Z" ["A"; "Z"] 103%N);
    [apply ExampleFacts.reachable_store_SAB|by vm_compute|by vm_compute
    | |by right; left|by vm_compute].
  by intros [?|[?|[]%elem_of_nil]%elem_of_cons]%elem_of_cons.
Defined.

Lemma create_self_parent_leaks_witness :
  exists_ "X" store_SAB = false ∧ exists_ "Z" store_SAB = false
  ∧ ∃ st', create "X" ["X"; "Z"] 105%N store_SAB = Throw VirusNotFound st'
           ∧ viruses st' = viruses store_SAB
           ∧ heap st' !! 105%N
             = Some {| virus := mkVirus "X"; parents := [105%N];
                       children := [] |}
           ∧ destructor st' !! 105%N
             = Some {| virus := mkVirus "X"; parents := [105%N];
                       children := [] |}.
Proof.
  do 2 (split; [by vm_compute|]).
  apply (create_self_parent_leaks store_SAB "X" "Z" 105%N);
    [apply ExampleFacts.reachable_store_SAB|by vm_compute..|done].
Defined.

Lemma create_own_parent_witness :
  exists_ "X" store_S = false
  ∧ ∃ st', create "X" ["X"] 105%N store_S = Return st'
           ∧ exists_ "X" st' = true
           ∧ get_parents "X" st' = Some (Ok ["X"])
           ∧ get_children "X" st' = Some (Ok [mkVirus "X"]).
Proof.
  split; [by vm_compute|].
  apply (create_own_parent store_S "X" 105%N). by vm_compute.
Defined.

Lemma create_frame_witness :
  heap store_SAB !! 103%N = None
  ∧ exists_ "C" store_SAB = false
  ∧ ∃ st' cs cs',
      create "C" ["A"; "B"] 103%N store_SAB = Return st'
      ∧ get_parents "A" st' = get_parents "A" store_SAB
      ∧ get_children "A" store_SAB = Some (Ok cs)
      ∧ get_children "A" st' = Some (Ok cs')
      ∧ (∀ vi, vi ∈ cs' ↔ vi ∈ cs ∨ (vi = mkVirus "C" ∧ "A" ∈ ["A"; "B"])).
Proof.
  do 2 (split; [by vm_compute|]).
  apply (create_frame store_SAB "C" "A" ["A"; "B"] 103%N);
    [apply ExampleFacts.reachable_store_SAB|by vm_compute|by vm_compute|done
    | |by vm_compute].
  repeat (constructor; [by vm_compute|]). constructor.
Defined.

Lemma connect_adds_edge_witness :
  exists_ "B" store_SAB = true ∧ exists_ "A" store_SAB = true
  ∧ ∃ st' ps ps' cs cs',
      connect "B" "A" store_SAB = Return st'
      ∧ get_parents "B" store_SAB = Some (Ok ps)
      ∧ get_parents "B" st' = Some (Ok ps')
      ∧ (∀ i, i ∈ ps' ↔ i = "A" ∨ i ∈ ps)
      ∧ get_children "A" store_SAB = Some (Ok cs)
      ∧ get_children "A" st' = Some (Ok cs')
      ∧ (∀ vi, vi ∈ cs' ↔ vi = mkVirus "B" ∨ vi ∈ cs)
      ∧ (∀ i, i ≠ "B" → get_parents i st' = get_parents i store_SAB)
      ∧ (∀ i, i ≠ "A" → get_children i st' = get_children i store_SAB).
Proof.
  do 2 (split; [by vm_compute|]).
  apply (connect_adds_edge store_SAB "B" "A");
    [apply ExampleFacts.disciplined_store_SAB|by vm_compute..].
Defined.

Lemma connect_twice_witness :
  connect "B" "A" store_SAB = Return (state_of (connect "B" "A" store_SAB))
  ∧ connect "B" "A" (state_of (connect "B" "A" store_SAB))
    = Return (state_of (connect "B" "A" store_SAB)).
Proof.
  assert (connect "B" "A" store_SAB
          = Return (state_of (connect "B" "A" store_SAB))) as Hc
    by by vm_compute.
  split; [exact Hc|].
  exact (connect_twice store_SAB "B" "A" _ ExampleFacts.reachable_store_SAB Hc).
Defined.

Lemma remove_outcomes_witness :
  ∃ stem_id,
    get_stem_id store_SABC = Some stem_id
    ∧ ("A" = stem_id →
         remove "A" store_SABC = Some (Throw TriedToRemoveStemVirus store_SABC))
    ∧ ("A" ≠ stem_id → exists_ "A" store_SABC = false →
         remove "A" store_SABC = Some (Throw VirusNotFound store_SABC))
    ∧ ("A" ≠ stem_id → exists_ "A" store_SABC = true →
         disciplined store_SABC →
         ∃ st', remove "A" store_SABC = Some (Return st')
                ∧ exists_ "A" st' = false
                ∧ get_stem_id st' = Some stem_id
                ∧ ∀ i, exists_ i st' = true → exists_ i store_SABC = true).
Proof.
  apply (remove_outcomes store_SABC "A"), reachable_store_SABC.
Defined.

Lemma remove_cascade_witness :
  get_stem_id store_SABC = Some "S" ∧ exists_ "A" store_SABC = true
  ∧ ∃ st',
      remove "A" store_SABC = Some (Return st')
      ∧ exists_ "A" st' = false
      ∧ ∀ i, i ≠ "A" → exists_ i store_SABC = true →
          ∃ ps cs,
            get_parents i store_SABC = Some (Ok ps)
            ∧ get_children i store_SABC = Some (Ok cs)
            ∧ (exists_ i st' = false ↔
                 ps ≠ [] ∧ ∀ p, p ∈ ps → exists_ p st' = false)
            ∧ (exists_ i st' = true →
                 ∃ ps' cs',
                   get_parents i st' = Some (Ok ps')
                   ∧ get_children i st' = Some (Ok cs')
                   ∧ (∀ p, p ∈ ps' ↔ p ∈ ps ∧ exists_ p st' = true)
                   ∧ (∀ vi, vi ∈ cs' ↔
                        vi ∈ cs ∧ exists_ (get_id vi) st' = true)).
Proof.
  do 2 (split; [by vm_compute|]).
  apply (remove_cascade store_SABC "S" "A");
    [apply disciplined_store_SABC|by vm_compute|done|by vm_compute].
Defined.

Lemma remove_spares_others_witness :
  exists_ "A" store_SABC = true ∧ exists_ "B" store_SABC = true
  ∧ ¬ descendant store_SABC "A" "B"
  ∧ ∃ st',
      remove "A" store_SABC = Some (Return st')
      ∧ exists_ "B" st' = true
      ∧ lookup_virus "B" st' = lookup_virus "B" store_SABC
      ∧ get_parents "B" st' = get_parents "B" store_SABC.
Proof.
  do 2 (split; [by vm_compute|]). split; [exact B_not_below_A|].
  apply (remove_spares_others store_SABC "S" "A" "B");
    [apply disciplined_store_SABC|by vm_compute|done|by vm_compute
    |by vm_compute|exact B_not_below_A].
Defined.

Lemma all_descend_from_stem_witness :
  ∃ stem_id,
    get_stem_id store_SABC = Some stem_id
    ∧ exists_ stem_id store_SABC = true
    ∧ ∀ id, exists_ id store_SABC = true → descendant store_SABC stem_id id.
Proof.
  apply (all_descend_from_stem store_SABC), disciplined_store_SABC.
Defined.

Lemma descendant_antisymmetric_witness :
  descendant store_SAB "A" "A" ∧ "A" = "A".
Proof.
  assert (descendant store_SAB "A" "A") as Hd.
  { exists 101%N, 101%N. do 2 (split; [by vm_compute|]). apply rtc_refl. }
  split; [exact Hd|].
  exact (descendant_antisymmetric store_SAB "A" "A"
           ExampleFacts.disciplined_store_SAB Hd Hd).
Defined.

Lemma stem_id_is_kept_witness :
  heap store_SAB !! 103%N = None
  ∧ get_stem_id (construct "S" 100%N) = Some "S"
  ∧ get_stem_id (state_of (create "C" ["A"] 103%N store_SAB))
    = get_stem_id store_SAB
  ∧ get_stem_id (state_of (connect "C" "A" store_SAB)) = get_stem_id store_SAB.
Proof.
  split; [by vm_compute|].
  apply (stem_id_is_kept store_SAB "S" "C" "A" ["A"] 100%N 103%N);
    [apply ExampleFacts.reachable_store_SAB|by vm_compute].
Defined.

Lemma children_iterators_walk_witness :
  (exists_ "S" store_SABC = true →
     ∃ first last vs,
       get_children_begin "S" store_SABC = Ok first
       ∧ get_children_end "S" store_SABC = Ok last
       ∧ get_children "S" store_SABC = Some (Ok vs)
       ∧ walk (S (length vs)) store_SABC first last = Some vs
       ∧ walk_back (S (length vs)) store_SABC last first = Some (reverse vs)
       ∧ (Iterator_eqb first last = true ↔ vs = []))
  ∧ (exists_ "S" store_SABC = false →
       get_children_begin "S" store_SABC = Err VirusNotFound
       ∧ get_children_end "S" store_SABC = Err VirusNotFound).
Proof.
  apply (children_iterators_walk store_SABC "S"), reachable_store_SABC.
Defined.

Lemma destructor_frees_all_witness : destructor store_SABC = ∅.
Proof.
  apply (destructor_frees_all store_SABC), disciplined_store_SABC.
Defined.

Lemma create_any_then_remove_restores_witness :
  heap store_SAB !! 103%N = None
  ∧ exists_ "C" store_SAB = false
  ∧ (∃ st1, create_one "C" "A" 103%N store_SAB = Return st1
            ∧ remove "C" st1 = Some (Return store_SAB))
  ∧ (∃ st1, create "C" ["A"; "B"; "A"] 103%N store_SAB = Return st1
            ∧ remove "C" st1 = Some (Return store_SAB)).
Proof.
  do 2 (split; [by vm_compute|]).
  apply (create_any_then_remove_restores store_SAB "S" "C" "A" ["B"; "A"] 103%N);
    [apply ExampleFacts.reachable_store_SAB|by vm_compute..|].
  repeat (constructor; [by vm_compute|]). constructor.
Defined.

Lemma queries_meet_no_dangling_pointer_witness :
  is_Some (get_stem_id store_SABC)
  ∧ is_Some (lookup_virus "C" store_SABC)
  ∧ is_Some (get_parents "C" store_SABC)
  ∧ is_Some (get_children "C" store_SABC).
Proof.
  apply (queries_meet_no_dangling_pointer store_SABC "C"), reachable_store_SABC.
Defined.

Lemma nodes_are_the_viruses_witness :
  size (heap store_SABC) = size (viruses store_SABC)
  ∧ ∀ a, is_Some (heap store_SABC !! a)
         ↔ ∃ id, viruses store_SABC !! id = Some a.
Proof.
  apply (nodes_are_the_viruses store_SABC), disciplined_store_SABC.
Defined.

Lemma remove_loop_ends_witness :
  reachable store_SA_cycle
  ∧ viruses store_SA_cycle !! "A" = Some 101%N
  ∧ ∃ t,
      traverse (2 + size (heap store_SA_cycle)) (heap store_SA_cycle)
        {| to_process := [101%N]; fully_remove := [];
           remove_iterators := []; removed_parents := ∅ |}
      = Some t
      ∧ to_process t = []
      ∧ 101%N ∈ fully_remove t
      ∧ "A" ∈ remove_iterators t.
Proof.
  assert (reachable store_SA_cycle) as Hr
    by apply reachable_connect, ExampleFacts.reachable_store_SA.
  split; [exact Hr|]. split; [by vm_compute|].
  apply (remove_loop_ends store_SA_cycle "A" 101%N Hr). by vm_compute.
Defined.

End ExtraFacts.
